(** * Threads media extractor: the extraction pipeline of [main.go]

    A shallow embedding of the URL normalizer, the media-reference
    predicates and scorer, the content-type classifier, the extraction
    strategies (the two of the chain and the two defined beside it), the
    metadata extractor and the HTTP handlers, followed by the properties the
    specification states about them and by further properties of the code.

    Go strings are byte sequences: they are modelled as [list ascii], with
    string literals coerced.  Labels, selectors and map keys, which are
    literals of the program text, are [string]s. *)

From Stdlib Require Import String Ascii List ZArith Lia Bool DecimalString.
From Stdlib Require Import Decimal DecimalPos DecimalZ.
From stdpp Require Import gmap strings.
Import ListNotations.

Abbreviation str := (list ascii).
Coercion list_ascii_of_string : string >-> list.

Local Open Scope bool_scope.

(** Rocq strings have no escapes: in the literals below a backquote stands
    for the double quote of the Go literal, and [Q] puts it back.  No
    literal of the program contains a backquote. *)
Definition Q (s : string) : str :=
  map (fun c => if Ascii.eqb c "`" then "034"%char else c) (s : str).

(** ** The [strings] package, as far as the program uses it *)

Module strings.

(** [strings.HasPrefix(s, prefix)] *)
Fixpoint HasPrefix (s prefix : str) {struct prefix} : bool :=
  match prefix, s with
  | [], _ => true
  | _ :: _, [] => false
  | c :: p', d :: s' => Ascii.eqb c d && HasPrefix s' p'
  end.

(** [strings.Contains(s, substr)]: [substr] starts at some offset of [s]. *)
Fixpoint Contains (s substr : str) : bool :=
  HasPrefix s substr ||
  match s with
  | [] => false
  | _ :: s' => Contains s' substr
  end.

(** [strings.ReplaceAll(s, old, new)] for a non-empty [old], which is what
    every call site passes: the occurrences are replaced from left to right
    and do not overlap.  [skip] counts the bytes of an occurrence already
    replaced that are still to be dropped. *)
Fixpoint replace_from (old new : str) (skip : nat) (s : str) : str :=
  match s with
  | [] => []
  | c :: s' =>
      match skip with
      | S k => replace_from old new k s'
      | O =>
          if HasPrefix s old
          then new ++ replace_from old new (length old - 1) s'
          else c :: replace_from old new 0 s'
      end
  end.

Definition ReplaceAll (s old new : str) : str :=
  match old with
  | [] => s
  | _ :: _ => replace_from old new 0 s
  end.

(** [strings.TrimSpace] on the ASCII white space: tab, line feed, vertical
    tab, form feed, carriage return and space.  (Go also trims the Unicode
    spaces beyond ASCII; only the page title goes through this function.) *)
Definition isSpace (c : ascii) : bool :=
  let n := nat_of_ascii c in
  ((9 <=? n) && (n <=? 13)) || (n =? 32).

Fixpoint TrimLeft (s : str) : str :=
  match s with
  | c :: s' => if isSpace c then TrimLeft s' else s
  | [] => []
  end.

Definition TrimSpace (s : str) : str :=
  rev (TrimLeft (rev (TrimLeft s))).

(** [strings.ToLower] on ASCII letters. *)
Definition lower (c : ascii) : ascii :=
  let n := nat_of_ascii c in
  if (65 <=? n) && (n <=? 90) then ascii_of_nat (n + 32) else c.

Definition ToLower (s : str) : str := map lower s.

(** [strings.Cut(s, sep)] for a one-byte separator: the text before the
    first [sep], the text after it, and whether [sep] occurs. *)
Fixpoint Cut (s : str) (sep : ascii) : str * str * bool :=
  match s with
  | [] => ([], [], false)
  | c :: s' =>
      if Ascii.eqb c sep then ([], s', true)
      else let '(before, after, found) := Cut s' sep in (c :: before, after, found)
  end.

End strings.

(** ** The [regexp] package: a backtracking matcher

    Go's [regexp] returns the match a backtracking engine finds first
    (leftmost, then by the preference of each operator), which is what
    [exec] computes in continuation-passing style.  The syntax covers what
    the patterns of the program use: literals, character classes and their
    greedy or lazy repetitions, optional parts, alternatives, capture
    groups and the start-of-text anchor.  A class is a predicate on one byte;
    the classes that occur are ASCII sets or complements of ASCII sets, for
    which matching by byte and matching by rune agree. *)

Module regexp.

Inductive re :=
| Lit (l : str)                     (* literal text *)
| Class (c : ascii -> bool)         (* one byte of the class *)
| Star (c : ascii -> bool)          (* [c*], greedy *)
| Plus (c : ascii -> bool)          (* [c+], greedy *)
| LazyStar (c : ascii -> bool)      (* [c*?] *)
| Opt (r : re)                      (* [r?], greedy *)
| Alt (r1 r2 : re)                  (* [r1|r2] *)
| Seq (r1 r2 : re)                  (* [r1 r2] *)
| Group (r : re)                    (* [(r)], capturing *)
| Bol.                              (* [^] *)

(** Capture groups are numbered by their opening parenthesis. *)
Fixpoint ngroups (r : re) : nat :=
  match r with
  | Opt r => ngroups r
  | Alt r1 r2 | Seq r1 r2 => ngroups r1 + ngroups r2
  | Group r => S (ngroups r)
  | _ => 0
  end.

Definition captures := list (nat * str).

Section Exec.
Context {A : Type}.

(** Greedy repetition of a class: the longest run first, then shorter. *)
Fixpoint star (c : ascii -> bool) (s : str) (k : str -> option A) : option A :=
  match s with
  | x :: s' =>
      if c x
      then match star c s' k with
           | Some a => Some a
           | None => k s
           end
      else k s
  | [] => k []
  end.

(** Lazy repetition of a class: the shortest run first. *)
Fixpoint lazy_star (c : ascii -> bool) (s : str) (k : str -> option A) : option A :=
  match k s with
  | Some a => Some a
  | None =>
      match s with
      | x :: s' => if c x then lazy_star c s' k else None
      | [] => None
      end
  end.

(** [exec r n text s caps k]: match [r] at the suffix [s] of [text], [n]
    being the number of the next group to open, then continue with [k] on
    what is left. *)
Fixpoint exec (r : re) (n : nat) (text s : str) (caps : captures)
    (k : str -> captures -> option A) : option A :=
  match r with
  | Lit l => if strings.HasPrefix s l then k (skipn (length l) s) caps else None
  | Class c =>
      match s with
      | x :: s' => if c x then k s' caps else None
      | [] => None
      end
  | Star c => star c s (fun s' => k s' caps)
  | Plus c =>
      match s with
      | x :: s' => if c x then star c s' (fun s'' => k s'' caps) else None
      | [] => None
      end
  | LazyStar c => lazy_star c s (fun s' => k s' caps)
  | Opt r1 =>
      match exec r1 n text s caps k with
      | Some a => Some a
      | None => k s caps
      end
  | Alt r1 r2 =>
      match exec r1 n text s caps k with
      | Some a => Some a
      | None => exec r2 (n + ngroups r1) text s caps k
      end
  | Seq r1 r2 =>
      exec r1 n text s caps (fun s' caps' => exec r2 (n + ngroups r1) text s' caps' k)
  | Group r1 =>
      exec r1 (S n) text s caps
        (fun s' caps' => k s' ((n, firstn (length s - length s') s) :: caps'))
  | Bol => if length s =? length text then k s caps else None
  end.
End Exec.

(** The text of group [i], empty when the group took no part in the match. *)
Fixpoint capture (caps : captures) (i : nat) : str :=
  match caps with
  | [] => []
  | (j, t) :: caps' => if i =? j then t else capture caps' i
  end.

(** A match starting exactly at the suffix [s] of [text]: the matched text
    followed by the text of each group. *)
Definition match_here (r : re) (text s : str) : option (list str) :=
  exec r 1 text s []
    (fun s' caps =>
       Some (firstn (length s - length s') s ::
             map (capture caps) (seq 1 (ngroups r)))).

Fixpoint search (r : re) (text s : str) : option (list str) :=
  match match_here r text s with
  | Some m => Some m
  | None =>
      match s with
      | [] => None
      | _ :: s' => search r text s'
      end
  end.

(** [re.FindStringSubmatch(s)]: the leftmost match and its groups, [None]
    for Go's nil. *)
Definition FindStringSubmatch (r : re) (s : str) : option (list str) :=
  search r s s.

(** [re.MatchString(s)] and [regexp.MatchString(pattern, s)] *)
Definition MatchString (r : re) (s : str) : bool :=
  match FindStringSubmatch r s with
  | Some _ => true
  | None => false
  end.

(** [re.FindAllStringSubmatch(s, -1)]: the successive matches, none
    overlapping the one before.  [skip] counts the bytes of the last match
    still to be passed.  (After an empty match Go moves on by one rune; no
    pattern given to this function matches the empty text.) *)
Fixpoint find_all (r : re) (text : str) (skip : nat) (s : str) : list (list str) :=
  match skip with
  | S k =>
      match s with
      | [] => []
      | _ :: s' => find_all r text k s'
      end
  | O =>
      match match_here r text s with
      | Some m =>
          m :: match s with
               | [] => []
               | _ :: s' => find_all r text (length (hd [] m) - 1) s'
               end
      | None =>
          match s with
          | [] => []
          | _ :: s' => find_all r text 0 s'
          end
      end
  end.

Definition FindAllStringSubmatch (r : re) (s : str) : list (list str) :=
  find_all r s 0 s.

(** *** Character classes *)

Definition byte_is (x : str) (c : ascii) : bool :=
  existsb (Ascii.eqb c) x.

(** [\d] *)
Definition digit (c : ascii) : bool :=
  let n := nat_of_ascii c in (48 <=? n) && (n <=? 57).

(** [\w]: letters, digits and underscore *)
Definition word (c : ascii) : bool :=
  let n := nat_of_ascii c in
  digit c || ((65 <=? n) && (n <=? 90)) || ((97 <=? n) && (n <=? 122)) || (n =? 95).

(** [\s]: tab, line feed, form feed, carriage return, space *)
Definition space (c : ascii) : bool :=
  let n := nat_of_ascii c in
  (n =? 9) || (n =? 10) || (n =? 12) || (n =? 13) || (n =? 32).

(** [.]: any byte but the line feed *)
Definition dot (c : ascii) : bool := negb (nat_of_ascii c =? 10).

(** [[^...]] over the bytes of [x] *)
Definition none_of (x : str) (c : ascii) : bool := negb (byte_is x c).

End regexp.

Declare Scope re_scope.
Delimit Scope re_scope with re.
Bind Scope re_scope with regexp.re.
Infix "·" := regexp.Seq (at level 40, left associativity) : re_scope.

(** ** The [net/url] package: [url.Parse]

    [Parse] belongs to Go's standard library, not to the repository.  The
    normalizer is defined over any parser (see [normalizeURL]); the model
    below follows [url.Parse] step by step and serves to run the normalizer
    on concrete addresses.  Of a parsed URL the program reads [Host] and
    [Path] only.  Left out: hosts written as bracketed IP literals, which
    are reported as errors. *)

Module url.

Record URL := mkURL {
  Scheme : str;
  Opaque : str;
  User : str;
  Host : str;
  Path : str;
  RawQuery : str;
  Fragment : str
}.

Inductive ParseError :=
| InvalidControlCharacter
| MissingProtocolScheme
| FirstPathSegmentColon
| InvalidPort
| InvalidUserinfo
| InvalidHostError
| EscapeError
| UnsupportedIPLiteral.

Definition between (lo hi : nat) (c : ascii) : bool :=
  let n := nat_of_ascii c in (lo <=? n) && (n <=? hi).

Definition isLetter (c : ascii) : bool := between 65 90 c || between 97 122 c.
Definition isDigit (c : ascii) : bool := between 48 57 c.
Definition ishex (c : ascii) : bool :=
  isDigit c || between 97 102 c || between 65 70 c.

Definition unhex (c : ascii) : nat :=
  let n := nat_of_ascii c in
  if isDigit c then n - 48
  else if between 97 102 c then n - 97 + 10
  else if between 65 70 c then n - 65 + 10
  else 0.

Definition one_of (x : string) (c : ascii) : bool := existsb (Ascii.eqb c) (x : str).

(** [stringContainsCTLByte] *)
Definition stringContainsCTLByte (s : str) : bool :=
  existsb (fun c => (nat_of_ascii c <? 32) || (nat_of_ascii c =? 127)) s.

(** [getScheme]: the scheme before the first colon and the rest, or no
    scheme and the whole text. [seen] is the scheme read so far, reversed. *)
Fixpoint getScheme_from (rawURL : str) (seen : str) (s : str)
    : ParseError + (str * str) :=
  match s with
  | [] => inr ([], rawURL)
  | c :: s' =>
      if isLetter c then getScheme_from rawURL (c :: seen) s'
      else if isDigit c || one_of "+-." c then
        match seen with
        | [] => inr ([], rawURL)
        | _ :: _ => getScheme_from rawURL (c :: seen) s'
        end
      else if Ascii.eqb c ":" then
        match seen with
        | [] => inl MissingProtocolScheme
        | _ :: _ => inr (rev seen, s')
        end
      else inr ([], rawURL)
  end.

Definition getScheme (rawURL : str) : ParseError + (str * str) :=
  getScheme_from rawURL [] rawURL.

(** [unescape(s, encodePath)], also the behaviour of [encodeFragment]:
    every percent sign must be followed by two hexadecimal digits, which it
    is replaced with the byte of. *)
Fixpoint unescape (s : str) : ParseError + str :=
  match s with
  | [] => inr []
  | c :: s' =>
      if Ascii.eqb c "%" then
        match s' with
        | h1 :: h2 :: s'' =>
            if ishex h1 && ishex h2 then
              match unescape s'' with
              | inr t => inr (ascii_of_nat (16 * unhex h1 + unhex h2) :: t)
              | inl e => inl e
              end
            else inl EscapeError
        | _ => inl EscapeError
        end
      else
        match unescape s' with
        | inr t => inr (c :: t)
        | inl e => inl e
        end
  end.

(** [shouldEscape(c, encodeHost)] *)
Definition shouldEscapeHost (c : ascii) : bool :=
  negb (isLetter c || isDigit c || one_of "!$&'()*+,;=:[]<>" c ||
        Ascii.eqb c "034" || one_of "-_.~" c).

(** [unescape(s, encodeHost)]: an escape may only stand for a byte above
    127, or be [%25]; an ASCII byte that would need escaping is refused. *)
Fixpoint unescapeHost (s : str) : ParseError + str :=
  match s with
  | [] => inr []
  | c :: s' =>
      if Ascii.eqb c "%" then
        match s' with
        | h1 :: h2 :: s'' =>
            if ishex h1 && ishex h2 then
              if (unhex h1 <? 8) && negb (Ascii.eqb h1 "2" && Ascii.eqb h2 "5")
              then inl EscapeError
              else
                match unescapeHost s'' with
                | inr t => inr (ascii_of_nat (16 * unhex h1 + unhex h2) :: t)
                | inl e => inl e
                end
            else inl EscapeError
        | _ => inl EscapeError
        end
      else if (nat_of_ascii c <? 128) && shouldEscapeHost c then inl InvalidHostError
      else
        match unescapeHost s' with
        | inr t => inr (c :: t)
        | inl e => inl e
        end
  end.

(** [validOptionalPort]: empty, or a colon followed by digits. *)
Definition validOptionalPort (port : str) : bool :=
  match port with
  | [] => true
  | c :: digits => Ascii.eqb c ":" && forallb isDigit digits
  end.

(** The text from the last [sep] of [s] on, if [sep] occurs. *)
Fixpoint fromLast (sep : ascii) (s : str) : option str :=
  match s with
  | [] => None
  | c :: s' =>
      match fromLast sep s' with
      | Some t => Some t
      | None => if Ascii.eqb c sep then Some s else None
      end
  end.

(** [parseHost] *)
Definition parseHost (host : str) : ParseError + str :=
  if strings.HasPrefix host "[" then inl UnsupportedIPLiteral
  else
    match fromLast ":" host with
    | Some colonPort =>
        if validOptionalPort colonPort then unescapeHost host else inl InvalidPort
    | None => unescapeHost host
    end.

(** [validUserinfo] *)
Definition validUserinfo (s : str) : bool :=
  forallb (fun c => isLetter c || isDigit c || one_of "-._:~!$&'()*+,;=%@" c) s.

(** [parseAuthority]: the user information before the last at-sign, kept
    as it is written once its characters and escapes are checked, and the
    host. *)
Definition parseAuthority (authority : str) : ParseError + (str * str) :=
  match fromLast "@" authority with
  | None =>
      match parseHost authority with
      | inr host => inr ([], host)
      | inl e => inl e
      end
  | Some atHost =>
      match parseHost (tl atHost) with
      | inr host =>
          let userinfo := firstn (length authority - length atHost) authority in
          if validUserinfo userinfo then
            match unescape userinfo with
            | inr _ => inr (userinfo, host)
            | inl e => inl e
            end
          else inl InvalidUserinfo
      | inl e => inl e
      end
  end.

(** [parse(rawURL, false)] *)
Definition parse (rawURL : str) : ParseError + URL :=
  if stringContainsCTLByte rawURL then inl InvalidControlCharacter
  else if strings.HasPrefix rawURL "*" && Nat.eqb (length rawURL) 1
  then inr (mkURL [] [] [] [] ("*" : str) [] [])
  else
    match getScheme rawURL with
    | inl e => inl e
    | inr (scheme, rest) =>
        let scheme := strings.ToLower scheme in
        let '(rest, rawQuery, _) := strings.Cut rest "?" in
        let rootless := negb (strings.HasPrefix rest "/") in
        if rootless && negb (Nat.eqb (length scheme) 0)
        then inr (mkURL scheme rest [] [] [] rawQuery [])
        else if rootless &&
                (let '(segment, _, _) := strings.Cut rest "/" in
                 strings.Contains segment ":")
        then inl FirstPathSegmentColon
        else
          let withAuthority :=
            (negb (Nat.eqb (length scheme) 0) || negb (strings.HasPrefix rest "///")) &&
            strings.HasPrefix rest "//" in
          let '(authority, rest) :=
            if withAuthority
            then let '(authority, path, found) := strings.Cut (skipn 2 rest) "/" in
                 (authority, if found then ("/" : str) ++ path else [])
            else ([], rest) in
          match (if withAuthority then parseAuthority authority else inr ([], [])) with
          | inl e => inl e
          | inr (user, host) =>
              match unescape rest with
              | inl e => inl e
              | inr path => inr (mkURL scheme [] user host path rawQuery [])
              end
          end
    end.

(** [url.Parse]: the fragment is cut off first and unescaped last. *)
Definition Parse (rawURL : str) : ParseError + URL :=
  let '(u, frag, _) := strings.Cut rawURL "#" in
  match parse u with
  | inl e => inl e
  | inr url =>
      match frag with
      | [] => inr url
      | _ :: _ =>
          match unescape frag with
          | inl e => inl e
          | inr fragment =>
              inr (mkURL (Scheme url) (Opaque url) (User url) (Host url) (Path url)
                     (RawQuery url) fragment)
          end
      end
  end.

End url.

(** ** Media-reference validator and scorer *)

Definition facebookVideoCDNs : list str :=
  ["video.fbcdn.net" : str; "scontent-video" : str; "video.xx.fbcdn.net" : str; "video-" : str].

Definition videoKeywords : list str :=
  ["video" : str; "playable" : str; "stream" : str; "media" : str;
   ".mp4" : str; ".webm" : str; ".mov" : str].

(** [isValidVideoURL]: is the URL likely a video. *)
Definition isValidVideoURL (url : str) : bool :=
  match url with
  | [] => false
  | _ :: _ =>
      if strings.Contains url ".jpg" || strings.Contains url ".jpeg" ||
         strings.Contains url ".png" || strings.Contains url ".webp" ||
         strings.Contains url ".gif"
      then false
      else if strings.Contains url ".mp4" || strings.Contains url ".webm" ||
              strings.Contains url ".mov" || strings.Contains url ".m4v" ||
              strings.Contains url ".avi" || strings.Contains url ".mkv"
      then true
      else if existsb (fun cdn => strings.Contains url cdn) facebookVideoCDNs
      then true
      else if strings.Contains url "cdninstagram.com"
      then true
      else if (strings.Contains url "fbcdn.net" || strings.Contains url "scontent") &&
              (strings.Contains url "video" || strings.Contains url ".mp4")
      then true
      else if (strings.Contains url "threads.net" || strings.Contains url "fbcdn.net" ||
               strings.Contains url "scontent") &&
              existsb (fun keyword => strings.Contains url keyword) videoKeywords
      then true
      else false
  end.

Definition excludePatterns : list str :=
  ["profile" : str; "avatar" : str; "logo" : str; "icon" : str; "badge" : str;
   "button" : str; "default" : str; "safe_image" : str].

Definition hasImageExtension (url : str) : bool :=
  strings.Contains url ".jpg" || strings.Contains url ".jpeg" ||
  strings.Contains url ".png" || strings.Contains url ".webp".

(** [isValidImageURL]: is the URL likely a content image, not a UI element. *)
Definition isValidImageURL (url : str) : bool :=
  match url with
  | [] => false
  | _ :: _ =>
      if strings.Contains url ".mp4" || strings.Contains url ".webm" ||
         strings.Contains url ".mov" || strings.Contains url "video"
      then false
      else if negb (strings.Contains url "cdninstagram.com") &&
              negb (strings.Contains url "fbcdn.net") &&
              negb (strings.Contains url "scontent")
      then false
      else if negb (hasImageExtension url)
      then false
      else if existsb (fun pattern => strings.Contains url pattern) excludePatterns
      then false
      else true
  end.

(** [scoreImageURL]: quality score of an image URL, higher is better. *)
Definition scoreImageURL (url : str) : Z :=
  if negb (isValidImageURL url) then 0%Z
  else
    let score := 50%Z in
    let score :=
      if strings.Contains url "1080x1080" then (score + 50)%Z
      else if strings.Contains url "720x720" then (score + 30)%Z
      else if strings.Contains url "640x640" then (score + 20)%Z
      else score in
    let score :=
      if strings.Contains url "full_res" || strings.Contains url "original"
      then (score + 25)%Z
      else score in
    score.

(** ** The [strconv] and [fmt] functions of the metadata extractor *)

Module strconv.

Fixpoint digits_value (acc : Z) (s : str) : option Z :=
  match s with
  | [] => Some acc
  | c :: s' =>
      if regexp.digit c
      then digits_value (10 * acc + Z.of_nat (nat_of_ascii c - 48))%Z s'
      else None
  end.

(** [strconv.ParseInt(s, 10, 64)]: an optional sign and decimal digits, an
    error ([None]) on anything else and outside the range of [int64]. *)
Definition ParseInt (s : str) : option Z :=
  let '(neg, body) :=
    match s with
    | c :: s' =>
        if Ascii.eqb c "-" then (true, s')
        else if Ascii.eqb c "+" then (false, s')
        else (false, s)
    | [] => (false, [])
    end in
  match body with
  | [] => None
  | _ :: _ =>
      match digits_value 0 body with
      | None => None
      | Some v =>
          let v := if neg then (- v)%Z else v in
          if ((- 2 ^ 63 <=? v) && (v <=? 2 ^ 63 - 1))%Z then Some v else None
      end
  end.

End strconv.

(** [fmt.Sprintf("%d", n)] *)
Definition Sprintf_d (n : Z) : str := NilZero.string_of_int (Z.to_int n).

(** ** Results and errors *)

(** [ExtractResponse].  A nil map is the empty map. *)
Record ExtractResponse := mkExtractResponse {
  MediaURL : str;
  MediaType : str;
  Success : bool;
  VideoID : str;
  Title : str;
  Duration : Z;
  VideoUrls : gmap string str;
  Metadata : gmap string str
}.

(** The errors of an extraction call, under the names of the
    specification; each stands for one [fmt.Errorf] of the source. *)
Inductive error :=
| InvalidURL          (* invalid URL format: ... *)
| UntrustedDomain     (* URL must be from threads.com or threads.net *)
| MalformedPostPath   (* invalid Threads post URL format - must be a post ... *)
| NavigationFailure   (* failed to navigate to Threads post: ... *)
| NoMediaFound        (* Threads extraction failed - unable to find media URLs ... *)
| InternalFault.      (* extraction failed due to internal error *)

Inductive result (A : Type) :=
| Ok (a : A)
| Err (e : error).
Arguments Ok {A} a.
Arguments Err {A} e.

(** ** URL normalizer *)

Definition validDomains : list str :=
  ["threads.com" : str; "www.threads.com" : str; "m.threads.com" : str;
   "threads.net" : str; "www.threads.net" : str; "m.threads.net" : str].

Definition handle_char (c : ascii) : bool := regexp.word c || regexp.byte_is ".-" c.
Definition post_id_char (c : ascii) : bool := regexp.word c || regexp.byte_is "-" c.

(** [^/@[\w.-]+/post/[\w-]+/?] *)
Definition threadsPattern : regexp.re :=
  (regexp.Bol · regexp.Lit "/@" · regexp.Plus handle_char · regexp.Lit "/post/" ·
   regexp.Plus post_id_char · regexp.Opt (regexp.Lit "/"))%re.

Section Normalizer.
(** [url.Parse], of the standard library. *)
Variable Parse : str -> url.ParseError + url.URL.

(** [normalizeURL] removes the query parameters and normalizes the
    Threads URL. *)
Definition normalizeURL (inputURL : str) : result str :=
  match Parse inputURL with
  | inl _ => Err InvalidURL
  | inr parsedURL =>
      let isValidDomain :=
        existsb (fun domain => strings.Contains (url.Host parsedURL) domain) validDomains in
      if negb isValidDomain then Err UntrustedDomain
      else if negb (regexp.MatchString threadsPattern (url.Path parsedURL))
      then Err MalformedPostPath
      else Ok (("https://www.threads.net" : str) ++ url.Path parsedURL)
  end.
End Normalizer.

(** ** The rendered page

    The browser control plane is outside the program: a page is what its
    queries answer.  A query that fails or times out answers [None]; the
    program treats a failed read of an attribute like a missing one. *)

Record DOMElement := mkDOMElement {
  attributes : gmap string str;
  (** [Elements("source")] below the element: the attributes of each *)
  sources : option (list (gmap string str));
  (** the value of [this.currentSrc || this.src] *)
  currentSrc : option str
}.

Definition Attribute (e : DOMElement) (name : string) : option str :=
  attributes e !! name.

Record Page := mkPage {
  Element : str -> option DOMElement;
  Elements : str -> option (list DOMElement);
  HTML : option str
}.

Definition nonempty (s : str) : bool :=
  match s with
  | [] => false
  | _ :: _ => true
  end.

(** The first element of [l] on which [f] answers, as a loop that returns
    from inside its body does. *)
Fixpoint first_some {A B : Type} (f : A -> option B) (l : list A) : option B :=
  match l with
  | [] => None
  | x :: l' =>
      match f x with
      | Some y => Some y
      | None => first_some f l'
      end
  end.

(** ** Patterns *)

Definition not_quote : ascii -> bool := regexp.none_of (Q "`").
Definition not_brace : ascii -> bool := regexp.none_of "}".
Definition not_lt : ascii -> bool := regexp.none_of "<".
(** [[^`'\s]], the backquote standing for the double quote *)
Definition url_char (c : ascii) : bool :=
  negb (regexp.byte_is (Q "`'") c || regexp.space c).

Import regexp.

(** [<key>\s*`([^`]+)`] *)
Definition quoted_value (key : str) : re :=
  (Lit key · Star space · Lit (Q "`") · Group (Plus not_quote) · Lit (Q "`"))%re.

(** [<key>\s*] and, between quotes, the group [[^`]+\.mp4[^`]*] *)
Definition quoted_mp4 (key : str) : re :=
  (Lit key · Star space · Lit (Q "`") ·
   Group (Plus not_quote · Lit ".mp4" · Star not_quote) · Lit (Q "`"))%re.

(** [https://[^`'\s]*<host>[^`'\s]*\.mp4[^`'\s]*] *)
Definition cdn_mp4 (host : re) : re :=
  (Lit "https://" · Star url_char · host · Star url_char · Lit ".mp4" · Star url_char)%re.

(** [(jpg|jpeg|png|webp)] *)
Definition image_extension : re :=
  Group (Alt (Lit "jpg") (Alt (Lit "jpeg") (Alt (Lit "png") (Lit "webp")))).

(** [https://[^`'\s]*<host>[^`'\s]*\.(jpg|jpeg|png|webp)[^`'\s]*] *)
Definition cdn_image (host : str) : re :=
  (Lit "https://" · Star url_char · Lit host · Star url_char · Lit "." ·
   image_extension · Star url_char)%re.

(** ** Content-type classifier *)

Definition videoIndicators : list str :=
  [Q "meta[property=`og:video:url`]";
   Q "meta[property=`og:video`]";
   Q "meta[property=`og:video:secure_url`]";
   Q "meta[name=`twitter:player:stream`]";
   Q "meta[property=`og:type`][content=`video`]";
   Q "meta[property=`og:type`][content=`video.other`]"].

Definition videoIndicatorPatterns : list re :=
  [Lit (Q "`__typename`:`Video`");
   Lit (Q "`__typename`:`XDTGraphVideo`");
   Lit (Q "`is_video`:true");
   Lit (Q "`media_type`:2");
   Lit (Q "`media_type`:`2`");
   Lit (Q "`product_type`:`clips`");
   Lit (Q "`product_type`:`igtv`");
   Lit (Q "`video_url`:`");
   (Lit (Q "`video_versions`:") · Star space · Lit "[")%re;
   Lit (Q "`video_dash_manifest`:`");
   Lit (Q "`video_duration`:");
   Lit (Q "`has_audio`:");
   (Lit (Q "`original_width`:") · Star dot · Lit (Q "`original_height`:"))%re;
   Lit (Q "`playback_duration_secs`:")].

Definition videoURLPatterns : list re :=
  [quoted_value (Q "`video_url`:");
   quoted_mp4 (Q "`url`:");
   (Lit (Q "video_versions`:") · Star space · Lit "[" · Star space · Lit "{" ·
    Star space · quoted_value (Q "`url`:"))%re;
   (Lit (Q "video_versions`") · LazyStar dot · Lit (Q "`url`:`") ·
    Group (Plus not_quote · Lit ".mp4" · Star not_quote) · Lit (Q "`"))%re;
   quoted_mp4 (Q "`src`:");
   quoted_value (Q "`video_dash_manifest`:");
   quoted_value (Q "browser_native_hd_url`:");
   quoted_value (Q "browser_native_sd_url`:")].

Definition has_image_suffix (s : str) : bool :=
  strings.Contains s ".jpg" || strings.Contains s ".jpeg" ||
  strings.Contains s ".png" || strings.Contains s ".webp".

(** Does a [video] element carry a valid video URL in [src], in [data-src]
    or in the [src] of a nested [source]. *)
Definition video_element_detected (video : DOMElement) : bool :=
  (match Attribute video "src" with
   | Some src => nonempty src && isValidVideoURL src
   | None => false
   end) ||
  (match Attribute video "data-src" with
   | Some dataSrc => nonempty dataSrc && isValidVideoURL dataSrc
   | None => false
   end) ||
  (match sources video with
   | Some sources =>
       existsb (fun source =>
                  match source !! "src" with
                  | Some src => nonempty src && isValidVideoURL src
                  | None => false
                  end) sources
   | None => false
   end).

(** The scan of the page markup: an indicator pattern matches, or the
    first capture of a URL pattern is a valid video URL. *)
Definition markup_signals_video (html : str) : bool :=
  existsb (fun pattern => MatchString pattern html) videoIndicatorPatterns ||
  existsb
    (fun pattern =>
       match FindStringSubmatch pattern html with
       | Some (_ :: url :: _) => isValidVideoURL url
       | _ => false
       end) videoURLPatterns.

(** [analyzePageContent] determines if the page contains video or image
    content. *)
Definition analyzePageContent (page : Page) : str :=
  if existsb
       (fun selector =>
          match Element page selector with
          | Some meta =>
              match Attribute meta "content" with
              | Some content =>
                  nonempty content &&
                  (strings.Contains content "video" || strings.Contains content ".mp4")
              | None => false
              end
          | None => false
          end) videoIndicators
  then "video"
  else if match Elements page "video" with
          | Some videoElements => existsb video_element_detected videoElements
          | None => false
          end
  then "video"
  else if match HTML page with
          | Some html => markup_signals_video html
          | None => false
          end
  then "video"
  else if match Element page (Q "meta[property=`og:image`]") with
          | Some imageMeta =>
              match Attribute imageMeta "content" with
              | Some content => nonempty content && has_image_suffix content
              | None => false
              end
          | None => false
          end
  then "image"
  else if match Elements page "img" with
          | Some imgElements =>
              let imageCount :=
                length
                  (List.filter
                     (fun img =>
                        match Attribute img "src" with
                        | Some src =>
                            nonempty src &&
                            (strings.Contains src "cdninstagram.com" ||
                             strings.Contains src "fbcdn.net" ||
                             strings.Contains src "scontent") &&
                            has_image_suffix src
                        | None => false
                        end) imgElements) in
              0 <? imageCount
          | None => false
          end
  then "image"
  else "image".

(** ** Metadata extractor *)

(** The unescaping every captured URL goes through. *)
Definition unescape (url : str) : str :=
  let url := strings.ReplaceAll url "\u0026" "&" in
  strings.ReplaceAll url "\/" "/".

(** [`<key>`:`([^`]+)`] *)
Definition field_pattern (key : str) : re :=
  (Lit (Q "`" ++ key ++ Q "`:`") · Group (Plus not_quote) · Lit (Q "`"))%re.

Definition metadataPatterns (key : string) : re :=
  match key with
  | "video_id" =>
      (Lit (Q "`video_id`:") · Opt (Lit (Q "`")) · Group (Plus digit) · Opt (Lit (Q "`")))%re
  | "title" => (Lit "<title>" · Group (Plus not_lt) · Lit "</title>")%re
  | "duration" => (Lit (Q "`playable_duration_in_ms`:") · Group (Plus digit))%re
  | "browser_hd" => field_pattern "browser_native_hd_url"
  | "browser_sd" => field_pattern "browser_native_sd_url"
  | "hd_src" => field_pattern "hd_src"
  | "sd_src" => field_pattern "sd_src"
  | "playable_url" => field_pattern "playable_url"
  | _ => Lit []
  end%string.

(** The first group of the leftmost match: [matches[1]] under the guard
    [len(matches) > 1]. *)
Definition first_group (pattern : re) (s : str) : option str :=
  match FindStringSubmatch pattern s with
  | Some (_ :: g :: _) => Some g
  | _ => None
  end.

(** The step shared by the five URL fields: on a match, bind [key] to the
    unescaped capture. *)
Definition extract_url (key : string) (html : str) (videoUrls : gmap string str)
    : gmap string str :=
  match first_group (metadataPatterns key) html with
  | Some g => <[key := unescape g]> videoUrls
  | None => videoUrls
  end.

(** [extractVideoMetadata] extracts video metadata and multiple URLs from
    the HTML content: identifier, title, duration, quality-tier URLs,
    metadata. *)
Definition extractVideoMetadata (html : str)
    : str * str * Z * gmap string str * gmap string str :=
  let videoID : str := [] in
  let title : str := [] in
  let duration := 0%Z in
  let videoUrls : gmap string str := ∅ in
  let metadata : gmap string str := ∅ in
  let '(videoID, metadata) :=
    match first_group (metadataPatterns "video_id") html with
    | Some g => (g, <["video_id" := g]> metadata)
    | None => (videoID, metadata)
    end in
  let '(title, metadata) :=
    match first_group (metadataPatterns "title") html with
    | Some g =>
        let title := strings.TrimSpace g in
        let title := strings.ReplaceAll title " | Facebook" "" in
        let title := strings.ReplaceAll title " - Facebook" "" in
        (title, <["title" := title]> metadata)
    | None => (title, metadata)
    end in
  let '(duration, metadata) :=
    match first_group (metadataPatterns "duration") html with
    | Some g =>
        match strconv.ParseInt g with
        | Some durationMs =>
            let duration := (durationMs ÷ 1000)%Z in
            (duration, <["duration" := Sprintf_d duration ++ (" seconds" : str)]> metadata)
        | None => (duration, metadata)
        end
    | None => (duration, metadata)
    end in
  let videoUrls := extract_url "browser_hd" html videoUrls in
  let videoUrls := extract_url "browser_sd" html videoUrls in
  let videoUrls := extract_url "hd_src" html videoUrls in
  let videoUrls := extract_url "sd_src" html videoUrls in
  let videoUrls := extract_url "playable_url" html videoUrls in
  (videoID, title, duration, videoUrls, metadata).

(** ** Extraction strategies *)

(** A result carrying the URL and the media type only. *)
Definition plain_response (url mediaType : str) : ExtractResponse :=
  mkExtractResponse url mediaType true [] [] 0%Z ∅ ∅.

Definition videoSelectors : list str :=
  ["video[src]" : str; "video" : str; "[data-testid*='video']" : str;
   "video[autoplay]" : str; "[data-video-url]" : str].

(** The checks of one matched element, in order: [src], [data-video-url],
    the [src] of the nested [source] elements, the current playback
    source. *)
Definition probe_video_element (video : DOMElement) : option ExtractResponse :=
  match (match Attribute video "src" with
         | Some src =>
             if nonempty src && isValidVideoURL src
             then Some (plain_response src "video")
             else None
         | None => None
         end) with
  | Some r => Some r
  | None =>
  match (match Attribute video "data-video-url" with
         | Some dataVideoUrl =>
             if nonempty dataVideoUrl && isValidVideoURL dataVideoUrl
             then Some (plain_response dataVideoUrl "video")
             else None
         | None => None
         end) with
  | Some r => Some r
  | None =>
  match (match sources video with
         | Some sources =>
             first_some
               (fun source =>
                  match source !! "src" with
                  | Some src =>
                      if nonempty src && isValidVideoURL src
                      then Some (plain_response src "video")
                      else None
                  | None => None
                  end) sources
         | None => None
         end) with
  | Some r => Some r
  | None =>
      match currentSrc video with
      | Some srcStr =>
          if nonempty srcStr && isValidVideoURL srcStr
          then Some (plain_response srcStr "video")
          else None
      | None => None
      end
  end end end.

(** The best image seen so far and its score, after one more [img]. *)
Definition best_image (best : str * Z) (img : DOMElement) : str * Z :=
  let '(bestURL, bestScore) := best in
  match Attribute img "src" with
  | Some url =>
      if nonempty url && isValidImageURL url && negb (isValidVideoURL url)
      then
        let score := scoreImageURL url in
        if (score >? bestScore)%Z then (url, score) else (bestURL, bestScore)
      else (bestURL, bestScore)
  | None => (bestURL, bestScore)
  end.

(** [extractFromDOMElements] extracts from the video and img elements of
    the DOM. *)
Definition extractFromDOMElements (page : Page) (pageType : str) : option ExtractResponse :=
  if bool_decide (pageType = ("video" : str)) then
    first_some
      (fun selector =>
         match Elements page selector with
         | Some videoElements => first_some probe_video_element videoElements
         | None => None
         end) videoSelectors
  else
    match Elements page "img" with
    | Some imgElements =>
        let '(bestURL, bestScore) := fold_left best_image imgElements ([], 0%Z) in
        if nonempty bestURL && (bestScore >? 50)%Z
        then Some (plain_response bestURL "image")
        else None
    | None => None
    end.

Definition videoPatterns : list re :=
  [(Lit (Q "video_versions`:") · Star space · Lit "[" · Star space · Lit "{" ·
    Star space · quoted_value (Q "`url`:"))%re;
   quoted_value (Q "`video_url`:");
   quoted_mp4 (Q "`url`:");
   (Lit (Q "video_versions`") · Star not_brace · quoted_mp4 (Q "`url`:"))%re;
   quoted_value (Q "`playback_url`:");
   cdn_mp4 (Lit "video" · Star url_char · Lit "fbcdn.net")%re;
   cdn_mp4 (Lit "scontent");
   cdn_mp4 (Lit "cdninstagram.com");
   quoted_mp4 (Q "`src`:");
   quoted_value (Q "browser_native_hd_url`:");
   quoted_value (Q "browser_native_sd_url`:");
   quoted_value (Q "`video_dash_manifest`:");
   (Lit (Q "candidates`:") · Star space · Lit "[" · Star not_brace · quoted_mp4 (Q "`url`:"))%re;
   (Lit (Q "video_resources`") · Star not_brace · quoted_mp4 (Q "`src`:"))%re;
   (Lit (Q "data-video-url=`") · Group (Plus not_quote) · Lit (Q "`"))%re;
   (Lit (Q "data-src=`") · Group (Plus not_quote · Lit ".mp4" · Star not_quote) ·
    Lit (Q "`"))%re].

Definition imagePatterns : list re :=
  [quoted_value (Q "`display_url`:");
   quoted_value (Q "`image_url`:");
   (Lit (Q "`url`:") · Star space · Lit (Q "`") ·
    Group (Plus not_quote · Lit "." · image_extension · Star not_quote) · Lit (Q "`"))%re;
   cdn_image "cdninstagram.com";
   cdn_image "fbcdn.net";
   cdn_image "scontent"].

(** The video half of the source-markup strategy: the first capture, in
    the order of the patterns and then of the matches, that unescapes to a
    valid video URL. *)
Definition find_video_in_source (html : str) : option str :=
  first_some
    (fun pattern =>
       first_some
         (fun match_ =>
            match match_ with
            | _ :: url :: _ =>
                let url := unescape url in
                if isValidVideoURL url then Some url else None
            | _ => None
            end) (FindAllStringSubmatch pattern html)) videoPatterns.

(** [extractFromSourceCode] analyzes the page source for embedded media
    URLs. *)
Definition extractFromSourceCode (page : Page) (pageType : str) : option ExtractResponse :=
  match HTML page with
  | None => None
  | Some html =>
      match find_video_in_source html with
      | Some url =>
          let '(videoID, title, duration, videoUrls, metadata) := extractVideoMetadata html in
          Some (mkExtractResponse url "video" true videoID title duration videoUrls metadata)
      | None =>
          if bool_decide (pageType = ("image" : str)) then
            first_some
              (fun pattern =>
                 match FindStringSubmatch pattern html with
                 | Some (_ :: url :: _) =>
                     let url := unescape url in
                     if isValidImageURL url && negb (isValidVideoURL url)
                     then Some (plain_response url "image")
                     else None
                 | _ => None
                 end) imagePatterns
          else None
      end
  end.

(** ** The extraction call *)

(** What opening a page and navigating it to the post comes to. *)
Inductive navigation :=
| Panicked                  (* a fault of the control plane, recovered *)
| NavigateFailed            (* [Navigate] returned an error *)
| Rendered (page : Page).

(** The strategy chain of the specification, for a content-type label:
    the DOM-element strategy, then the source-markup strategy. *)
Definition strategy_chain (page : Page) (pageType : str) : option ExtractResponse :=
  match extractFromDOMElements page pageType with
  | Some result => Some result
  | None => extractFromSourceCode page pageType
  end.

Section Extraction.
Variable Parse : str -> url.ParseError + url.URL.
(** The browser session of the extractor. *)
Variable browser : str -> navigation.

(** [extractMediaURL] extracts the direct media URL from a Threads post. *)
Definition extractMediaURL (threadsURL : str) : result ExtractResponse :=
  match normalizeURL Parse threadsURL with
  | Err e => Err e
  | Ok normalizedURL =>
      match browser normalizedURL with
      | Panicked => Err InternalFault
      | NavigateFailed => Err NavigationFailure
      | Rendered page =>
          match extractFromDOMElements page "video" with
          | Some result => Ok result
          | None =>
              match extractFromSourceCode page "video" with
              | Some result => Ok result
              | None => Err NoMediaFound
              end
          end
      end
  end.
End Extraction.

(** ** The strategies outside the chain

    [extractFromMetaTags] and [fallbackExtraction] are defined by the program
    and called from nowhere. *)

Module MetaTags.
Definition videoSelectors : list str :=
  [Q "meta[property=`og:video:url`]";
   Q "meta[property=`og:video`]";
   Q "meta[property=`og:video:secure_url`]";
   Q "meta[name=`twitter:player:stream`]"].

Definition imageSelectors : list str :=
  [Q "meta[property=`og:image`]";
   Q "meta[property=`og:image:url`]";
   Q "meta[name=`twitter:image`]"].
End MetaTags.

(** The [content] attribute of the first element under [selector], when
    the element is found and the attribute is not empty. *)
Definition meta_content (page : Page) (selector : str) : option str :=
  match Element page selector with
  | Some meta =>
      match Attribute meta "content" with
      | Some content => if nonempty content then Some content else None
      | None => None
      end
  | None => None
  end.

(** [extractFromMetaTags] extracts from the meta tags. *)
Definition extractFromMetaTags (page : Page) (pageType : str) : option ExtractResponse :=
  if bool_decide (pageType = ("video" : str)) then
    first_some
      (fun selector =>
         match meta_content page selector with
         | Some url =>
             if isValidVideoURL url then Some (plain_response url "video") else None
         | None => None
         end) MetaTags.videoSelectors
  else
    first_some
      (fun selector =>
         match meta_content page selector with
         | Some url =>
             if isValidImageURL url && negb (isValidVideoURL url)
             then Some (plain_response url "image")
             else None
         | None => None
         end) MetaTags.imageSelectors.

(** The [src] attribute of an element, when it is there and not empty. *)
Definition src_of (e : DOMElement) : option str :=
  match Attribute e "src" with
  | Some src => if nonempty src then Some src else None
  | None => None
  end.

(** [fallbackExtraction]: simpler extraction when all strategies fail. *)
Definition fallbackExtraction (page : Page) (pageType : str) : option ExtractResponse :=
  if bool_decide (pageType = ("image" : str)) then
    match Elements page "img" with
    | Some imgElements =>
        first_some
          (fun img =>
             match src_of img with
             | Some url =>
                 if (strings.Contains url "cdninstagram.com" || strings.Contains url "fbcdn.net") &&
                    (negb (strings.Contains url "profile") &&
                     negb (strings.Contains url "avatar") &&
                     negb (strings.Contains url "logo") &&
                     negb (strings.Contains url ".mp4"))
                 then Some (plain_response url "image")
                 else None
             | None => None
             end) imgElements
    | None => None
    end
  else
    match Elements page "video" with
    | Some videoElements =>
        first_some
          (fun video =>
             match src_of video with
             | Some url => Some (plain_response url "video")
             | None => None
             end) videoElements
    | None => None
    end.

(** ** The HTTP handlers

    The server, the JSON codec and the HTTP client belong to the standard
    library.  A request is what the handlers read of it; a response writer
    holds what a handler has set and written, in the order of the calls. *)

(** [ExtractRequest] *)
Record ExtractRequest := mkExtractRequest { URL : str }.

(** The text of an error response: a literal of the handler, or
    [err.Error()] for the error of the extraction call. *)
Inductive error_text :=
| Literal (s : str)
| ErrorOf (e : error).

(** [ErrorResponse] *)
Module ErrorResponse.
Record t := mk { Error : error_text; Success : bool }.
End ErrorResponse.

Module http.

Definition StatusOK : Z := 200.


(** The answer of the upstream server to [client.Get]. *)
Record Response := mkResponse {
  StatusCode : Z;
  (** [resp.Header.Get(key)] *)
  Header : string -> str;
  (** the bytes of [resp.Body] *)
  Content : str
}.

(** What is written to the body of the response. *)
Inductive written :=
| ErrorJSON (e : ErrorResponse.t)     (* [Encode(ErrorResponse{...})] *)
| ResultJSON (r : ExtractResponse)    (* [Encode(result)] *)
| Line (s : str)                      (* [fmt.Fprintln(w, s)] *)
| Copied (b : str).                   (* [io.Copy(w, resp.Body)] *)

Record ResponseWriter := mkResponseWriter {
  headers : gmap string str;
  (** the status line, once it is written *)
  status : option Z;
  body : list written
}.

(** A response nothing has been written to. *)
Definition fresh : ResponseWriter := mkResponseWriter ∅ None [].

(** [w.Header().Set(key, value)] *)
Definition Header_Set (key : string) (value : str) (w : ResponseWriter) : ResponseWriter :=
  mkResponseWriter (<[key := value]> (headers w)) (status w) (body w).

(** [w.WriteHeader(code)]: the first status written stays. *)
Definition WriteHeader (code : Z) (w : ResponseWriter) : ResponseWriter :=
  match status w with
  | Some _ => w
  | None => mkResponseWriter (headers w) (Some code) (body w)
  end.

(** A write to the body; it sends the status 200 first if none is written. *)
Definition Write (x : written) (w : ResponseWriter) : ResponseWriter :=
  let w := WriteHeader StatusOK w in
  mkResponseWriter (headers w) (status w) (body w ++ [x]).

(** [http.Error(w, error, code)] *)
Definition Error (error : str) (code : Z) (w : ResponseWriter) : ResponseWriter :=
  let w := Header_Set "Content-Type" "text/plain; charset=utf-8" w in
  let w := Header_Set "X-Content-Type-Options" "nosniff" w in
  let w := WriteHeader code w in
  Write (Line error) w.

End http.

Section Handlers.
Variable Parse : str -> url.ParseError + url.URL.
Variable browser : str -> navigation.
(** [json.NewDecoder(r.Body).Decode(&req)]: the request read from the
    body, [None] when decoding fails. *)
Variable Decode : str -> option ExtractRequest.
(** [client.Get]: the answer of the upstream server, [None] for an error. *)
Variable Get : str -> option http.Response.



End Handlers.

(** * Notions used to state the properties *)

(** ** The specification's reading, where it is its own *)

(** The domain check of the specification: the host contains an allowed
    domain whatever the letter case. *)
Definition host_allowed_ignoring_case (host : str) : bool :=
  existsb (fun domain => strings.Contains (strings.ToLower host) domain) validDomains.

(** What is left of [s] after its longest prefix of bytes of the class. *)
Fixpoint skip_run (c : ascii -> bool) (s : str) : str :=
  match s with
  | x :: s' => if c x then skip_run c s' else s
  | [] => []
  end.

(** What follows a leading [/@handle/post/id] in [path], if [path] starts
    that way: the handle and the identifier are the longest runs of their
    bytes, none of which is a slash. *)
Definition after_post_path (path : str) : option str :=
  if strings.HasPrefix path "/@" then
    match skipn 2 path with
    | x :: s =>
        if handle_char x then
          let s := skip_run handle_char s in
          if strings.HasPrefix s "/post/" then
            match skipn 6 s with
            | y :: t => if post_id_char y then Some (skip_run post_id_char t) else None
            | [] => None
            end
          else None
        else None
    | [] => None
    end
  else None.

(** The path shape of the specification: [/@handle/post/id], at most one
    slash after it and nothing else. *)
Definition post_path_shape (path : str) : bool :=
  match after_post_path path with
  | Some [] => true
  | Some [c] => Ascii.eqb c "/"
  | _ => false
  end.

(** A URL that carries no dimension token and no full-resolution token. *)
Definition no_quality_token (url : str) : bool :=
  negb (strings.Contains url "1080x1080") && negb (strings.Contains url "720x720") &&
  negb (strings.Contains url "640x640") && negb (strings.Contains url "full_res") &&
  negb (strings.Contains url "original").

(** [p] cannot meet the token [t]: it holds neither the first nor the last
    byte of [t] and does not lie inside [t]. *)
Definition apart (t p : str) : bool :=
  match t with
  | [] => false
  | c :: _ =>
      negb (existsb (Ascii.eqb c) p) && negb (existsb (Ascii.eqb (List.last t c)) p) &&
      negb (strings.Contains t p)
  end.

(** The keys of the quality-tier map. *)
Definition quality_keys : list string :=
  ["browser_hd"; "browser_sd"; "hd_src"; "sd_src"; "playable_url"]%string.

(** The quality-tier map and the duration that [extractVideoMetadata]
    returns. *)
Definition videoUrls_of (html : str) : gmap string str :=
  snd (fst (extractVideoMetadata html)).

Definition duration_of (html : str) : Z :=
  snd (fst (fst (extractVideoMetadata html))).

Definition is_video_result (r : ExtractResponse) : Prop :=
  MediaType r = ("video" : str) /\ Success r = true /\ isValidVideoURL (MediaURL r) = true.


(** ** Sample pages and markup *)

Definition img_element (src : str) : DOMElement :=
  mkDOMElement {["src" := src]} (Some []) None.

(** A page without meta tags and without video elements: its [img]
    elements and its markup. *)
Definition page_of_images (imgs : list DOMElement) (html : str) : Page :=
  mkPage (fun _ => None)
         (fun selector => if bool_decide (selector = ("img" : str)) then Some imgs else Some [])
         (Some html).

(** Scenario E: the only candidate is a profile picture. *)
Definition profile_src : str := "https://scontent.cdninstagram.com/profile/pic.jpg".

Definition profile_page : Page :=
  page_of_images [img_element profile_src]
    (Q "<html><body><img src=`https://scontent.cdninstagram.com/profile/pic.jpg`></body></html>").

(** An image post: one full-size content image. *)
Definition image_post_src : str := "https://scontent.cdninstagram.com/t51/p1080x1080/photo.jpg".

Definition image_post_page : Page :=
  page_of_images [img_element image_post_src]
    (Q "<html><body><img src=`https://scontent.cdninstagram.com/t51/p1080x1080/photo.jpg`></body></html>").

(** Scenario D: markup with the HD field, escaped as the page has it, and
    a duration of 30000 ms. *)
Definition clip_hd_escaped : str := "https:\/\/video.example\/hd.mp4?a=1\u0026b=2".

Definition clip_markup : str :=
  Q "<script>{`browser_native_hd_url`:`" ++ clip_hd_escaped ++
  Q "`,`playable_duration_in_ms`:30000}</script>".

(** Markup of a thread with two clips, the first one five seconds long. *)
Definition two_clips_markup : str :=
  Q "<script>[{`playable_duration_in_ms`:5000},{`browser_native_hd_url`:`https://video.example/hd.mp4`,`playable_duration_in_ms`:30000}]</script>".

(** A byte that [url.Parse] takes as it is inside a path. *)
Definition plain_byte (c : ascii) : bool :=
  negb ((nat_of_ascii c <? 32) || (nat_of_ascii c =? 127)) &&
  negb (Ascii.eqb c "#") && negb (Ascii.eqb c "?") && negb (Ascii.eqb c "%").

(** The post address of the scenarios, in canonical form. *)
Definition alice_post : str := "https://www.threads.net/@alice/post/Cabc123".

(** ** Notions for the further properties *)

(** What the loop over the [img] elements holds after the elements [seen]:
    nothing, or the best source seen with its score. *)
Definition best_so_far (seen : list DOMElement) (best : str * Z) : Prop :=
  (forall img u, In img seen -> Attribute img "src" = Some u ->
                 (scoreImageURL u <= snd best)%Z) /\
  ((fst best = [] /\ snd best = 0%Z) \/
   (snd best = scoreImageURL (fst best) /\ (0 < snd best)%Z /\
    exists img, In img seen /\ Attribute img "src" = Some (fst best))).

(** The three video probes of the classifier, in the order it runs them. *)
Definition meta_signals_video (page : Page) : bool :=
  existsb
    (fun selector =>
       match Element page selector with
       | Some meta =>
           match Attribute meta "content" with
           | Some content =>
               nonempty content &&
               (strings.Contains content "video" || strings.Contains content ".mp4")
           | None => false
           end
       | None => false
       end) videoIndicators.

Definition elements_signal_video (page : Page) : bool :=
  match Elements page "video" with
  | Some videoElements => existsb video_element_detected videoElements
  | None => false
  end.

(** A page with one [video] element, which plays [src]. *)
Definition page_of_video (src : str) : Page :=
  mkPage (fun _ => None)
         (fun selector =>
            if bool_decide (selector = ("video" : str))
            then Some [mkDOMElement {["src" := src]} (Some []) None]
            else Some [])
         None.

(** A page whose only content is a meta tag [og:video] with the given
    content. *)
Definition page_of_meta (content : str) : Page :=
  mkPage (fun selector =>
            if bool_decide (selector = Q "meta[property=`og:video`]")
            then Some (mkDOMElement {["content" := content]} None None)
            else None)
         (fun _ => None) None.


(** The suffixes the video predicate refuses and the ones it accepts. *)
Definition has_refused_suffix (url : str) : bool :=
  strings.Contains url ".jpg" || strings.Contains url ".jpeg" ||
  strings.Contains url ".png" || strings.Contains url ".webp" ||
  strings.Contains url ".gif".

Definition has_video_suffix (url : str) : bool :=
  strings.Contains url ".mp4" || strings.Contains url ".webm" ||
  strings.Contains url ".mov" || strings.Contains url ".m4v" ||
  strings.Contains url ".avi" || strings.Contains url ".mkv".

(** The longest prefix of [s] made of bytes of the class. *)
Fixpoint take_run (c : ascii -> bool) (s : str) : str :=
  match s with
  | x :: s' => if c x then x :: take_run c s' else []
  | [] => []
  end.

(** A scheme as [getScheme] reads it: a letter, then letters, digits, plus,
    minus and dot. *)
Definition scheme_byte (c : ascii) : bool :=
  url.isLetter c || url.isDigit c || url.one_of "+-." c.

Definition valid_scheme (scheme : str) : bool :=
  match scheme with
  | c :: scheme' => url.isLetter c && forallb scheme_byte scheme'
  | [] => false
  end.

(** The bytes of a host name: letters, digits, minus and dot. *)
Definition host_byte (c : ascii) : bool :=
  url.isLetter c || url.isDigit c || url.one_of "-." c.

(** What may follow the path of an address: nothing, or a query or a
    fragment, the query without control byte and the fragment with
    well-formed escapes. *)
Definition ignored_tail (tail : str) : bool :=
  match tail with
  | [] => true
  | c :: _ =>
      (Ascii.eqb c "?" || Ascii.eqb c "#") &&
      (let '(query, fragment, _) := strings.Cut tail "#" in
       negb (url.stringContainsCTLByte query) &&
       match url.unescape fragment with
       | inr _ => true
       | inl _ => false
       end)
  end.

(** The URL one pattern gives to the video half of the source-markup
    strategy: the first of its matches whose first group unescapes to a
    valid video URL. *)
Definition video_capture (html : str) (pattern : re) : option str :=
  first_some
    (fun match_ =>
       match match_ with
       | _ :: url :: _ =>
           let url := unescape url in
           if isValidVideoURL url then Some url else None
       | _ => None
       end) (FindAllStringSubmatch pattern html).

(** The URL one pattern gives to the image half of the strategy. *)
Definition image_capture (html : str) (pattern : re) : option ExtractResponse :=
  match FindStringSubmatch pattern html with
  | Some (_ :: url :: _) =>
      let url := unescape url in
      if isValidImageURL url && negb (isValidVideoURL url)
      then Some (plain_response url "image")
      else None
  | _ => None
  end.

(** The text that opens a field of the page state: the quoted name, the
    colon and the opening quote of the value. *)
Definition field_opening (name : str) : str := Q "`" ++ name ++ Q "`:`".

(** The field each key of the quality-tier map is read from. *)
Definition quality_field (key : string) : str :=
  match key with
  | "browser_hd" => "browser_native_hd_url"
  | "browser_sd" => "browser_native_sd_url"
  | "hd_src" => "hd_src"
  | "sd_src" => "sd_src"
  | "playable_url" => "playable_url"
  | _ => []
  end%string.

(** [strings.Index(s, substr)]: where [substr] first occurs in [s]. *)
Fixpoint Index (s substr : str) : option nat :=
  if strings.HasPrefix s substr then Some 0
  else match s with
       | [] => None
       | _ :: s' => option_map S (Index s' substr)
       end.

(** The identifier, the title and the metadata that [extractVideoMetadata]
    returns. *)
Definition videoID_of (html : str) : str :=
  fst (fst (fst (fst (extractVideoMetadata html)))).

Definition title_of (html : str) : str :=
  snd (fst (fst (fst (extractVideoMetadata html)))).

Definition metadata_of (html : str) : gmap string str :=
  snd (extractVideoMetadata html).

(** The decimal digits of a number, as [fmt.Sprintf] writes them. *)
Definition digits_of (d : Decimal.uint) : str := NilEmpty.string_of_uint d.



(** * Properties *)

(** ** Substrings *)

Lemma HasPrefix_spec (s p : str) :
  strings.HasPrefix s p = true <-> exists t, s = p ++ t.
Proof.
  revert s; induction p as [|c p IH]; intros s; simpl.
  - split; [intros _; now exists s | reflexivity].
  - destruct s as [|d s]; simpl.
    + split; [discriminate | intros [t Ht]; discriminate].
    + rewrite andb_true_iff, Ascii.eqb_eq, IH. split.
      * intros [-> [t ->]]. now exists t.
      * intros [t Ht]. injection Ht as -> ->. split; [reflexivity | now exists t].
Qed.

Lemma Contains_spec (s p : str) :
  strings.Contains s p = true <-> exists a b, s = a ++ p ++ b.
Proof.
  induction s as [|d s IH]; simpl.
  - rewrite orb_false_r, HasPrefix_spec. split.
    + intros [t Ht]. now exists [], t.
    + intros [a [b Hab]]. destruct a; [now exists b | discriminate].
  - rewrite orb_true_iff, HasPrefix_spec, IH. split.
    + intros [[t Ht] | [a [b Hab]]].
      * now exists [], t.
      * exists (d :: a), b. now rewrite Hab.
    + intros [a [b Hab]]. destruct a as [|x a].
      * left. now exists b.
      * right. injection Hab as _ ->. now exists a, b.
Qed.

Lemma Contains_false (s p : str) :
  strings.Contains s p = false <-> forall a b, s <> a ++ p ++ b.
Proof.
  rewrite <- not_true_iff_false, Contains_spec. split.
  - intros H a b Hab. apply H. now exists a, b.
  - intros H [a [b Hab]]. now apply (H a b).
Qed.

(** A text that contains [p] contains what [p] contains. *)
Lemma Contains_trans (s p q : str) :
  strings.Contains s p = true -> strings.Contains p q = true ->
  strings.Contains s q = true.
Proof.
  rewrite !Contains_spec. intros [a [b ->]] [c [d ->]].
  exists (a ++ c), (d ++ b). now rewrite <- !app_assoc.
Qed.

Lemma Contains_app_l (a b p : str) :
  strings.Contains a p = true -> strings.Contains (a ++ b) p = true.
Proof.
  rewrite !Contains_spec. intros [x [y ->]].
  exists x, (y ++ b). now rewrite <- !app_assoc.
Qed.

Lemma Contains_app_r (a b p : str) :
  strings.Contains b p = true -> strings.Contains (a ++ b) p = true.
Proof.
  rewrite !Contains_spec. intros [x [y ->]].
  exists (a ++ x), y. now rewrite <- !app_assoc.
Qed.

Lemma Contains_middle (a b p : str) :
  strings.Contains (a ++ p ++ b) p = true.
Proof. apply Contains_spec. now exists a, b. Qed.

(** A text that ends with [p] contains [p]. *)
Lemma Contains_suffix (a p : str) : strings.Contains (a ++ p) p = true.
Proof. apply Contains_spec. exists a, []. now rewrite app_nil_r. Qed.

Lemma Contains_byte (s : str) (c : ascii) :
  strings.Contains s [c] = existsb (Ascii.eqb c) s.
Proof.
  induction s as [|d s IH]; simpl; [reflexivity|].
  now rewrite IH, andb_true_r.
Qed.

Lemma HasPrefix_skipn (s p : str) :
  strings.HasPrefix s p = true -> s = p ++ skipn (length p) s.
Proof.
  intros H. apply HasPrefix_spec in H as [t ->].
  now rewrite skipn_app, Nat.sub_diag, skipn_all.
Qed.

Lemma existsb_eqb_false (c : ascii) (p : str) :
  existsb (Ascii.eqb c) p = false -> ~ In c p.
Proof.
  intros H Hin. apply not_true_iff_false in H. apply H.
  apply existsb_exists. exists c. split; [assumption | apply Ascii.eqb_refl].
Qed.

Lemma Contains_around_token (pre post t p : str) :
  apart t p = true ->
  strings.Contains (pre ++ t ++ post) p =
  strings.Contains pre p || strings.Contains post p.
Proof.
  unfold apart. destruct t as [|c m]; [discriminate|].
  rewrite !andb_true_iff, !negb_true_iff. intros [[Hc Hd] Hin].
  apply existsb_eqb_false in Hc. apply existsb_eqb_false in Hd.
  destruct (strings.Contains pre p || strings.Contains post p) eqn:E.
  - apply orb_true_iff in E as [E | E].
    + now apply Contains_app_l.
    + apply Contains_app_r. now apply Contains_app_r.
  - apply orb_false_iff in E as [Epre Epost].
    apply Contains_false. intros a b Hab.
    apply List.app_eq_app in Hab as [l [[Hpre Hrest] | [Ha Hrest]]].
    + (* the occurrence starts in [pre] *)
      symmetry in Hrest.
      apply List.app_eq_app in Hrest as [k [[Hl Hb] | [Hp Hk]]].
      * apply (proj1 (Contains_false pre p) Epre a k). now rewrite Hpre, Hl.
      * destruct k as [|x k].
        -- rewrite app_nil_r in Hp. subst l.
           apply (proj1 (Contains_false pre p) Epre a []).
           now rewrite app_nil_r.
        -- simpl in Hk. injection Hk as <- _. apply Hc. rewrite Hp.
           apply in_or_app. right. now left.
    + (* the occurrence starts in the token or after it *)
      apply List.app_eq_app in Hrest as [k [[Ht Hk] | [Hl Hpost]]].
      * apply List.app_eq_app in Hk as [j [[Hp Hj] | [Hk Hb]]].
        -- destruct k as [|x k].
           ++ simpl in Hp. subst j.
              apply (proj1 (Contains_false post p) Epost [] b). now rewrite Hj.
           ++ apply Hd. rewrite Hp. apply in_or_app. left.
              rewrite Ht.
              assert (Hne : x :: k <> []) by discriminate.
              destruct (exists_last Hne) as [k' [y Hy]]. rewrite Hy.
              rewrite app_assoc. rewrite last_last.
              apply in_or_app. right. now left.
        -- apply (proj1 (Contains_false (c :: m) p) Hin l j). now rewrite Ht, Hk.
      * apply (proj1 (Contains_false post p) Epost k b). exact Hpost.
Qed.


(** ** Loops that return on the first hit *)

Lemma first_some_found {A B : Type} (f : A -> option B) (l : list A) (y : B) :
  first_some f l = Some y -> exists x, In x l /\ f x = Some y.
Proof.
  induction l as [|x l IH]; simpl; [discriminate|].
  destruct (f x) as [y'|] eqn:E.
  - intros [= <-]. exists x. split; [now left | exact E].
  - intros H. destruct (IH H) as [x' [Hin Hx']]. exists x'. split; [now right | exact Hx'].
Qed.

Lemma first_some_none {A B : Type} (f : A -> option B) (l : list A) :
  first_some f l = None <-> forall x, In x l -> f x = None.
Proof.
  induction l as [|x l IH]; simpl.
  - split; [intros _ x [] | reflexivity].
  - destruct (f x) as [y|] eqn:E.
    + split; [discriminate | intros H; rewrite <- E; apply H; now left].
    + rewrite IH. split.
      * intros H x' [<- | Hin]; [exact E | now apply H].
      * intros H x' Hin. apply H. now right.
Qed.


(** ** Media-reference predicates *)

Lemma image_needs_extension (url : str) :
  isValidImageURL url = true -> hasImageExtension url = true.
Proof.
  unfold isValidImageURL. destruct url as [|c url]; [discriminate|].
  repeat (match goal with |- context [if ?b then _ else _] => destruct b eqn:? end);
    try discriminate.
  intros _. now apply negb_false_iff.
Qed.

Lemma extension_excludes_video (url : str) :
  hasImageExtension url = true -> isValidVideoURL url = false.
Proof.
  unfold hasImageExtension, isValidVideoURL. intros H.
  destruct url as [|c url]; [reflexivity|]. now rewrite H.
Qed.

(** C8. No URL passes both predicates: the image predicate accepts only a
    URL that contains one of .jpg, .jpeg, .png, .webp, and the video
    predicate rejects every URL that contains one of them. *)
Theorem video_image_exclusive (url : str) :
  isValidVideoURL url && isValidImageURL url = false /\
  isValidImageURL url && negb (hasImageExtension url) = false /\
  hasImageExtension url && isValidVideoURL url = false.
Proof.
  pose proof (image_needs_extension url) as Hi.
  pose proof (extension_excludes_video url) as Hv.
  destruct (isValidImageURL url), (hasImageExtension url), (isValidVideoURL url);
    simpl; intuition congruence.
Qed.

Lemma isValidImageURL_unfold (url : str) :
  isValidImageURL url =
  negb (strings.Contains url ".mp4" || strings.Contains url ".webm" ||
        strings.Contains url ".mov" || strings.Contains url "video") &&
  (strings.Contains url "cdninstagram.com" || strings.Contains url "fbcdn.net" ||
   strings.Contains url "scontent") &&
  hasImageExtension url &&
  negb (existsb (fun pattern => strings.Contains url pattern) excludePatterns).
Proof.
  destruct url as [|c url]; [reflexivity|].
  unfold isValidImageURL.
  destruct (strings.Contains (c :: url) ".mp4" || strings.Contains (c :: url) ".webm" ||
            strings.Contains (c :: url) ".mov" || strings.Contains (c :: url) "video");
    [reflexivity|].
  destruct (strings.Contains (c :: url) "cdninstagram.com");
    [|destruct (strings.Contains (c :: url) "fbcdn.net");
      [|destruct (strings.Contains (c :: url) "scontent")]];
    cbn [negb andb orb]; try reflexivity;
    destruct (hasImageExtension (c :: url)); cbn [negb andb orb]; try reflexivity;
    destruct (existsb _ excludePatterns); reflexivity.
Qed.

Lemma excluded_not_image (url pattern : str) :
  In pattern excludePatterns -> strings.Contains url pattern = true ->
  isValidImageURL url = false.
Proof.
  intros Hin Hc. rewrite isValidImageURL_unfold.
  assert (E : existsb (fun pattern => strings.Contains url pattern) excludePatterns = true).
  { apply existsb_exists. now exists pattern. }
  rewrite E. now rewrite andb_false_r.
Qed.

Lemma image_rejects_mp4_webm_mov_suffix (stem suffix : str) :
  In suffix [".mp4" : str; ".webm" : str; ".mov" : str] ->
  isValidImageURL (stem ++ suffix) = false.
Proof.
  intros Hin. rewrite isValidImageURL_unfold.
  assert (H : strings.Contains (stem ++ suffix) suffix = true) by apply Contains_suffix.
  destruct Hin as [<- | [<- | [<- | []]]]; rewrite H; now rewrite ?orb_true_r.
Qed.

Lemma video_rejects_image_suffix (stem suffix : str) :
  In suffix [".jpg" : str; ".jpeg" : str; ".png" : str; ".webp" : str; ".gif" : str] ->
  isValidVideoURL (stem ++ suffix) = false.
Proof.
  intros Hin.
  assert (H : strings.Contains (stem ++ suffix) suffix = true) by apply Contains_suffix.
  unfold isValidVideoURL. destruct (stem ++ suffix) as [|c url] eqn:E; [reflexivity|].
  destruct Hin as [<- | [<- | [<- | [<- | [<- | []]]]]]; rewrite H; now rewrite ?orb_true_r.
Qed.

(** C4, at the failing inputs. A URL that ends in .m4v, .avi or .mkv is
    accepted by the image predicate when it also holds a CDN name and an
    image suffix: the exclusion list of [isValidImageURL] names .mp4, .webm,
    .mov and the word video only, where [isValidVideoURL] knows six video
    suffixes.  The video predicate rejects these URLs, so the two
    predicates still exclude each other. *)
Theorem image_predicate_accepts_video_suffix :
  let accepted (url suffix : str) :=
    (exists stem, url = stem ++ suffix) /\
    isValidImageURL url = true /\ isValidVideoURL url = false in
  accepted "https://scontent.cdninstagram.com/v/cover.jpg/clip.m4v" ".m4v" /\
  accepted "https://scontent.cdninstagram.com/v/cover.jpg/clip.avi" ".avi" /\
  accepted "https://scontent.cdninstagram.com/v/cover.jpg/clip.mkv" ".mkv".
Proof.
  cbv zeta. repeat split; try (vm_compute; reflexivity);
    exists ("https://scontent.cdninstagram.com/v/cover.jpg/clip" : str); reflexivity.
Qed.


(** ** Scores *)

Lemma score_range (url : str) :
  isValidImageURL url = true -> (50 <= scoreImageURL url <= 125)%Z.
Proof.
  unfold scoreImageURL. intros ->. simpl.
  repeat (match goal with |- context [if ?b then _ else _] => destruct b end); lia.
Qed.

Lemma score_invalid (url : str) :
  isValidImageURL url = false -> scoreImageURL url = 0%Z.
Proof. unfold scoreImageURL. now intros ->. Qed.

Lemma score_no_token (url : str) :
  no_quality_token url = true ->
  scoreImageURL url = if isValidImageURL url then 50%Z else 0%Z.
Proof.
  unfold no_quality_token, scoreImageURL.
  rewrite !andb_true_iff, !negb_true_iff. intros [[[[-> ->] ->] ->] ->].
  now destruct (isValidImageURL url).
Qed.

Lemma valid_image_whatever_token (pre post : str) :
  isValidImageURL (pre ++ "1080x1080" ++ post) =
  isValidImageURL (pre ++ "640x640" ++ post).
Proof.
  rewrite !isValidImageURL_unfold. unfold hasImageExtension, excludePatterns.
  cbn [existsb]. rewrite !Contains_around_token by reflexivity. reflexivity.
Qed.

(** C7, amended. Of two URLs that differ only in that one has the token
    1080x1080 where the other has 640x640, the first scores strictly
    higher, provided the URL is a valid image candidate and the 640x640 URL
    carries no 1080x1080 token elsewhere. *)
Theorem score_prefers_1080_over_640 (pre post : str) :
  isValidImageURL (pre ++ "640x640" ++ post) = true ->
  strings.Contains (pre ++ "640x640" ++ post) "1080x1080" = false ->
  (scoreImageURL (pre ++ "640x640" ++ post) <
   scoreImageURL (pre ++ "1080x1080" ++ post))%Z.
Proof.
  intros Hvalid Hno. unfold scoreImageURL.
  rewrite valid_image_whatever_token, Hvalid. cbn [negb].
  rewrite Hno, (Contains_middle pre post "1080x1080").
  rewrite !(Contains_around_token pre post "1080x1080") by reflexivity.
  rewrite !(Contains_around_token pre post "640x640" "full_res") by reflexivity.
  rewrite !(Contains_around_token pre post "640x640" "original") by reflexivity.
  destruct (strings.Contains (pre ++ "640x640" ++ post) "720x720");
    [|rewrite (Contains_middle pre post "640x640")];
    destruct (_ || _); lia.
Qed.

Lemma score_prefers_1080_over_640_witness :
  (scoreImageURL "https://scontent.cdninstagram.com/p640x640/photo.jpg" <
   scoreImageURL "https://scontent.cdninstagram.com/p1080x1080/photo.jpg")%Z.
Proof.
  apply (score_prefers_1080_over_640 "https://scontent.cdninstagram.com/p" "/photo.jpg");
    vm_compute; reflexivity.
Defined.

(** C7 as stated fails: two URLs that are not valid image candidates both
    score 0. *)
Lemma score_equal_on_rejected_urls :
  let pre : str := "https://example.com/p" in
  let post : str := "/photo.jpg" in
  isValidImageURL (pre ++ "640x640" ++ post) = false /\
  scoreImageURL (pre ++ "640x640" ++ post) = 0%Z /\
  scoreImageURL (pre ++ "1080x1080" ++ post) = 0%Z /\
  ~ (scoreImageURL (pre ++ "640x640" ++ post) <
     scoreImageURL (pre ++ "1080x1080" ++ post))%Z.
Proof.
  cbv zeta. repeat split; try (vm_compute; reflexivity).
  vm_compute. discriminate.
Qed.


(** ** The matcher *)

Section Star.
Context {A : Type}.

(** When the continuation cannot start with a byte of the class, the
    greedy repetition takes the whole run. *)
Lemma star_commit (c : ascii -> bool) (k : str -> option A) (s : str) :
  (forall x rest, c x = true -> k (x :: rest) = None) ->
  star c s k = k (skip_run c s).
Proof.
  intros Hk. induction s as [|x s IH]; simpl; [reflexivity|].
  destruct (c x) eqn:Ex; [|reflexivity].
  rewrite IH. destruct (k (skip_run c s)) eqn:E; [reflexivity|].
  now apply Hk.
Qed.

(** With a continuation that always succeeds, only the longest run is
    tried. *)
Lemma star_total (c : ascii -> bool) (k : str -> option A) (s : str) :
  (forall rest, k rest <> None) -> star c s k = k (skip_run c s).
Proof.
  intros Hk. induction s as [|x s IH]; simpl; [reflexivity|].
  destruct (c x) eqn:Ex; [|reflexivity].
  rewrite IH. destruct (k (skip_run c s)) eqn:E; [reflexivity|].
  now apply Hk in E.
Qed.
End Star.

Lemma search_anchored (r : re) (text s : str) :
  (forall s', length s' < length text -> match_here r text s' = None) ->
  length s < length text -> search r text s = None.
Proof.
  intros Hr. induction s as [|x s IH]; intros Hlen; simpl.
  - now rewrite (Hr [] Hlen).
  - rewrite (Hr (x :: s) Hlen). apply IH. simpl in Hlen. lia.
Qed.

(** The leftmost match heads the list of all matches. *)
Lemma find_all_head (r : re) (text s : str) (m : list str) :
  search r text s = Some m -> exists rest, find_all r text 0 s = m :: rest.
Proof.
  induction s as [|c s IH]; simpl.
  - destruct (match_here r text []); [intros [= ->]; eauto | discriminate].
  - destruct (match_here r text (c :: s)); [intros [= ->]; eauto | exact IH].
Qed.

Lemma FindAll_head (r : re) (s : str) (m : list str) :
  FindStringSubmatch r s = Some m ->
  exists rest, FindAllStringSubmatch r s = m :: rest.
Proof. apply find_all_head. Qed.

Lemma skip_run_forallb (c p : ascii -> bool) (s : str) :
  (forall x, c x = true -> p x = true) ->
  forallb p (skip_run c s) = true -> forallb p s = true.
Proof.
  intros Hcp. induction s as [|x s IH]; simpl; [reflexivity|].
  destruct (c x) eqn:E; [|exact (fun H => H)].
  intros H. now rewrite (Hcp x E), (IH H).
Qed.

Lemma threadsPattern_here (text s : str) :
  match_here threadsPattern text s =
  if length s =? length text
  then match after_post_path s with
       | Some rest =>
           let rest' := if strings.HasPrefix rest "/" then skipn 1 rest else rest in
           Some [firstn (length s - length rest') s]
       | None => None
       end
  else None.
Proof.
  unfold match_here, threadsPattern. cbn [exec ngroups Nat.add seq map].
  destruct (length s =? length text); [|reflexivity].
  unfold after_post_path.
  destruct (strings.HasPrefix s "/@"); [|reflexivity].
  change (length ("/@" : str)) with 2.
  destruct (skipn 2 s) as [|x s1]; [reflexivity|].
  destruct (handle_char x); [|reflexivity].
  rewrite star_commit.
  2:{ intros y rest Hy. destruct (strings.HasPrefix (y :: rest) "/post/") eqn:E; [|reflexivity].
      exfalso. apply HasPrefix_spec in E as [t Ht]. injection Ht as -> _.
      discriminate. }
  destruct (strings.HasPrefix (skip_run handle_char s1) "/post/"); [|reflexivity].
  change (length ("/post/" : str)) with 6.
  destruct (skipn 6 (skip_run handle_char s1)) as [|y s2]; [reflexivity|].
  destruct (post_id_char y); [|reflexivity].
  rewrite star_total.
  2:{ intros rest. now destruct (strings.HasPrefix rest "/"). }
  cbv zeta. now destruct (strings.HasPrefix (skip_run post_id_char s2) "/").
Qed.

Lemma MatchString_threadsPattern (path : str) :
  MatchString threadsPattern path =
  match after_post_path path with Some _ => true | None => false end.
Proof.
  unfold MatchString, FindStringSubmatch.
  destruct path as [|x path].
  - reflexivity.
  - simpl search. rewrite threadsPattern_here, Nat.eqb_refl.
    destruct (after_post_path (x :: path)); [reflexivity|].
    rewrite search_anchored; [reflexivity | | simpl; lia].
    intros s' Hlen. rewrite threadsPattern_here.
    destruct (length s' =? length (x :: path)) eqn:E; [|reflexivity].
    apply Nat.eqb_eq in E. lia.
Qed.

Lemma post_path_shape_accepted (path : str) :
  post_path_shape path = true -> MatchString threadsPattern path = true.
Proof.
  rewrite MatchString_threadsPattern. unfold post_path_shape.
  now destruct (after_post_path path).
Qed.


(** ** URL normalizer *)

Lemma host_allowed_iff (host : str) :
  existsb (fun domain => strings.Contains host domain) validDomains =
  strings.Contains host "threads.com" || strings.Contains host "threads.net".
Proof.
  unfold validDomains. cbn [existsb].
  destruct (strings.Contains host "threads.com") eqn:Ecom.
  - reflexivity.
  - destruct (strings.Contains host "threads.net") eqn:Enet.
    + cbn [orb]. now rewrite !orb_true_r.
    + destruct (strings.Contains host "www.threads.com") eqn:E1.
      { rewrite (Contains_trans host "www.threads.com" "threads.com" E1 eq_refl) in Ecom.
        discriminate. }
      destruct (strings.Contains host "m.threads.com") eqn:E2.
      { rewrite (Contains_trans host "m.threads.com" "threads.com" E2 eq_refl) in Ecom.
        discriminate. }
      destruct (strings.Contains host "www.threads.net") eqn:E3.
      { rewrite (Contains_trans host "www.threads.net" "threads.net" E3 eq_refl) in Enet.
        discriminate. }
      destruct (strings.Contains host "m.threads.net") eqn:E4.
      { rewrite (Contains_trans host "m.threads.net" "threads.net" E4 eq_refl) in Enet.
        discriminate. }
      reflexivity.
Qed.

(** C3, amended. On an input that parses, the normalizer fails with
    UntrustedDomain exactly when the host, compared byte by byte, contains
    neither threads.com nor threads.net (which every domain of the list
    contains), whatever the path. *)
Theorem domain_check_case_sensitive
    (Parse : str -> url.ParseError + url.URL) (inputURL : str) (parsedURL : url.URL) :
  Parse inputURL = inr parsedURL ->
  (normalizeURL Parse inputURL = Err UntrustedDomain <->
   strings.Contains (url.Host parsedURL) "threads.com" = false /\
   strings.Contains (url.Host parsedURL) "threads.net" = false).
Proof.
  intros Hparse. unfold normalizeURL. rewrite Hparse, host_allowed_iff.
  destruct (strings.Contains (url.Host parsedURL) "threads.com");
    destruct (strings.Contains (url.Host parsedURL) "threads.net"); simpl;
    try (split; [intros _; split; reflexivity | reflexivity]);
    destruct (MatchString threadsPattern (url.Path parsedURL)); simpl;
    (split; [discriminate | intros [? ?]; discriminate]).
Qed.

Lemma domain_check_case_sensitive_witness :
  normalizeURL url.Parse "https://example.com/@alice/post/Cabc123" = Err UntrustedDomain.
Proof.
  apply (proj2 (domain_check_case_sensitive url.Parse
                  "https://example.com/@alice/post/Cabc123"
                  (url.mkURL "https" [] [] "example.com" "/@alice/post/Cabc123" [] [])
                  ltac:(vm_compute; reflexivity))).
  split; vm_compute; reflexivity.
Defined.

(** C3 as stated fails: the host WWW.THREADS.NET contains an allowed domain
    when the letter case is ignored, and is rejected. *)
Lemma upper_case_host_rejected :
  let inputURL : str := "https://WWW.THREADS.NET/@alice/post/Cabc123" in
  exists parsedURL,
    url.Parse inputURL = inr parsedURL /\
    url.Host parsedURL = ("WWW.THREADS.NET" : str) /\
    host_allowed_ignoring_case (url.Host parsedURL) = true /\
    normalizeURL url.Parse inputURL = Err UntrustedDomain.
Proof.
  cbv zeta.
  exists (url.mkURL "https" [] [] "WWW.THREADS.NET" "/@alice/post/Cabc123" [] []).
  repeat split; vm_compute; reflexivity.
Qed.

Lemma normalizer_path_check
    (Parse : str -> url.ParseError + url.URL) (inputURL : str) (parsedURL : url.URL) :
  Parse inputURL = inr parsedURL ->
  strings.Contains (url.Host parsedURL) "threads.com" ||
  strings.Contains (url.Host parsedURL) "threads.net" = true ->
  normalizeURL Parse inputURL =
  match after_post_path (url.Path parsedURL) with
  | Some _ => Ok (("https://www.threads.net" : str) ++ url.Path parsedURL)
  | None => Err MalformedPostPath
  end.
Proof.
  intros Hparse Hhost. unfold normalizeURL.
  rewrite Hparse, host_allowed_iff, Hhost, MatchString_threadsPattern.
  now destruct (after_post_path (url.Path parsedURL)).
Qed.

(** C2, at the failing input. The pattern is anchored at the start of the
    path only: a path with further segments after the post identifier has
    not the shape of the specification, and the normalizer accepts it and
    keeps the segments. *)
Theorem normalizer_accepts_trailing_segments :
  let inputURL : str := "https://www.threads.net/@alice/post/Cabc123/extra/segments" in
  exists parsedURL,
    url.Parse inputURL = inr parsedURL /\
    existsb (fun domain => strings.Contains (url.Host parsedURL) domain) validDomains = true /\
    post_path_shape (url.Path parsedURL) = false /\
    after_post_path (url.Path parsedURL) = Some ("/extra/segments" : str) /\
    normalizeURL url.Parse inputURL = Ok inputURL.
Proof.
  cbv zeta.
  exists (url.mkURL "https" [] [] "www.threads.net" "/@alice/post/Cabc123/extra/segments" [] []).
  repeat split; vm_compute; reflexivity.
Qed.

Lemma Cut_absent (s : str) (sep : ascii) :
  forallb (fun c => negb (Ascii.eqb c sep)) s = true ->
  strings.Cut s sep = (s, [], false).
Proof.
  induction s as [|c s IH]; simpl; [reflexivity|].
  rewrite andb_true_iff, negb_true_iff. intros [-> H]. now rewrite (IH H).
Qed.

Lemma unescape_plain (s : str) :
  forallb (fun c => negb (Ascii.eqb c "%")) s = true -> url.unescape s = inr s.
Proof.
  induction s as [|c s IH]; simpl; [reflexivity|].
  rewrite andb_true_iff, negb_true_iff. intros [-> H]. now rewrite (IH H).
Qed.

Lemma forallb_weaken {A : Type} (p q : A -> bool) (l : list A) :
  (forall x, p x = true -> q x = true) -> forallb p l = true -> forallb q l = true.
Proof.
  intros Hpq. rewrite !forallb_forall. intros H x Hx. apply Hpq. now apply H.
Qed.

Lemma plain_no (sep : ascii) (s : str) :
  plain_byte sep = false -> forallb plain_byte s = true ->
  forallb (fun c => negb (Ascii.eqb c sep)) s = true.
Proof.
  intros Hsep. apply forallb_weaken. intros c Hc.
  apply negb_true_iff. apply not_true_iff_false. intros E.
  apply Ascii.eqb_eq in E. subst c. congruence.
Qed.

Lemma no_control_byte (a path : str) :
  url.stringContainsCTLByte a = false -> forallb plain_byte path = true ->
  url.stringContainsCTLByte (a ++ path) = false.
Proof.
  intros Ha Hp. unfold url.stringContainsCTLByte in *. rewrite existsb_app, Ha.
  apply not_true_iff_false. intros E. apply existsb_exists in E as [c [Hin E]].
  rewrite forallb_forall in Hp. specialize (Hp c Hin). unfold plain_byte in Hp.
  rewrite E in Hp. discriminate.
Qed.

Lemma Cut_absent_app (a path : str) (sep : ascii) :
  forallb (fun c => negb (Ascii.eqb c sep)) a = true ->
  plain_byte sep = false -> forallb plain_byte path = true ->
  strings.Cut (a ++ path) sep = (a ++ path, [], false).
Proof.
  intros Ha Hsep Hp. apply Cut_absent. rewrite forallb_app, Ha. now apply plain_no.
Qed.

Lemma Cut_at_slash (a path : str) :
  forallb (fun c => negb (Ascii.eqb c "/")) a = true ->
  strings.Cut (a ++ ("/" : str) ++ path) "/" = (a, path, true).
Proof.
  induction a as [|c a IH]; simpl; [reflexivity|].
  rewrite andb_true_iff, negb_true_iff. intros [-> H]. simpl in IH. now rewrite (IH H).
Qed.

(** [url.Parse] splits the canonical form into the canonical host and the
    path as it is written. *)
Lemma Parse_canonical (path : str) :
  forallb plain_byte path = true ->
  url.Parse (("https://www.threads.net/" : str) ++ path) =
  inr (url.mkURL "https" [] [] "www.threads.net" (("/" : str) ++ path) [] []).
Proof.
  intros Hp. unfold url.Parse.
  rewrite Cut_absent_app by (reflexivity || exact Hp).
  unfold url.parse.
  rewrite no_control_byte by (reflexivity || exact Hp).
  change (strings.HasPrefix (("https://www.threads.net/" : str) ++ path) "*") with false.
  cbn [andb].
  change (url.getScheme (("https://www.threads.net/" : str) ++ path))
    with (inr (A := url.ParseError) (("https" : str), ("//www.threads.net/" : str) ++ path)).
  cbv beta iota.
  rewrite Cut_absent_app by (reflexivity || exact Hp).
  cbv beta iota zeta.
  change (strings.HasPrefix (("//www.threads.net/" : str) ++ path) "/") with true.
  change (strings.HasPrefix (("//www.threads.net/" : str) ++ path) "//") with true.
  change (length (strings.ToLower "https") =? 0) with false.
  cbn [negb andb orb].
  change (skipn 2 (("//www.threads.net/" : str) ++ path))
    with (("www.threads.net" : str) ++ ("/" : str) ++ path).
  rewrite Cut_at_slash by reflexivity.
  cbv beta iota zeta.
  change (url.parseAuthority "www.threads.net")
    with (inr (A := url.ParseError) (([] : str), ("www.threads.net" : str))).
  cbv beta iota.
  rewrite unescape_plain; [reflexivity|].
  change (forallb (fun c => negb (Ascii.eqb c "%")) (("/" : str) ++ path))
    with (forallb (fun c => negb (Ascii.eqb c "%")) path).
  now apply plain_no.
Qed.

Lemma handle_char_plain (x : ascii) : handle_char x = true -> plain_byte x = true.
Proof. destruct x as [[] [] [] [] [] [] [] []]; vm_compute; congruence. Qed.

Lemma post_id_char_plain (x : ascii) : post_id_char x = true -> plain_byte x = true.
Proof. destruct x as [[] [] [] [] [] [] [] []]; vm_compute; congruence. Qed.

(** A path of the shape of the specification is a slash followed by plain
    bytes. *)
Lemma post_path_shape_plain (path : str) :
  post_path_shape path = true ->
  exists tail, path = ("/" : str) ++ tail /\ forallb plain_byte tail = true.
Proof.
  unfold post_path_shape, after_post_path.
  destruct (strings.HasPrefix path "/@") eqn:E1; [|discriminate].
  apply HasPrefix_skipn in E1. change (length ("/@" : str)) with 2 in E1.
  destruct (skipn 2 path) as [|x s] eqn:E2; [discriminate|].
  destruct (handle_char x) eqn:Ex; [|discriminate].
  destruct (strings.HasPrefix (skip_run handle_char s) "/post/") eqn:E3; [|discriminate].
  apply HasPrefix_skipn in E3. change (length ("/post/" : str)) with 6 in E3.
  destruct (skipn 6 (skip_run handle_char s)) as [|y t] eqn:E4; [discriminate|].
  destruct (post_id_char y) eqn:Ey; [|discriminate].
  intros Hrest.
  exists (("@" : str) ++ x :: s). split; [exact E1|].
  cbn [app forallb list_ascii_of_string].
  change (plain_byte "@") with true. rewrite (handle_char_plain x Ex). cbn [andb].
  apply (skip_run_forallb handle_char plain_byte s handle_char_plain).
  rewrite E3. rewrite forallb_app. cbn [forallb]. rewrite (post_id_char_plain y Ey).
  change (forallb plain_byte ("/post/" : str)) with true. cbn [andb].
  apply (skip_run_forallb post_id_char plain_byte t post_id_char_plain).
  destruct (skip_run post_id_char t) as [|c [|c' rest]]; try discriminate; [reflexivity|].
  apply Ascii.eqb_eq in Hrest. now subst c.
Qed.

(** On the inputs whose path has the shape of the specification, the
    normalizer is idempotent and its output has no query string. *)
Lemma normalizer_idempotent_on_post_paths (inputURL output : str) (parsedURL : url.URL) :
  url.Parse inputURL = inr parsedURL ->
  post_path_shape (url.Path parsedURL) = true ->
  normalizeURL url.Parse inputURL = Ok output ->
  normalizeURL url.Parse output = Ok output /\ strings.Contains output "?" = false.
Proof.
  intros Hparse Hshape Hout.
  destruct (post_path_shape_plain _ Hshape) as [tail [Hpath Hplain]].
  assert (Eout : output = ("https://www.threads.net/" : str) ++ tail).
  { unfold normalizeURL in Hout. rewrite Hparse in Hout.
    destruct (negb _); [discriminate|]. destruct (negb _); [discriminate|].
    injection Hout as <-. now rewrite Hpath. }
  split.
  - rewrite Eout.
    rewrite (normalizer_path_check url.Parse _ _ (Parse_canonical tail Hplain) eq_refl).
    cbn [url.Path]. rewrite <- Hpath.
    unfold post_path_shape in Hshape.
    destruct (after_post_path (url.Path parsedURL)); [|discriminate].
    now rewrite Hpath.
  - rewrite Eout. change ("?" : str) with ["?"%char]. rewrite Contains_byte, existsb_app.
    apply orb_false_iff. split; [reflexivity|].
    apply not_true_iff_false. intros E. apply existsb_exists in E as [c [Hin E]].
    apply Ascii.eqb_eq in E. subst c.
    rewrite forallb_forall in Hplain. specialize (Hplain _ Hin). discriminate.
Qed.

(** C6, at the failing inputs. Scenario A holds and a canonical address is
    a fixed point.  But the path is accepted with anything after the post
    identifier and is written back decoded: an escaped question mark comes
    out as a query string, after which a second normalization gives another
    address; an escaped percent sign comes out as an invalid escape, after
    which a second normalization fails. *)
Theorem normalizer_keeps_escaped_query :
  normalizeURL url.Parse "https://www.threads.net/@alice/post/Cabc123?hl=en" = Ok alice_post /\
  normalizeURL url.Parse alice_post = Ok alice_post /\
  (let inputURL : str := "https://www.threads.net/@alice/post/Cabc123/%3Fhl=en" in
   let output : str := "https://www.threads.net/@alice/post/Cabc123/?hl=en" in
   normalizeURL url.Parse inputURL = Ok output /\
   strings.Contains output "?" = true /\
   normalizeURL url.Parse output = Ok ("https://www.threads.net/@alice/post/Cabc123/" : str) /\
   normalizeURL url.Parse output <> Ok output) /\
  (let inputURL : str := "https://www.threads.net/@alice/post/Cabc123/%25zz" in
   let output : str := "https://www.threads.net/@alice/post/Cabc123/%zz" in
   normalizeURL url.Parse inputURL = Ok output /\
   normalizeURL url.Parse output = Err InvalidURL).
Proof.
  cbv zeta. repeat split; try (vm_compute; reflexivity).
  intros H.
  assert (E : normalizeURL url.Parse "https://www.threads.net/@alice/post/Cabc123/?hl=en"
              = Ok ("https://www.threads.net/@alice/post/Cabc123/" : str))
    by (vm_compute; reflexivity).
  rewrite E in H. discriminate.
Qed.


(** ** Metadata extractor *)

Lemma videoUrls_of_eq (html : str) :
  videoUrls_of html =
  extract_url "playable_url" html
    (extract_url "sd_src" html
       (extract_url "hd_src" html
          (extract_url "browser_sd" html (extract_url "browser_hd" html ∅)))).
Proof.
  unfold videoUrls_of, extractVideoMetadata.
  destruct (first_group (metadataPatterns "video_id") html);
    destruct (first_group (metadataPatterns "title") html);
    destruct (first_group (metadataPatterns "duration") html) as [d|];
    try destruct (strconv.ParseInt d); reflexivity.
Qed.

Lemma lookup_extract_url (key key' : string) (html : str) (m : gmap string str) :
  extract_url key html m !! key' =
  if decide (key = key')
  then match first_group (metadataPatterns key) html with
       | Some g => Some (unescape g)
       | None => m !! key'
       end
  else m !! key'.
Proof.
  unfold extract_url. destruct (first_group (metadataPatterns key) html).
  - rewrite lookup_insert. reflexivity.
  - now destruct (decide (key = key')).
Qed.

Lemma videoUrls_of_lookup (html : str) (key : string) :
  videoUrls_of html !! key =
  if bool_decide (key ∈ quality_keys)
  then unescape <$> first_group (metadataPatterns key) html
  else None.
Proof.
  rewrite videoUrls_of_eq, !lookup_extract_url.
  destruct (bool_decide (key ∈ quality_keys)) eqn:E.
  - apply bool_decide_eq_true in E.
    unfold quality_keys in E. rewrite !elem_of_cons, elem_of_nil in E.
    destruct E as [-> | [-> | [-> | [-> | [-> | []]]]]];
      repeat (match goal with
              | |- context [decide (?a = ?b)] => destruct (decide (a = b)); try discriminate
              end);
      try congruence;
      destruct (first_group _ html); reflexivity.
  - apply bool_decide_eq_false in E.
    unfold quality_keys in E. rewrite !not_elem_of_cons in E.
    destruct E as (? & ? & ? & ? & ? & _).
    repeat (match goal with
            | |- context [decide (?a = ?b)] => destruct (decide (a = b)); try congruence
            end).
    apply lookup_empty.
Qed.

(** C10. Whatever the markup, the quality-tier map of the metadata
    extractor has no key outside browser_hd, browser_sd, hd_src, sd_src and
    playable_url, in particular no dash-manifest key, and each of the five
    keys is bound exactly when its own pattern matches, to the unescaped
    first group of the leftmost match. *)
Theorem quality_map_keys (html : str) :
  dom (videoUrls_of html) ⊆ list_to_set quality_keys /\
  videoUrls_of html !! "dash_manifest"%string = None /\
  videoUrls_of html !! "video_dash_manifest"%string = None /\
  videoUrls_of html !! "browser_hd"%string =
    unescape <$> first_group (field_pattern "browser_native_hd_url") html /\
  videoUrls_of html !! "browser_sd"%string =
    unescape <$> first_group (field_pattern "browser_native_sd_url") html /\
  videoUrls_of html !! "hd_src"%string =
    unescape <$> first_group (field_pattern "hd_src") html /\
  videoUrls_of html !! "sd_src"%string =
    unescape <$> first_group (field_pattern "sd_src") html /\
  videoUrls_of html !! "playable_url"%string =
    unescape <$> first_group (field_pattern "playable_url") html.
Proof.
  split.
  { intros key Hkey. apply elem_of_dom in Hkey as [v Hv].
    rewrite videoUrls_of_lookup in Hv.
    destruct (bool_decide (key ∈ quality_keys)) eqn:E; [|discriminate].
    apply bool_decide_eq_true in E. now apply elem_of_list_to_set. }
  repeat split; rewrite videoUrls_of_lookup; reflexivity.
Qed.

Lemma duration_of_eq (html d : str) (ms : Z) :
  first_group (metadataPatterns "duration") html = Some d ->
  strconv.ParseInt d = Some ms ->
  duration_of html = (ms ÷ 1000)%Z.
Proof.
  intros Hd Hms. unfold duration_of, extractVideoMetadata. rewrite Hd, Hms.
  destruct (first_group (metadataPatterns "video_id") html);
    destruct (first_group (metadataPatterns "title") html); reflexivity.
Qed.


(** ** Source-markup strategy *)

(** Whatever the video scan of the markup returns is a valid video URL. *)
Lemma find_video_in_source_valid (html url : str) :
  find_video_in_source html = Some url -> isValidVideoURL url = true.
Proof.
  unfold find_video_in_source. intros H.
  apply first_some_found in H as [pattern [_ H]].
  apply first_some_found in H as [m [_ H]].
  destruct m as [|whole [|g m]]; try discriminate.
  destruct (isValidVideoURL (unescape g)) eqn:E; [|discriminate].
  now injection H as <-.
Qed.

(** A pattern of the scan whose leftmost capture unescapes to a valid video
    URL makes the scan succeed. *)
Lemma find_video_in_source_some (html : str) (pattern : re) (u : str) :
  In pattern videoPatterns ->
  first_group pattern html = Some u ->
  isValidVideoURL (unescape u) = true ->
  exists url, find_video_in_source html = Some url.
Proof.
  intros Hin Hu Hvalid.
  destruct (find_video_in_source html) as [url|] eqn:E; [now exists url|].
  exfalso. unfold find_video_in_source in E.
  rewrite first_some_none in E. specialize (E pattern Hin).
  unfold first_group in Hu.
  destruct (FindStringSubmatch pattern html) as [m|] eqn:Em; [|discriminate].
  destruct (FindAll_head _ _ _ Em) as [rest Hall]. rewrite Hall in E.
  destruct m as [|whole [|g m]]; try discriminate. injection Hu as ->.
  simpl in E. rewrite Hvalid in E. discriminate.
Qed.

Lemma extractFromSourceCode_video (page : Page) (pageType html url : str) :
  HTML page = Some html ->
  find_video_in_source html = Some url ->
  exists r, extractFromSourceCode page pageType = Some r /\
            MediaURL r = url /\ MediaType r = ("video" : str) /\ Success r = true /\
            Duration r = duration_of html /\ VideoUrls r = videoUrls_of html.
Proof.
  intros Hhtml Hurl. unfold extractFromSourceCode. rewrite Hhtml, Hurl.
  unfold duration_of, videoUrls_of.
  destruct (extractVideoMetadata html) as [[[[videoID title] duration] videoUrls] metadata].
  eexists. split; [reflexivity|]. simpl. repeat split; reflexivity.
Qed.

(** C5, amended. When the leftmost browser_native_hd_url field of the
    markup, for the pattern of the source-markup strategy as for the pattern
    of the metadata extractor, holds [u], [u] unescapes to a valid video URL
    and the leftmost playable_duration_in_ms field is 30000, the
    source-markup strategy returns a video result of duration 30 whose
    quality map binds browser_hd to the unescaped [u]; it is the result of
    the chain when no DOM video element matched. *)
Theorem source_markup_video_result (page : Page) (pageType html u : str) :
  HTML page = Some html ->
  first_group (quoted_value (Q "browser_native_hd_url`:")) html = Some u ->
  first_group (metadataPatterns "browser_hd") html = Some u ->
  isValidVideoURL (unescape u) = true ->
  first_group (metadataPatterns "duration") html = Some ("30000" : str) ->
  exists r,
    extractFromSourceCode page pageType = Some r /\
    MediaType r = ("video" : str) /\ Success r = true /\
    isValidVideoURL (MediaURL r) = true /\
    Duration r = 30%Z /\
    VideoUrls r !! "browser_hd"%string = Some (unescape u) /\
    (extractFromDOMElements page "video" = None -> strategy_chain page "video" = Some r).
Proof.
  intros Hhtml Hsrc Hmeta Hvalid Hdur.
  destruct (find_video_in_source_some html (quoted_value (Q "browser_native_hd_url`:")) u)
    as [url Hurl]; [|exact Hsrc|exact Hvalid|].
  { unfold videoPatterns. do 9 right. now left. }
  destruct (extractFromSourceCode_video page pageType html url Hhtml Hurl)
    as (r & Hr & Hu & Ht & Hs & Hd & Hv).
  exists r. split; [exact Hr|]. split; [exact Ht|]. split; [exact Hs|]. split.
  { rewrite Hu. now apply (find_video_in_source_valid html). }
  split. { rewrite Hd. now rewrite (duration_of_eq html "30000" 30000 Hdur). }
  split.
  { rewrite Hv, videoUrls_of_lookup, Hmeta. reflexivity. }
  intros Hdom. unfold strategy_chain. rewrite Hdom.
  destruct (extractFromSourceCode_video page "video" html url Hhtml Hurl)
    as (r' & Hr' & _).
  rewrite Hr'. f_equal.
  unfold extractFromSourceCode in Hr, Hr'. rewrite Hhtml, Hurl in Hr, Hr'.
  congruence.
Qed.

Lemma source_markup_video_result_witness :
  exists r,
    extractFromSourceCode (page_of_images [] clip_markup) "video" = Some r /\
    MediaType r = ("video" : str) /\ Duration r = 30%Z /\
    VideoUrls r !! "browser_hd"%string = Some ("https://video.example/hd.mp4?a=1&b=2" : str).
Proof.
  destruct (source_markup_video_result (page_of_images [] clip_markup) "video" clip_markup
              clip_hd_escaped)
    as (r & Hr & Ht & _ & _ & Hd & Hu & _);
    try (vm_compute; reflexivity).
  exists r. repeat split; assumption.
Defined.

(** C5 as stated fails: markup that contains both fields of the claim
    after an earlier duration field of 5000 ms yields duration 5. *)
Lemma first_duration_field_wins :
  let html := two_clips_markup in
  let u : str := "https://video.example/hd.mp4" in
  strings.Contains html (Q "`browser_native_hd_url`:`" ++ u ++ Q "`") = true /\
  isValidVideoURL (unescape u) = true /\
  strings.Contains html (Q "`playable_duration_in_ms`:30000") = true /\
  extractFromDOMElements (page_of_images [] html) "video" = None /\
  Duration <$> extractFromSourceCode (page_of_images [] html) "video" = Some 5%Z /\
  ~ (exists r, extractFromSourceCode (page_of_images [] html) "video" = Some r /\
               Duration r = 30%Z).
Proof.
  cbv zeta. repeat split; try (vm_compute; reflexivity).
  intros (r & Hr & Hd).
  assert (H : Duration <$> extractFromSourceCode (page_of_images [] two_clips_markup) "video"
              = Some 5%Z) by (vm_compute; reflexivity).
  rewrite Hr in H. simpl in H. congruence.
Qed.




(** ** DOM-element strategy *)

Lemma probe_video_element_video (video : DOMElement) (r : ExtractResponse) :
  probe_video_element video = Some r -> is_video_result r.
Proof.
  unfold probe_video_element.
  destruct (Attribute video "src") as [src|];
    [destruct (nonempty src && isValidVideoURL src) eqn:E1;
     [apply andb_true_iff in E1 as [_ E1]; intros [= <-]; now repeat split|]|];
  (destruct (Attribute video "data-video-url") as [dv|];
    [destruct (nonempty dv && isValidVideoURL dv) eqn:E2;
     [apply andb_true_iff in E2 as [_ E2]; intros [= <-]; now repeat split|]|]);
  (destruct (sources video) as [ss|];
     [destruct (first_some _ ss) as [r'|] eqn:E3;
      [intros [= <-]; apply first_some_found in E3 as [source [_ E3]];
       destruct (source !! "src"%string) as [src'|]; [|discriminate];
       destruct (nonempty src' && isValidVideoURL src') eqn:E4; [|discriminate];
       apply andb_true_iff in E4 as [_ E4]; injection E3 as <-; now repeat split|]|]);
  (destruct (currentSrc video) as [cs|]; [|discriminate];
   destruct (nonempty cs && isValidVideoURL cs) eqn:E5; [|discriminate];
   apply andb_true_iff in E5 as [_ E5]; intros [= <-]; now repeat split).
Qed.

Lemma dom_video_strategy_video (page : Page) (r : ExtractResponse) :
  extractFromDOMElements page "video" = Some r -> is_video_result r.
Proof.
  unfold extractFromDOMElements. rewrite bool_decide_eq_true_2 by reflexivity.
  intros H. apply first_some_found in H as [selector [_ H]].
  destruct (Elements page selector) as [videoElements|]; [|discriminate].
  apply first_some_found in H as [video [_ H]].
  now apply (probe_video_element_video video).
Qed.


(** The image strategy of the DOM never takes a URL the image predicate
    refuses. *)
Lemma fold_best_image_valid (imgs : list DOMElement) (best : str * Z) :
  (fst best = [] \/ isValidImageURL (fst best) = true) ->
  fst (fold_left best_image imgs best) = [] \/
  isValidImageURL (fst (fold_left best_image imgs best)) = true.
Proof.
  revert best. induction imgs as [|img imgs IH]; intros best Hbest; simpl; [exact Hbest|].
  apply IH. unfold best_image. destruct best as [bestURL bestScore].
  destruct (Attribute img "src") as [url|]; [|exact Hbest].
  destruct (nonempty url && isValidImageURL url && negb (isValidVideoURL url)) eqn:E;
    [|exact Hbest].
  destruct (scoreImageURL url >? bestScore)%Z; [|exact Hbest].
  right. simpl. apply andb_true_iff in E as [E _]. now apply andb_true_iff in E as [_ E].
Qed.

Lemma dom_image_strategy_valid (page : Page) (pageType : str) (r : ExtractResponse) :
  pageType <> ("video" : str) ->
  extractFromDOMElements page pageType = Some r ->
  MediaType r = ("image" : str) /\ isValidImageURL (MediaURL r) = true.
Proof.
  intros Hne. unfold extractFromDOMElements. rewrite bool_decide_eq_false_2 by exact Hne.
  destruct (Elements page "img") as [imgs|]; [|discriminate].
  pose proof (fold_best_image_valid imgs ([], 0%Z) (or_introl eq_refl)) as Hv.
  destruct (fold_left best_image imgs ([], 0%Z)) as [bestURL bestScore]. simpl in Hv.
  destruct (nonempty bestURL && (bestScore >? 50)%Z) eqn:E; [|discriminate].
  intros [= <-]. split; [reflexivity|]. simpl.
  destruct Hv as [-> | Hv]; [discriminate | exact Hv].
Qed.

(** The best score stays at or below the floor as long as no image scores
    above it. *)
Lemma fold_best_image_floor (imgs : list DOMElement) (best : str * Z) :
  (snd best <= 50)%Z ->
  (forall img src, In img imgs -> Attribute img "src" = Some src ->
                   (scoreImageURL src <= 50)%Z) ->
  (snd (fold_left best_image imgs best) <= 50)%Z.
Proof.
  revert best. induction imgs as [|img imgs IH]; intros best Hbest Hall; simpl; [exact Hbest|].
  apply IH.
  - unfold best_image. destruct best as [bestURL bestScore].
    destruct (Attribute img "src") as [url|] eqn:E; [|exact Hbest].
    destruct (nonempty url && isValidImageURL url && negb (isValidVideoURL url)); [|exact Hbest].
    destruct (scoreImageURL url >? bestScore)%Z; [|exact Hbest].
    simpl. apply (Hall img url); [now left | exact E].
  - intros img' src Hin. apply Hall. now right.
Qed.

Lemma dom_image_floor (page : Page) (pageType : str) (imgs : list DOMElement) :
  pageType <> ("video" : str) ->
  Elements page "img" = Some imgs ->
  (forall img src, In img imgs -> Attribute img "src" = Some src ->
                   (scoreImageURL src <= 50)%Z) ->
  extractFromDOMElements page pageType = None.
Proof.
  intros Hne Himgs Hall. unfold extractFromDOMElements.
  rewrite bool_decide_eq_false_2 by exact Hne. rewrite Himgs.
  pose proof (fold_best_image_floor imgs ([], 0%Z)) as Hfloor.
  destruct (fold_left best_image imgs ([], 0%Z)) as [bestURL bestScore].
  simpl in Hfloor.
  replace (bestScore >? 50)%Z with false; [now rewrite andb_false_r|].
  symmetry. rewrite Z.gtb_ltb. apply Z.ltb_ge. apply Hfloor; [lia | exact Hall].
Qed.

(** C9. The score is 0 exactly when the image predicate rejects the URL,
    and lies between 50 and 125 otherwise, never strictly between 0 and 50.
    A valid image URL without dimension token and without full_res or
    original scores exactly 50, which does not pass the floor of the DOM
    image strategy: a page whose only image it is yields no result. *)
Theorem score_zero_or_at_least_base (url : str) :
  (scoreImageURL url = 0%Z <-> isValidImageURL url = false) /\
  (isValidImageURL url = true -> (50 <= scoreImageURL url <= 125)%Z) /\
  ~ (0 < scoreImageURL url < 50)%Z /\
  (isValidImageURL url = true -> no_quality_token url = true ->
   scoreImageURL url = 50%Z /\
   (scoreImageURL url >? 50)%Z = false /\
   forall page pageType img,
     pageType <> ("video" : str) ->
     Elements page "img" = Some [img] ->
     Attribute img "src" = Some url ->
     extractFromDOMElements page pageType = None).
Proof.
  pose proof (score_range url) as Hrange. pose proof (score_invalid url) as Hzero.
  split.
  { split; [|exact Hzero].
    destruct (isValidImageURL url); [|reflexivity].
    intros H. specialize (Hrange eq_refl). lia. }
  split; [exact Hrange|]. split.
  { destruct (isValidImageURL url).
    - specialize (Hrange eq_refl). lia.
    - rewrite Hzero by reflexivity. lia. }
  intros Hvalid Htoken. rewrite (score_no_token url Htoken), Hvalid.
  split; [reflexivity|]. split; [reflexivity|].
  intros page pageType img Hne Himgs Hsrc.
  apply (dom_image_floor page pageType [img] Hne Himgs).
  intros img' src [<- | []] Hsrc'. rewrite Hsrc in Hsrc'. injection Hsrc' as <-.
  rewrite (score_no_token url Htoken), Hvalid. lia.
Qed.

Lemma score_zero_or_at_least_base_witness :
  scoreImageURL "https://scontent.cdninstagram.com/t51/photo.jpg" = 50%Z /\
  extractFromDOMElements
    (page_of_images [img_element "https://scontent.cdninstagram.com/t51/photo.jpg"] [])
    "image" = None.
Proof.
  destruct (score_zero_or_at_least_base "https://scontent.cdninstagram.com/t51/photo.jpg")
    as (_ & _ & _ & H).
  destruct (H ltac:(vm_compute; reflexivity) ltac:(vm_compute; reflexivity)) as (H50 & _ & Hdom).
  split; [exact H50|].
  apply (Hdom _ _ (img_element "https://scontent.cdninstagram.com/t51/photo.jpg"));
    [discriminate | reflexivity | reflexivity].
Defined.


(** ** The extraction call *)


Lemma analyzePageContent_labels (page : Page) :
  analyzePageContent page = ("video" : str) \/ analyzePageContent page = ("image" : str).
Proof.
  unfold analyzePageContent.
  repeat (match goal with |- context [if ?b then _ else _] => destruct b end); auto.
Qed.

(** An input the normalizer rejects fails with the normalizer's error
    whatever the browser session would do: no page is opened for it. *)
Lemma rejected_input_opens_no_page
    (Parse : str -> url.ParseError + url.URL) (browser browser' : str -> navigation)
    (threadsURL : str) (e : error) :
  normalizeURL Parse threadsURL = Err e ->
  extractMediaURL Parse browser threadsURL = Err e /\
  extractMediaURL Parse browser' threadsURL = Err e.
Proof.
  intros H. unfold extractMediaURL. now rewrite H.
Qed.





(** * Further properties of the code *)

(** ** Candidates of the strategies *)

Lemma valid_video_nonempty (url : str) : isValidVideoURL url = true -> nonempty url = true.
Proof. now destruct url. Qed.

Lemma valid_image_nonempty (url : str) : isValidImageURL url = true -> nonempty url = true.
Proof. now destruct url. Qed.

(** The double check of an image candidate decides like the image predicate
    alone. *)
Lemma image_candidate (url : str) :
  nonempty url && isValidImageURL url && negb (isValidVideoURL url) = isValidImageURL url.
Proof.
  destruct (isValidImageURL url) eqn:E.
  - rewrite (valid_image_nonempty url E).
    now rewrite (extension_excludes_video url (image_needs_extension url E)).
  - now rewrite andb_false_r.
Qed.

Lemma score_nonneg (url : str) : (0 <= scoreImageURL url)%Z.
Proof.
  destruct (isValidImageURL url) eqn:E.
  - pose proof (score_range url E). lia.
  - rewrite (score_invalid url E). lia.
Qed.

Lemma score_positive_valid (url : str) :
  (0 < scoreImageURL url)%Z -> isValidImageURL url = true.
Proof.
  destruct (isValidImageURL url) eqn:E; [reflexivity|].
  rewrite (score_invalid url E). lia.
Qed.

Lemma first_some_in {A B : Type} (f : A -> option B) (l : list A) (x : A) (y : B) :
  In x l -> f x = Some y -> exists y', first_some f l = Some y'.
Proof.
  intros Hin Hx. destruct (first_some f l) as [y'|] eqn:E; [eauto|].
  rewrite first_some_none in E. rewrite (E x Hin) in Hx. discriminate.
Qed.

(** ** The image branch of the DOM-element strategy *)

Lemma best_image_step (seen : list DOMElement) (best : str * Z) (img : DOMElement) :
  best_so_far seen best -> best_so_far (seen ++ [img]) (best_image best img).
Proof.
  destruct best as [bestURL bestScore]. intros [Hmax Hbest]. simpl in Hmax, Hbest.
  unfold best_image.
  destruct (Attribute img "src") as [url|] eqn:Esrc.
  - rewrite image_candidate.
    destruct (isValidImageURL url) eqn:Ev.
    + destruct (scoreImageURL url >? bestScore)%Z eqn:Egt.
      * apply Z.gtb_lt in Egt. split; simpl.
        -- intros img' u Hin Hu. apply in_app_or in Hin as [Hin | [<- | []]].
           ++ specialize (Hmax img' u Hin Hu). lia.
           ++ rewrite Esrc in Hu. injection Hu as <-. lia.
        -- right. split; [reflexivity|]. split.
           ++ pose proof (score_range url Ev). lia.
           ++ exists img. split; [apply in_or_app; right; now left | exact Esrc].
      * rewrite Z.gtb_ltb in Egt. apply Z.ltb_ge in Egt. split; simpl.
        -- intros img' u Hin Hu. apply in_app_or in Hin as [Hin | [<- | []]].
           ++ exact (Hmax img' u Hin Hu).
           ++ rewrite Esrc in Hu. now injection Hu as <-.
        -- destruct Hbest as [Hb | [Hs [Hpos [img' [Hin Hu]]]]]; [now left|].
           right. repeat split; try assumption.
           exists img'. split; [apply in_or_app; now left | exact Hu].
    + split; simpl.
      * intros img' u Hin Hu. apply in_app_or in Hin as [Hin | [<- | []]].
        -- exact (Hmax img' u Hin Hu).
        -- rewrite Esrc in Hu. injection Hu as <-. rewrite (score_invalid url Ev).
           destruct Hbest as [[_ ->] | [_ [Hpos _]]]; lia.
      * destruct Hbest as [Hb | [Hs [Hpos [img' [Hin Hu]]]]]; [now left|].
        right. repeat split; try assumption.
        exists img'. split; [apply in_or_app; now left | exact Hu].
  - split; simpl.
    + intros img' u Hin Hu. apply in_app_or in Hin as [Hin | [<- | []]].
      * exact (Hmax img' u Hin Hu).
      * rewrite Esrc in Hu. discriminate.
    + destruct Hbest as [Hb | [Hs [Hpos [img' [Hin Hu]]]]]; [now left|].
      right. repeat split; try assumption.
      exists img'. split; [apply in_or_app; now left | exact Hu].
Qed.

Lemma fold_best_image_best (imgs seen : list DOMElement) (best : str * Z) :
  best_so_far seen best -> best_so_far (seen ++ imgs) (fold_left best_image imgs best).
Proof.
  revert seen best. induction imgs as [|img imgs IH]; intros seen best H; simpl.
  - now rewrite app_nil_r.
  - replace (seen ++ img :: imgs) with ((seen ++ [img]) ++ imgs)
      by now rewrite <- app_assoc.
    apply IH. now apply best_image_step.
Qed.

Lemma dom_image_source (page : Page) (pageType : str) (imgs : list DOMElement)
    (r : ExtractResponse) :
  pageType <> ("video" : str) ->
  Elements page "img" = Some imgs ->
  extractFromDOMElements page pageType = Some r ->
  exists img, In img imgs /\ Attribute img "src" = Some (MediaURL r).
Proof.
  intros Hne Himgs. unfold extractFromDOMElements.
  rewrite bool_decide_eq_false_2 by exact Hne. rewrite Himgs.
  assert (H0 : best_so_far [] ([], 0%Z)).
  { split; [intros img u []|now left]. }
  pose proof (fold_best_image_best imgs [] _ H0) as [_ Hbest]. simpl app in *.
  destruct (fold_left best_image imgs ([], 0%Z)) as [bestURL bestScore].
  simpl in Hbest.
  destruct (nonempty bestURL && (bestScore >? 50)%Z) eqn:E; [|discriminate].
  apply andb_true_iff in E as [Hn _]. intros [= <-]. simpl.
  destruct Hbest as [[-> _] | [_ [_ Hin]]]; [discriminate | exact Hin].
Qed.

(** X1. Under a label other than video, the DOM-element strategy returns
    the source of an [img] of the page whose score is above 50 and is the
    highest score of all the sources of the page; it returns nothing exactly
    when no source scores above 50. *)
Theorem dom_image_strategy_best (page : Page) (pageType : str) (imgs : list DOMElement) :
  pageType <> ("video" : str) ->
  Elements page "img" = Some imgs ->
  match extractFromDOMElements page pageType with
  | Some r =>
      MediaType r = ("image" : str) /\ Success r = true /\
      (exists img, In img imgs /\ Attribute img "src" = Some (MediaURL r)) /\
      (50 < scoreImageURL (MediaURL r))%Z /\
      forall img u, In img imgs -> Attribute img "src" = Some u ->
                    (scoreImageURL u <= scoreImageURL (MediaURL r))%Z
  | None =>
      forall img u, In img imgs -> Attribute img "src" = Some u ->
                    (scoreImageURL u <= 50)%Z
  end.
Proof.
  intros Hne Himgs. unfold extractFromDOMElements.
  rewrite bool_decide_eq_false_2 by exact Hne. rewrite Himgs.
  assert (H0 : best_so_far [] ([], 0%Z)).
  { split; [intros img u []|now left]. }
  pose proof (fold_best_image_best imgs [] _ H0) as [Hmax Hbest]. simpl app in *.
  destruct (fold_left best_image imgs ([], 0%Z)) as [bestURL bestScore].
  simpl in Hmax, Hbest.
  destruct (nonempty bestURL && (bestScore >? 50)%Z) eqn:E.
  - apply andb_true_iff in E as [Hn Hgt]. apply Z.gtb_lt in Hgt.
    destruct Hbest as [[-> _] | [Hs [_ Hin]]]; [discriminate|].
    simpl. repeat split; try assumption; try lia.
    intros img u Hi Hu. specialize (Hmax img u Hi Hu). lia.
  - intros img u Hi Hu. specialize (Hmax img u Hi Hu).
    apply andb_false_iff in E as [E | E].
    + destruct Hbest as [[_ ->] | [Hs [Hpos _]]]; [lia|].
      destruct bestURL; [|discriminate]. rewrite Hs in Hpos.
      apply score_positive_valid in Hpos. discriminate.
    + rewrite Z.gtb_ltb in E. apply Z.ltb_ge in E. lia.
Qed.

Lemma dom_image_strategy_best_witness :
  exists r, extractFromDOMElements image_post_page "image" = Some r /\
            MediaURL r = image_post_src /\ (50 < scoreImageURL (MediaURL r))%Z.
Proof.
  pose proof (dom_image_strategy_best image_post_page "image" [img_element image_post_src]) as H.
  destruct (extractFromDOMElements image_post_page "image") as [r|] eqn:E.
  - exists r. split; [reflexivity|].
    destruct H as [_ [_ [_ [H _]]]]; [discriminate | reflexivity |].
    split; [|exact H]. revert E. vm_compute. now intros [= <-].
  - exfalso. revert E. vm_compute. discriminate.
Defined.

(** ** The video branch of the DOM-element strategy and the classifier *)

Lemma existsb_In {A : Type} (f : A -> bool) (l : list A) (x : A) :
  In x l -> f x = true -> existsb f l = true.
Proof. intros Hin Hx. apply existsb_exists. eauto. Qed.

Lemma existsb_agree {A : Type} (f g : A -> bool) (l : list A) :
  (forall x, In x l -> f x = g x) -> existsb f l = existsb g l.
Proof.
  induction l as [|x l IH]; intros H; simpl; [reflexivity|].
  rewrite (H x (or_introl eq_refl)), IH; [reflexivity|].
  intros y Hy. apply H. now right.
Qed.

Lemma analyzePageContent_video (page : Page) :
  analyzePageContent page =
  if meta_signals_video page || elements_signal_video page ||
     match HTML page with Some html => markup_signals_video html | None => false end
  then ("video" : str) else ("image" : str).
Proof.
  unfold analyzePageContent, meta_signals_video, elements_signal_video.
  destruct (existsb _ videoIndicators); [reflexivity|].
  destruct (match Elements page "video" with Some _ => _ | None => _ end); [reflexivity|].
  destruct (match HTML page with Some _ => _ | None => _ end); [reflexivity|].
  cbn [orb].
  repeat (match goal with |- context [if ?b then _ else _] => destruct b end); reflexivity.
Qed.

Lemma MatchString_literal (l s : str) :
  MatchString (Lit l) s = strings.Contains s l.
Proof.
  unfold MatchString, FindStringSubmatch. generalize s at 1 as text.
  induction s as [|x s IH]; intros text; simpl; unfold match_here; cbn [exec].
  - destruct (strings.HasPrefix [] l); [reflexivity|]. now rewrite orb_false_r.
  - destruct (strings.HasPrefix (x :: s) l); [reflexivity|]. apply IH.
Qed.

(** X2. A page whose markup contains one of the literal
    video indicators (a type name, a media or product type, a video field)
    is labelled video by the classifier, whatever else the page holds. *)
Theorem markup_indicator_labels_video (page : Page) (html indicator : str) :
  HTML page = Some html ->
  In (Lit indicator) videoIndicatorPatterns ->
  strings.Contains html indicator = true ->
  analyzePageContent page = ("video" : str).
Proof.
  intros Hhtml Hin Hc. rewrite analyzePageContent_video, Hhtml.
  replace (markup_signals_video html) with true; [now rewrite orb_true_r|].
  symmetry. unfold markup_signals_video. apply orb_true_iff. left.
  apply (existsb_In _ _ (Lit indicator) Hin). now rewrite MatchString_literal.
Qed.

Lemma markup_indicator_labels_video_witness :
  analyzePageContent (page_of_images [] (Q "<script>{`is_video`:true}</script>")) =
  ("video" : str).
Proof.
  apply (markup_indicator_labels_video _ (Q "<script>{`is_video`:true}</script>")
           (Q "`is_video`:true")).
  - reflexivity.
  - right. right. now left.
  - vm_compute. reflexivity.
Defined.

(** X3. The label of the classifier is decided by its
    three video probes alone: two pages that answer alike to the six meta
    selectors, to the query for [video] elements and to the request for the
    markup get the same label, whatever their [og:image] tag and their [img]
    elements are. *)
Theorem classifier_ignores_image_probes (page page' : Page) :
  (forall selector, In selector videoIndicators ->
                    Element page selector = Element page' selector) ->
  Elements page "video" = Elements page' "video" ->
  HTML page = HTML page' ->
  analyzePageContent page = analyzePageContent page'.
Proof.
  intros Hmeta Hvideo Hhtml. rewrite !analyzePageContent_video.
  unfold meta_signals_video, elements_signal_video. rewrite Hvideo, Hhtml.
  rewrite (existsb_agree _
             (fun selector =>
                match Element page' selector with
                | Some meta =>
                    match Attribute meta "content" with
                    | Some content =>
                        nonempty content &&
                        (strings.Contains content "video" || strings.Contains content ".mp4")
                    | None => false
                    end
                | None => false
                end) videoIndicators); [reflexivity|].
  intros selector Hin. now rewrite (Hmeta selector Hin).
Qed.

Lemma classifier_ignores_image_probes_witness :
  analyzePageContent (page_of_images [img_element image_post_src] []) =
  analyzePageContent (page_of_images [] []).
Proof.
  apply (classifier_ignores_image_probes
           (page_of_images [img_element image_post_src] []) (page_of_images [] []));
    reflexivity.
Defined.

Lemma probe_video_element_src (video : DOMElement) (src : str) :
  Attribute video "src" = Some src -> isValidVideoURL src = true ->
  probe_video_element video = Some (plain_response src "video").
Proof.
  intros Hsrc Hv. unfold probe_video_element.
  now rewrite Hsrc, (valid_video_nonempty src Hv), Hv.
Qed.

Lemma probe_video_element_source (video : DOMElement) (sources_ : list (gmap string str))
    (source : gmap string str) (src : str) :
  sources video = Some sources_ -> In source sources_ ->
  source !! "src"%string = Some src -> isValidVideoURL src = true ->
  exists r, probe_video_element video = Some r.
Proof.
  intros Hss Hin Hsrc Hv. unfold probe_video_element.
  destruct (match Attribute video "src" with Some _ => _ | None => _ end); [eauto|].
  destruct (match Attribute video "data-video-url" with Some _ => _ | None => _ end); [eauto|].
  rewrite Hss.
  destruct (first_some_in
              (fun source =>
                 match source !! "src"%string with
                 | Some src =>
                     if nonempty src && isValidVideoURL src
                     then Some (plain_response src "video")
                     else None
                 | None => None
                 end) sources_ source (plain_response src "video") Hin) as [r ->]; [|eauto].
  now rewrite Hsrc, (valid_video_nonempty src Hv), Hv.
Qed.

(** X4. A page with a [video] element that carries a valid
    video URL, in its [src] or in the [src] of a nested [source], is
    labelled video by the classifier, the DOM-element strategy finds a video
    on it, and an extraction call that renders it returns that result. *)
Theorem video_element_is_found
    (Parse : str -> url.ParseError + url.URL) (browser : str -> navigation)
    (threadsURL normalizedURL : str) (page : Page)
    (videoElements : list DOMElement) (video : DOMElement) (src : str) :
  normalizeURL Parse threadsURL = Ok normalizedURL ->
  browser normalizedURL = Rendered page ->
  Elements page "video" = Some videoElements ->
  In video videoElements ->
  (Attribute video "src" = Some src \/
   exists sources_ source, sources video = Some sources_ /\ In source sources_ /\
                           source !! "src"%string = Some src) ->
  isValidVideoURL src = true ->
  analyzePageContent page = ("video" : str) /\
  exists r, extractFromDOMElements page "video" = Some r /\ is_video_result r /\
            extractMediaURL Parse browser threadsURL = Ok r.
Proof.
  intros Hnorm Hpage Hvideos Hin Hsrc Hv. split.
  - rewrite analyzePageContent_video.
    replace (elements_signal_video page) with true; [now rewrite orb_true_r|].
    symmetry. unfold elements_signal_video. rewrite Hvideos.
    apply (existsb_In _ _ video Hin). unfold video_element_detected.
    destruct Hsrc as [Hsrc | [sources_ [source [Hss [Hs Hsrc]]]]].
    + now rewrite Hsrc, (valid_video_nonempty src Hv), Hv.
    + rewrite Hss. rewrite (existsb_In _ _ source Hs); [now rewrite orb_true_r|].
      now rewrite Hsrc, (valid_video_nonempty src Hv), Hv.
  - assert (Hprobe : exists r, probe_video_element video = Some r).
    { destruct Hsrc as [Hsrc | [sources_ [source [Hss [Hs Hsrc]]]]].
      - eexists. exact (probe_video_element_src video src Hsrc Hv).
      - now apply (probe_video_element_source video sources_ source src). }
    destruct Hprobe as [r0 Hr0].
    destruct (first_some_in probe_video_element videoElements video r0 Hin Hr0) as [r1 Hr1].
    assert (Hdom : exists r, extractFromDOMElements page "video" = Some r).
    { unfold extractFromDOMElements. rewrite bool_decide_eq_true_2 by reflexivity.
      apply (first_some_in _ videoSelectors ("video" : str) r1).
      - right. now left.
      - now rewrite Hvideos. }
    destruct Hdom as [r Hr]. exists r. split; [exact Hr|]. split.
    + now apply (dom_video_strategy_video page).
    + unfold extractMediaURL. now rewrite Hnorm, Hpage, Hr.
Qed.

Lemma video_element_is_found_witness :
  let src : str := "https://video.example/clip.mp4" in
  analyzePageContent (page_of_video src) = ("video" : str) /\
  exists r, extractMediaURL url.Parse (fun _ => Rendered (page_of_video src)) alice_post = Ok r.
Proof.
  cbv zeta.
  destruct (video_element_is_found url.Parse
              (fun _ => Rendered (page_of_video "https://video.example/clip.mp4"))
              alice_post alice_post (page_of_video "https://video.example/clip.mp4")
              [mkDOMElement {["src" := ("https://video.example/clip.mp4" : str)]} (Some []) None]
              (mkDOMElement {["src" := ("https://video.example/clip.mp4" : str)]} (Some []) None)
              "https://video.example/clip.mp4")
    as [Hlabel [r [_ [_ Hr]]]].
  - vm_compute. reflexivity.
  - reflexivity.
  - reflexivity.
  - now left.
  - left. reflexivity.
  - vm_compute. reflexivity.
  - split; [exact Hlabel | now exists r].
Defined.

(** ** Results of the DOM-element strategy *)

Lemma probe_video_element_plain (video : DOMElement) (r : ExtractResponse) :
  probe_video_element video = Some r -> exists url, r = plain_response url "video".
Proof.
  unfold probe_video_element.
  destruct (Attribute video "src") as [src|];
    [destruct (nonempty src && isValidVideoURL src); [intros [= <-]; eauto|]|];
  (destruct (Attribute video "data-video-url") as [dv|];
    [destruct (nonempty dv && isValidVideoURL dv); [intros [= <-]; eauto|]|]);
  (destruct (sources video) as [ss|];
     [destruct (first_some _ ss) as [r'|] eqn:E3;
      [intros [= <-]; apply first_some_found in E3 as [source [_ E3]];
       destruct (source !! "src"%string) as [src'|]; [|discriminate];
       destruct (nonempty src' && isValidVideoURL src'); [|discriminate];
       injection E3 as <-; eauto|]|]);
  (destruct (currentSrc video) as [cs|]; [|discriminate];
   destruct (nonempty cs && isValidVideoURL cs); [|discriminate];
   intros [= <-]; eauto).
Qed.

(** X5. When the DOM-element strategy finds a video, the
    extraction call returns it as it is: the result carries the URL and the
    type only, without identifier, title, duration, quality-tier URLs or
    metadata, whatever the markup of the page holds. *)
Theorem dom_result_has_no_metadata
    (Parse : str -> url.ParseError + url.URL) (browser : str -> navigation)
    (threadsURL normalizedURL : str) (page : Page) (r : ExtractResponse) :
  normalizeURL Parse threadsURL = Ok normalizedURL ->
  browser normalizedURL = Rendered page ->
  extractFromDOMElements page "video" = Some r ->
  extractMediaURL Parse browser threadsURL = Ok r /\
  r = plain_response (MediaURL r) "video" /\
  VideoID r = [] /\ Title r = [] /\ Duration r = 0%Z /\
  VideoUrls r = ∅ /\ Metadata r = ∅.
Proof.
  intros Hnorm Hpage Hdom. split.
  - unfold extractMediaURL. now rewrite Hnorm, Hpage, Hdom.
  - assert (Hplain : exists url, r = plain_response url "video").
    { revert Hdom. unfold extractFromDOMElements.
      rewrite bool_decide_eq_true_2 by reflexivity. intros H.
      apply first_some_found in H as [selector [_ H]].
      destruct (Elements page selector) as [videoElements|]; [|discriminate].
      apply first_some_found in H as [video [_ H]].
      now apply (probe_video_element_plain video). }
    destruct Hplain as [url ->]. now repeat split.
Qed.

Lemma dom_result_has_no_metadata_witness :
  let src : str := "https://video.example/clip.mp4" in
  let r := plain_response src "video" in
  extractMediaURL url.Parse (fun _ => Rendered (page_of_video src)) alice_post = Ok r /\
  VideoUrls r = ∅ /\ Metadata r = ∅.
Proof.
  cbv zeta.
  destruct (dom_result_has_no_metadata url.Parse
              (fun _ => Rendered (page_of_video "https://video.example/clip.mp4"))
              alice_post alice_post (page_of_video "https://video.example/clip.mp4")
              (plain_response "https://video.example/clip.mp4" "video"))
    as [Hr [_ [_ [_ [_ [Hu Hm]]]]]].
  - vm_compute. reflexivity.
  - reflexivity.
  - vm_compute. reflexivity.
  - now split.
Defined.

(** ** The meta-tag strategy *)

Lemma meta_selectors_probed (selector : str) :
  In selector MetaTags.videoSelectors -> In selector videoIndicators.
Proof. intros H. repeat (destruct H as [<- | H]; [simpl; tauto|]). destruct H. Qed.

(** X6. A result of the meta-tag strategy is the content of one
    of its meta selectors and passes the predicate of its type: the video
    predicate under the label video, the image predicate under any other
    label; it carries no metadata.  A video it returns whose URL contains
    video or .mp4 is on a page the classifier labels video. *)
Theorem meta_tag_strategy_result (page : Page) (pageType : str) (r : ExtractResponse) :
  extractFromMetaTags page pageType = Some r ->
  r = plain_response (MediaURL r) (MediaType r) /\
  (pageType = ("video" : str) ->
   MediaType r = ("video" : str) /\ isValidVideoURL (MediaURL r) = true /\
   (exists selector, In selector MetaTags.videoSelectors /\
                     meta_content page selector = Some (MediaURL r)) /\
   (strings.Contains (MediaURL r) "video" || strings.Contains (MediaURL r) ".mp4" = true ->
    analyzePageContent page = ("video" : str))) /\
  (pageType <> ("video" : str) ->
   MediaType r = ("image" : str) /\ isValidImageURL (MediaURL r) = true /\
   isValidVideoURL (MediaURL r) = false /\
   exists selector, In selector MetaTags.imageSelectors /\
                    meta_content page selector = Some (MediaURL r)).
Proof.
  unfold extractFromMetaTags. destruct (bool_decide (pageType = ("video" : str))) eqn:El.
  - apply bool_decide_eq_true in El. intros H.
    apply first_some_found in H as [selector [Hin H]].
    destruct (meta_content page selector) as [url|] eqn:Ec; [|discriminate].
    destruct (isValidVideoURL url) eqn:Ev; [|discriminate].
    injection H as <-. cbn [MediaURL MediaType plain_response]. split; [reflexivity|]. split; [|intros Hn; contradiction].
    intros _. repeat split; try assumption; [eauto|].
    intros Hword. rewrite analyzePageContent_video.
    replace (meta_signals_video page) with true; [reflexivity|].
    symmetry. unfold meta_signals_video.
    apply (existsb_In _ _ selector (meta_selectors_probed selector Hin)).
    revert Ec. unfold meta_content.
    destruct (Element page selector) as [meta|]; [|discriminate].
    destruct (Attribute meta "content") as [content|]; [|discriminate].
    destruct (nonempty content); [|discriminate].
    now intros [= ->].
  - apply bool_decide_eq_false in El. intros H.
    apply first_some_found in H as [selector [Hin H]].
    destruct (meta_content page selector) as [url|] eqn:Ec; [|discriminate].
    destruct (isValidImageURL url && negb (isValidVideoURL url)) eqn:Ev; [|discriminate].
    injection H as <-. cbn [MediaURL MediaType plain_response]. split; [reflexivity|]. split; [intros Hn; contradiction|].
    intros _. apply andb_true_iff in Ev as [Ei Ev]. apply negb_true_iff in Ev.
    repeat split; try assumption. eauto.
Qed.

Lemma meta_tag_strategy_result_witness :
  let url : str := "https://video.example/clip.mp4" in
  extractFromMetaTags (page_of_meta url) "video" = Some (plain_response url "video") /\
  analyzePageContent (page_of_meta url) = ("video" : str).
Proof.
  cbv zeta.
  assert (H : extractFromMetaTags (page_of_meta "https://video.example/clip.mp4") "video" =
              Some (plain_response "https://video.example/clip.mp4" "video"))
    by (vm_compute; reflexivity).
  split; [exact H|].
  destruct (meta_tag_strategy_result _ _ _ H) as [_ [Hv _]].
  destruct (Hv eq_refl) as [_ [_ [_ Hc]]]. apply Hc. vm_compute. reflexivity.
Defined.

(** ** The fallback strategy *)

Lemma valid_image_not_excluded (url pattern : str) :
  In pattern excludePatterns -> isValidImageURL url = true ->
  strings.Contains url pattern = false.
Proof.
  intros Hin Hv. destruct (strings.Contains url pattern) eqn:E; [|reflexivity].
  rewrite (excluded_not_image url pattern Hin E) in Hv. discriminate.
Qed.

Lemma valid_image_not_mp4 (url : str) :
  isValidImageURL url = true -> strings.Contains url ".mp4" = false.
Proof.
  rewrite isValidImageURL_unfold. destruct (strings.Contains url ".mp4"); [discriminate|reflexivity].
Qed.

(** X7. The fallback strategy is more lenient than the
    image branch of the DOM-element strategy on the two CDN hosts it knows:
    when that branch returns an image whose URL contains cdninstagram.com or
    fbcdn.net, the fallback under the label image returns an image of the
    page too.  (An image that the strict branch accepts for the word scontent
    alone is not covered.) *)
Theorem fallback_is_more_lenient (page : Page) (pageType : str) (r : ExtractResponse) :
  pageType <> ("video" : str) ->
  extractFromDOMElements page pageType = Some r ->
  strings.Contains (MediaURL r) "cdninstagram.com" ||
  strings.Contains (MediaURL r) "fbcdn.net" = true ->
  exists r' imgs img,
    fallbackExtraction page "image" = Some r' /\ MediaType r' = ("image" : str) /\
    Elements page "img" = Some imgs /\ In img imgs /\
    Attribute img "src" = Some (MediaURL r').
Proof.
  intros Hne Hdom Hhost.
  destruct (dom_image_strategy_valid page pageType r Hne Hdom) as [_ Hvalid].
  assert (Himgs : exists imgs, Elements page "img" = Some imgs).
  { revert Hdom. unfold extractFromDOMElements. rewrite bool_decide_eq_false_2 by exact Hne.
    destruct (Elements page "img") as [imgs|]; [eauto|discriminate]. }
  destruct Himgs as [imgs Himgs].
  destruct (dom_image_source page pageType imgs r Hne Himgs Hdom) as [img [Hin Hsrc]].
  unfold fallbackExtraction. rewrite bool_decide_eq_true_2 by reflexivity. rewrite Himgs.
  set (f := fun img : DOMElement => match src_of img with Some _ => _ | None => _ end).
  destruct (first_some_in f imgs img (plain_response (MediaURL r) "image") Hin) as [r' Hr'].
  { unfold f, src_of. rewrite Hsrc, (valid_image_nonempty _ Hvalid), Hhost.
    rewrite !(valid_image_not_excluded (MediaURL r)) by (assumption || (simpl; tauto)).
    now rewrite (valid_image_not_mp4 _ Hvalid). }
  exists r', imgs. pose proof Hr' as Hfound.
  apply first_some_found in Hfound as [img' [Hin' Hf]].
  exists img'. split; [exact Hr'|]. revert Hf. unfold f, src_of.
  destruct (Attribute img' "src") as [u|]; [|discriminate].
  destruct (nonempty u); [|discriminate].
  match goal with |- context [if ?b then _ else _] => destruct b end; [|discriminate].
  intros [= <-]. now repeat split.
Qed.

Lemma fallback_is_more_lenient_witness :
  exists r', fallbackExtraction image_post_page "image" = Some r' /\
             MediaType r' = ("image" : str).
Proof.
  destruct (fallback_is_more_lenient image_post_page "image"
              (plain_response image_post_src "image"))
    as [r' [imgs [img [Hr [Ht _]]]]].
  - discriminate.
  - vm_compute. reflexivity.
  - vm_compute. reflexivity.
  - exists r'. now split.
Defined.



(** ** The decision of the video predicate *)

Lemma Contains_word (url word part : str) :
  strings.Contains word part = true ->
  strings.Contains url word = true -> strings.Contains url part = true.
Proof. intros Hp Hw. exact (Contains_trans url word part Hw Hp). Qed.

(** X9. The video predicate decides as follows: it refuses a
    URL that contains .jpg, .jpeg, .png, .webp or .gif, and accepts any other
    URL that contains a video suffix, or video-, or scontent-video, or
    cdninstagram.com, or one of threads.net, fbcdn.net, scontent together
    with one of video, playable, stream, media.  Its other checks (the hosts
    video.fbcdn.net and video.xx.fbcdn.net, the Facebook-CDN check, the
    keywords .mp4, .webm, .mov) never change the answer. *)
Theorem video_predicate_decision (url : str) :
  isValidVideoURL url =
  negb (has_refused_suffix url) &&
  (has_video_suffix url ||
   strings.Contains url "video-" || strings.Contains url "scontent-video" ||
   strings.Contains url "cdninstagram.com" ||
   (strings.Contains url "threads.net" || strings.Contains url "fbcdn.net" ||
    strings.Contains url "scontent") &&
   (strings.Contains url "video" || strings.Contains url "playable" ||
    strings.Contains url "stream" || strings.Contains url "media")).
Proof.
  destruct url as [|c url]; [reflexivity|].
  unfold isValidVideoURL, has_refused_suffix, has_video_suffix.
  cbv beta iota. cbn [existsb facebookVideoCDNs videoKeywords].
  remember (c :: url) as u eqn:Hu. clear Hu c url.
  pose proof (Contains_word u "video.fbcdn.net" "video" eq_refl) as Hvf1.
  pose proof (Contains_word u "video.fbcdn.net" "fbcdn.net" eq_refl) as Hvf2.
  pose proof (Contains_word u "video.xx.fbcdn.net" "video" eq_refl) as Hvx1.
  pose proof (Contains_word u "video.xx.fbcdn.net" "fbcdn.net" eq_refl) as Hvx2.
  destruct (strings.Contains u ".jpg"); [reflexivity|].
  destruct (strings.Contains u ".jpeg"); [reflexivity|].
  destruct (strings.Contains u ".png"); [reflexivity|].
  destruct (strings.Contains u ".webp"); [reflexivity|].
  destruct (strings.Contains u ".gif"); [reflexivity|].
  destruct (strings.Contains u ".mp4"); [reflexivity|].
  destruct (strings.Contains u ".webm"); [reflexivity|].
  destruct (strings.Contains u ".mov"); [reflexivity|].
  destruct (strings.Contains u ".m4v"); [reflexivity|].
  destruct (strings.Contains u ".avi"); [reflexivity|].
  destruct (strings.Contains u ".mkv"); [reflexivity|].
  cbn [orb andb negb].
  destruct (strings.Contains u "video.fbcdn.net").
  { rewrite Hvf1, Hvf2 by reflexivity. cbn [orb andb]. now rewrite !orb_true_r. }
  destruct (strings.Contains u "video.xx.fbcdn.net").
  { rewrite Hvx1, Hvx2 by reflexivity. cbn [orb andb]. now rewrite !orb_true_r. }
  clear Hvf1 Hvf2 Hvx1 Hvx2.
  destruct (strings.Contains u "scontent-video"), (strings.Contains u "video-"),
    (strings.Contains u "cdninstagram.com"), (strings.Contains u "fbcdn.net"),
    (strings.Contains u "scontent"), (strings.Contains u "video"),
    (strings.Contains u "threads.net"), (strings.Contains u "playable"),
    (strings.Contains u "stream"), (strings.Contains u "media"); reflexivity.
Qed.

(** ** The HTTP handlers *)


Section HandlerProperties.
Variable Parse : str -> url.ParseError + url.URL.
Variable browser : str -> navigation.
Variable Decode : str -> option ExtractRequest.

End HandlerProperties.

Section DownloadProperties.
(** [client.Get] *)
Variable Get : str -> option http.Response.

End DownloadProperties.

(** ** The addresses the normalizer accepts *)

Lemma take_skip_run (c : ascii -> bool) (s : str) : s = take_run c s ++ skip_run c s.
Proof.
  induction s as [|x s IH]; simpl; [reflexivity|].
  destruct (c x); simpl; [now rewrite <- IH | reflexivity].
Qed.

Lemma take_run_forallb (c : ascii -> bool) (s : str) : forallb c (take_run c s) = true.
Proof.
  induction s as [|x s IH]; simpl; [reflexivity|].
  destruct (c x) eqn:E; simpl; [now rewrite E | reflexivity].
Qed.

Lemma after_post_path_shape (path rest : str) :
  after_post_path path = Some rest ->
  exists handle id,
    path = ("/@" : str) ++ handle ++ ("/post/" : str) ++ id ++ rest /\
    handle <> [] /\ forallb handle_char handle = true /\
    id <> [] /\ forallb post_id_char id = true.
Proof.
  unfold after_post_path.
  destruct (strings.HasPrefix path "/@") eqn:E1; [|discriminate].
  apply HasPrefix_skipn in E1. change (length ("/@" : str)) with 2 in E1.
  destruct (skipn 2 path) as [|x s] eqn:E2; [discriminate|].
  destruct (handle_char x) eqn:Ex; [|discriminate].
  destruct (strings.HasPrefix (skip_run handle_char s) "/post/") eqn:E3; [|discriminate].
  apply HasPrefix_skipn in E3. change (length ("/post/" : str)) with 6 in E3.
  destruct (skipn 6 (skip_run handle_char s)) as [|y t] eqn:E4; [discriminate|].
  destruct (post_id_char y) eqn:Ey; [|discriminate].
  intros [= <-].
  exists (x :: take_run handle_char s), (y :: take_run post_id_char t).
  split; [|split; [discriminate|split; [|split; [discriminate|]]]].
  - rewrite E1. cbn [app list_ascii_of_string]. do 3 f_equal.
    transitivity (take_run handle_char s ++ skip_run handle_char s); [apply take_skip_run|].
    f_equal. rewrite E3. cbn [app list_ascii_of_string]. do 7 f_equal.
    apply take_skip_run.
  - simpl. now rewrite Ex, take_run_forallb.
  - simpl. now rewrite Ey, take_run_forallb.
Qed.

(** X12. Whatever the parser, an address the normalizer
    returns is https://www.threads.net followed by the path of the input,
    and reads https://www.threads.net/@handle/post/id, the handle a
    non-empty run of word bytes, dots and hyphens and the id a non-empty run
    of word bytes and hyphens, followed by what the path has after them. *)
Theorem normalizer_output_shape
    (Parse : str -> url.ParseError + url.URL) (inputURL normalizedURL : str) :
  normalizeURL Parse inputURL = Ok normalizedURL ->
  exists parsedURL handle id rest,
    Parse inputURL = inr parsedURL /\
    normalizedURL = ("https://www.threads.net" : str) ++ url.Path parsedURL /\
    normalizedURL =
      ("https://www.threads.net/@" : str) ++ handle ++ ("/post/" : str) ++ id ++ rest /\
    handle <> [] /\ forallb handle_char handle = true /\
    id <> [] /\ forallb post_id_char id = true /\
    strings.HasPrefix normalizedURL "https://www.threads.net/@" = true.
Proof.
  unfold normalizeURL.
  destruct (Parse inputURL) as [e|parsedURL]; [discriminate|].
  destruct (existsb _ validDomains); [|discriminate]. cbn [negb].
  rewrite MatchString_threadsPattern.
  destruct (after_post_path (url.Path parsedURL)) as [rest|] eqn:E; [|discriminate].
  cbn [negb]. intros [= <-].
  destruct (after_post_path_shape _ _ E) as [handle [id [Hp [Hh [Hhc [Hi Hic]]]]]].
  exists parsedURL, handle, id, rest.
  repeat split; try assumption.
  - rewrite Hp. reflexivity.
  - rewrite Hp. reflexivity.
Qed.

Lemma normalizer_output_shape_witness :
  strings.HasPrefix alice_post "https://www.threads.net/@" = true.
Proof.
  destruct (normalizer_output_shape url.Parse
              "http://threads.com/@alice/post/Cabc123?igshid=1" alice_post)
    as [parsedURL [handle [id [rest [_ [_ [_ [_ [_ [_ [_ H]]]]]]]]]]].
  - vm_compute. reflexivity.
  - exact H.
Defined.

Lemma normalizer_output_prefix
    (Parse : str -> url.ParseError + url.URL) (inputURL normalizedURL : str) :
  normalizeURL Parse inputURL = Ok normalizedURL ->
  strings.HasPrefix normalizedURL "https://www.threads.net/@" = true.
Proof.
  unfold normalizeURL.
  destruct (Parse inputURL) as [e|parsedURL]; [discriminate|].
  destruct (existsb _ validDomains); [|discriminate]. cbn [negb].
  rewrite MatchString_threadsPattern.
  destruct (after_post_path (url.Path parsedURL)) as [rest|] eqn:E; [|discriminate].
  cbn [negb]. intros [= <-].
  destruct (after_post_path_shape _ _ E) as [handle [id [-> _]]]. reflexivity.
Qed.

(** X13. An extraction call asks the browser for no
    address but one that starts with https://www.threads.net/@: two browser
    sessions that answer alike on these addresses give the same outcome, for
    every input. *)
Theorem extraction_browses_threads_only
    (Parse : str -> url.ParseError + url.URL) (browser browser' : str -> navigation)
    (threadsURL : str) :
  (forall address, strings.HasPrefix address "https://www.threads.net/@" = true ->
                   browser address = browser' address) ->
  extractMediaURL Parse browser threadsURL = extractMediaURL Parse browser' threadsURL.
Proof.
  intros Hsame. unfold extractMediaURL.
  destruct (normalizeURL Parse threadsURL) as [normalizedURL|e] eqn:E; [|reflexivity].
  now rewrite (Hsame normalizedURL (normalizer_output_prefix Parse threadsURL normalizedURL E)).
Qed.

Lemma extraction_browses_threads_only_witness :
  extractMediaURL url.Parse
    (fun address =>
       if strings.HasPrefix address "https://www.threads.net/" then Rendered profile_page
       else Panicked) alice_post =
  extractMediaURL url.Parse (fun _ => Rendered profile_page) alice_post.
Proof.
  apply extraction_browses_threads_only.
  intros address H.
  replace (strings.HasPrefix address "https://www.threads.net/") with true; [reflexivity|].
  symmetry. apply HasPrefix_spec in H as [t ->]. reflexivity.
Defined.

(** ** Parsing the address of a post *)

Ltac by_byte c :=
  destruct c as [[] [] [] [] [] [] [] []]; vm_compute; first [congruence | intuition congruence].

Lemma scheme_byte_plain (c : ascii) : scheme_byte c = true -> plain_byte c = true.
Proof. by_byte c. Qed.

Lemma host_byte_plain (c : ascii) : host_byte c = true -> plain_byte c = true.
Proof. by_byte c. Qed.

Lemma letter_scheme_byte (c : ascii) : url.isLetter c = true -> scheme_byte c = true.
Proof. by_byte c. Qed.

Lemma host_byte_no (sep : ascii) :
  host_byte sep = false ->
  forall c, host_byte c = true -> negb (Ascii.eqb c sep) = true.
Proof.
  intros Hsep c Hc. destruct (Ascii.eqb c sep) eqn:E; [|reflexivity].
  apply Ascii.eqb_eq in E. congruence.
Qed.

Lemma host_byte_unreserved (c : ascii) :
  host_byte c = true ->
  Ascii.eqb c "%" = false /\ (nat_of_ascii c <? 128) && url.shouldEscapeHost c = false.
Proof. by_byte c. Qed.

Lemma Cut_app (a b : str) (sep : ascii) :
  forallb (fun c => negb (Ascii.eqb c sep)) a = true ->
  strings.Cut (a ++ b) sep =
  let '(before, after, found) := strings.Cut b sep in (a ++ before, after, found).
Proof.
  induction a as [|c a IH]; simpl.
  - intros _. now destruct (strings.Cut b sep) as [[? ?] ?].
  - rewrite andb_true_iff, negb_true_iff. intros [-> H]. rewrite (IH H).
    now destruct (strings.Cut b sep) as [[? ?] ?].
Qed.

Lemma Cut_at (sep : ascii) (s : str) : strings.Cut (sep :: s) sep = ([], s, true).
Proof. simpl. now rewrite Ascii.eqb_refl. Qed.

Lemma CTL_app (a b : str) :
  url.stringContainsCTLByte (a ++ b) =
  url.stringContainsCTLByte a || url.stringContainsCTLByte b.
Proof. unfold url.stringContainsCTLByte. apply existsb_app. Qed.

Lemma plain_no_CTL (s : str) :
  forallb plain_byte s = true -> url.stringContainsCTLByte s = false.
Proof.
  induction s as [|c s IH]; simpl; [reflexivity|].
  rewrite andb_true_iff. intros [Hc Hs]. rewrite (IH Hs), orb_false_r.
  revert Hc. unfold plain_byte.
  destruct ((nat_of_ascii c <? 32) || (nat_of_ascii c =? 127)); [discriminate|reflexivity].
Qed.

Lemma getScheme_from_valid (rawURL seen scheme rest : str) :
  seen <> [] -> forallb scheme_byte scheme = true ->
  url.getScheme_from rawURL seen (scheme ++ (":" : str) ++ rest) =
  inr (rev seen ++ scheme, rest).
Proof.
  revert seen. induction scheme as [|c scheme IH]; intros seen Hseen Hs.
  - destruct seen; [contradiction|]. simpl. now rewrite app_nil_r.
  - simpl in Hs. apply andb_true_iff in Hs as [Hc Hs]. cbn [app url.getScheme_from].
    assert (Hrec : url.getScheme_from rawURL (c :: seen) (scheme ++ (":" : str) ++ rest) =
                   inr (rev seen ++ c :: scheme, rest)).
    { rewrite (IH (c :: seen)) by (discriminate || assumption).
      simpl. now rewrite <- app_assoc. }
    destruct (url.isLetter c) eqn:El; [exact Hrec|].
    unfold scheme_byte in Hc. rewrite El in Hc. cbn [orb] in Hc. rewrite Hc.
    destruct seen; [contradiction | exact Hrec].
Qed.

Lemma getScheme_valid (scheme rest : str) :
  valid_scheme scheme = true ->
  url.getScheme (scheme ++ (":" : str) ++ rest) = inr (scheme, rest).
Proof.
  destruct scheme as [|c scheme]; [discriminate|]. simpl valid_scheme.
  rewrite andb_true_iff. intros [Hc Hs]. unfold url.getScheme.
  cbn [app url.getScheme_from]. rewrite Hc.
  now rewrite (getScheme_from_valid _ [c] scheme rest) by (discriminate || assumption).
Qed.

Lemma fromLast_absent (sep : ascii) (s : str) :
  forallb (fun c => negb (Ascii.eqb c sep)) s = true -> url.fromLast sep s = None.
Proof.
  induction s as [|c s IH]; simpl; [reflexivity|].
  rewrite andb_true_iff, negb_true_iff. intros [-> H]. now rewrite (IH H).
Qed.

Lemma unescapeHost_plain (host : str) :
  forallb host_byte host = true -> url.unescapeHost host = inr host.
Proof.
  induction host as [|c host IH]; simpl; [reflexivity|].
  rewrite andb_true_iff. intros [Hc Hh].
  destruct (host_byte_unreserved c Hc) as [-> ->]. now rewrite (IH Hh).
Qed.

Lemma parseAuthority_host (host : str) :
  forallb host_byte host = true -> url.parseAuthority host = inr ([], host).
Proof.
  intros Hh. unfold url.parseAuthority.
  rewrite fromLast_absent
    by (apply (forallb_weaken host_byte); [exact (host_byte_no "@" eq_refl) | exact Hh]).
  unfold url.parseHost.
  replace (strings.HasPrefix host "[") with false.
  2:{ symmetry. destruct (strings.HasPrefix host "[") eqn:E; [|reflexivity].
      apply HasPrefix_spec in E as [t ->]. discriminate. }
  rewrite fromLast_absent
    by (apply (forallb_weaken host_byte); [exact (host_byte_no ":" eq_refl) | exact Hh]).
  now rewrite unescapeHost_plain.
Qed.

(** What [strings.Cut] at the fragment sign leaves of a tail the normalizer
    ignores: nothing, or a query that starts with the question mark. *)
Lemma ignored_tail_query (tail query fragment : str) (found : bool) :
  ignored_tail tail = true ->
  strings.Cut tail "#" = (query, fragment, found) ->
  url.stringContainsCTLByte query = false /\
  (query = [] \/ exists q, query = "?"%char :: q) /\
  (fragment = [] \/ exists f, url.unescape fragment = inr f).
Proof.
  destruct tail as [|c tail].
  - intros _ [= <- <- <-]. repeat split; auto.
  - unfold ignored_tail. intros H Hcut. rewrite Hcut in H.
    apply andb_true_iff in H as [Hc H]. apply andb_true_iff in H as [Hq Hf].
    apply negb_true_iff in Hq. split; [exact Hq|]. split.
    + revert Hcut. simpl. destruct (Ascii.eqb c "#") eqn:Eh.
      * intros [= <- _ _]. now left.
      * rewrite orb_false_r in Hc. apply Ascii.eqb_eq in Hc. subst c.
        destruct (strings.Cut tail "#") as [[before after] found'].
        intros [= <- _ _]. right. eauto.
    + destruct (url.unescape fragment); [discriminate|]. right. eauto.
Qed.

Lemma Parse_post_address (scheme host path tail : str) :
  valid_scheme scheme = true ->
  forallb host_byte host = true ->
  forallb plain_byte path = true ->
  ignored_tail tail = true ->
  exists parsedURL,
    url.Parse (scheme ++ ("://" : str) ++ host ++ ("/" : str) ++ path ++ tail) = inr parsedURL /\
    url.Host parsedURL = host /\ url.Path parsedURL = ("/" : str) ++ path.
Proof.
  intros Hscheme Hhost Hpath Htail.
  destruct (strings.Cut tail "#") as [[query fragment] found] eqn:Ecut.
  destruct (ignored_tail_query tail query fragment found Htail Ecut) as [Hctl [Hquery Hfrag]].
  assert (Hs : forallb scheme_byte scheme = true).
  { destruct scheme as [|c scheme]; [discriminate|]. simpl in Hscheme |- *.
    apply andb_true_iff in Hscheme as [Hc Hs]. now rewrite (letter_scheme_byte c Hc). }
  set (rest := ("//" : str) ++ host ++ ("/" : str) ++ path).
  assert (Hrest : forallb plain_byte rest = true).
  { unfold rest. rewrite !forallb_app. rewrite Hpath.
    rewrite (forallb_weaken host_byte plain_byte host host_byte_plain Hhost). reflexivity. }
  assert (Hinput : scheme ++ ("://" : str) ++ host ++ ("/" : str) ++ path ++ tail =
                   (scheme ++ (":" : str) ++ rest) ++ tail).
  { unfold rest. now rewrite <- !app_assoc. }
  rewrite Hinput. clear Hinput.
  assert (Hplain : forallb plain_byte (scheme ++ (":" : str) ++ rest) = true).
  { rewrite !forallb_app, Hrest.
    now rewrite (forallb_weaken scheme_byte plain_byte scheme scheme_byte_plain Hs). }
  unfold url.Parse.
  rewrite Cut_app by (apply (plain_no "#"); [reflexivity | exact Hplain]).
  rewrite Ecut. cbv beta iota.
  assert (Hparse : exists rawQuery,
            url.parse ((scheme ++ (":" : str) ++ rest) ++ query) =
            inr (url.mkURL (strings.ToLower scheme) [] [] host (("/" : str) ++ path)
                   rawQuery [])).
  { unfold url.parse.
    rewrite CTL_app, Hctl, (plain_no_CTL _ Hplain). cbn [orb].
    replace (strings.HasPrefix ((scheme ++ (":" : str) ++ rest) ++ query) "*") with false.
    2:{ symmetry.
        destruct (strings.HasPrefix ((scheme ++ (":" : str) ++ rest) ++ query) "*") eqn:E;
          [|reflexivity].
        apply HasPrefix_spec in E as [t Ht].
        destruct scheme as [|c scheme]; [discriminate|].
        injection Ht as -> _. discriminate. }
    cbn [andb]. rewrite <- !app_assoc.
    rewrite (getScheme_valid scheme (rest ++ query) Hscheme). cbv beta iota.
    assert (Hq : exists rawQuery, strings.Cut (rest ++ query) "?" = (rest, rawQuery, negb (Nat.eqb (length query) 0))).
    { rewrite Cut_app by (apply (plain_no "?"); [reflexivity | exact Hrest]).
      destruct Hquery as [-> | [q ->]].
      - exists []. simpl. now rewrite app_nil_r.
      - exists q. rewrite Cut_at. now rewrite app_nil_r. }
    destruct Hq as [rawQuery ->]. exists rawQuery. cbv beta iota zeta.
    replace (strings.HasPrefix rest "/") with true by reflexivity.
    replace (strings.HasPrefix rest "//") with true by reflexivity.
    cbn [negb andb].
    replace (length (strings.ToLower scheme) =? 0) with false.
    2:{ unfold strings.ToLower. rewrite length_map. now destruct scheme. }
    cbn [negb orb andb].
    change (skipn 2 rest) with (host ++ ("/" : str) ++ path).
    rewrite Cut_at_slash
      by (apply (forallb_weaken host_byte); [exact (host_byte_no "/" eq_refl) | exact Hhost]).
    cbv beta iota zeta.
    rewrite (parseAuthority_host host Hhost). cbv beta iota.
    rewrite unescape_plain; [reflexivity|].
    change (forallb (fun c => negb (Ascii.eqb c "%")) path = true).
    now apply plain_no. }
  destruct Hparse as [rawQuery ->].
  destruct Hfrag as [-> | [f Hf]].
  - eexists. split; [reflexivity|]. now split.
  - destruct fragment as [|c fragment].
    + eexists. split; [reflexivity|]. now split.
    + rewrite Hf. eexists. split; [reflexivity|]. now split.
Qed.

(** X14. Under any scheme, for any host name that contains
    threads.com or threads.net and any path of plain bytes that the post
    pattern accepts, the normalizer returns https://www.threads.net followed
    by the path: the scheme and the host are replaced, and a query and a
    fragment after the path are dropped. *)
Theorem normalizer_canonical_form (scheme host path tail : str) :
  valid_scheme scheme = true ->
  forallb host_byte host = true ->
  strings.Contains host "threads.com" || strings.Contains host "threads.net" = true ->
  forallb plain_byte path = true ->
  MatchString threadsPattern path = true ->
  ignored_tail tail = true ->
  normalizeURL url.Parse (scheme ++ ("://" : str) ++ host ++ path ++ tail) =
  Ok (("https://www.threads.net" : str) ++ path).
Proof.
  intros Hscheme Hhost Hdomain Hplain Hmatch Htail.
  assert (Hslash : exists p, path = ("/" : str) ++ p).
  { rewrite MatchString_threadsPattern in Hmatch.
    destruct (after_post_path path) as [rest|] eqn:E; [|discriminate].
    destruct (after_post_path_shape path rest E) as [handle [id [-> _]]]. eexists. reflexivity. }
  destruct Hslash as [p ->].
  assert (Hp : forallb plain_byte p = true) by exact Hplain.
  destruct (Parse_post_address scheme host p tail Hscheme Hhost Hp Htail)
    as [parsedURL [Hparse [Hh Hpath]]].
  rewrite <- ?app_assoc.
  rewrite (normalizer_path_check url.Parse _ parsedURL Hparse) by (now rewrite Hh).
  rewrite Hpath. rewrite MatchString_threadsPattern in Hmatch.
  now destruct (after_post_path (("/" : str) ++ p)).
Qed.

Lemma normalizer_canonical_form_witness :
  normalizeURL url.Parse "http://m.threads.com/@alice/post/Cabc123?igshid=abc#top" =
  Ok alice_post.
Proof.
  apply (normalizer_canonical_form "http" "m.threads.com" "/@alice/post/Cabc123"
           "?igshid=abc#top"); vm_compute; reflexivity.
Defined.

(** ** Addresses without an authority *)

Lemma Cut_before (s : str) (sep : ascii) :
  exists t, s = fst (fst (strings.Cut s sep)) ++ t.
Proof.
  induction s as [|c s [t IH]]; simpl; [now exists []|].
  destruct (Ascii.eqb c sep); [now exists (c :: s)|].
  destruct (strings.Cut s sep) as [[before after] found]. simpl in *.
  exists t. now rewrite <- IH.
Qed.

Lemma getScheme_from_rest (rawURL seen s scheme rest : str) :
  url.getScheme_from rawURL seen s = inr (scheme, rest) ->
  rest = rawURL \/ exists a, s = a ++ rest.
Proof.
  revert seen. induction s as [|c s IH]; intros seen; simpl.
  - intros [= _ <-]. now left.
  - destruct (url.isLetter c).
    { intros H. destruct (IH _ H) as [-> | [pre ->]]; [now left | right; now exists (c :: pre)]. }
    destruct (url.isDigit c || url.one_of "+-." c).
    { destruct seen; [intros [= _ <-]; now left|].
      intros H. destruct (IH _ H) as [-> | [pre ->]]; [now left | right; now exists (c :: pre)]. }
    destruct (Ascii.eqb c ":").
    { destruct seen; [discriminate|]. intros [= _ <-]. right. now exists [c]. }
    intros [= _ <-]. now left.
Qed.

Lemma no_slashes_prefix (s a b t : str) :
  strings.Contains s "//" = false -> s = a ++ b ++ t ->
  strings.HasPrefix b "//" = false.
Proof.
  intros Hs ->. destruct (strings.HasPrefix b "//") eqn:E; [|reflexivity].
  apply HasPrefix_spec in E as [t' ->].
  rewrite Contains_false in Hs. exfalso. apply (Hs a (t' ++ t)). now rewrite <- !app_assoc.
Qed.

Lemma parse_without_authority (u : str) (parsedURL : url.URL) :
  strings.Contains u "//" = false ->
  url.parse u = inr parsedURL -> url.Host parsedURL = [].
Proof.
  intros Hu. unfold url.parse.
  destruct (url.stringContainsCTLByte u); [discriminate|].
  destruct (strings.HasPrefix u "*" && Nat.eqb (length u) 1); [now intros [= <-]|].
  destruct (url.getScheme u) as [e|[scheme rest]] eqn:Es; [discriminate|].
  pose proof (Cut_before rest "?") as [t Hcut].
  destruct (strings.Cut rest "?") as [[rest' rawQuery] found]. simpl in Hcut.
  cbv beta iota zeta.
  destruct (negb (strings.HasPrefix rest' "/") && negb (Nat.eqb (length (strings.ToLower scheme)) 0));
    [now intros [= <-]|].
  match goal with |- context [if ?b then inl url.FirstPathSegmentColon else _] => destruct b end;
    [discriminate|].
  assert (Hno : strings.HasPrefix rest' "//" = false).
  { unfold url.getScheme in Es. apply getScheme_from_rest in Es as [-> | [a ->]].
    - apply (no_slashes_prefix u [] rest' t Hu). now rewrite Hcut.
    - apply (no_slashes_prefix _ a rest' t Hu). now rewrite Hcut. }
  rewrite Hno, andb_false_r. cbv beta iota.
  destruct (url.unescape rest'); [discriminate|]. now intros [= <-].
Qed.

(** X15. An address that nowhere has two slashes in a row,
    like one typed without its scheme, is never accepted: the normalizer
    fails on it, for an invalid URL or for an untrusted domain, and the
    extraction call fails the same way without opening a page. *)
Theorem address_without_slashes_rejected (browser : str -> navigation) (inputURL : str) :
  strings.Contains inputURL "//" = false ->
  (normalizeURL url.Parse inputURL = Err InvalidURL /\
   extractMediaURL url.Parse browser inputURL = Err InvalidURL) \/
  (normalizeURL url.Parse inputURL = Err UntrustedDomain /\
   extractMediaURL url.Parse browser inputURL = Err UntrustedDomain).
Proof.
  intros Hu.
  assert (H : normalizeURL url.Parse inputURL = Err InvalidURL \/
              normalizeURL url.Parse inputURL = Err UntrustedDomain).
  { unfold normalizeURL.
    destruct (url.Parse inputURL) as [e|parsedURL] eqn:Ep; [now left|]. right.
    assert (Hhost : url.Host parsedURL = []).
    { revert Ep. unfold url.Parse.
      pose proof (Cut_before inputURL "#") as [t Hcut].
      destruct (strings.Cut inputURL "#") as [[u frag] found]. simpl in Hcut.
      assert (Hno : strings.Contains u "//" = false).
      { destruct (strings.Contains u "//") eqn:E; [|reflexivity].
        rewrite <- Hu, Hcut. symmetry. now apply Contains_app_l. }
      destruct (url.parse u) as [e|parsed] eqn:Eparse; [discriminate|].
      pose proof (parse_without_authority u parsed Hno Eparse) as Hh.
      destruct frag as [|c frag]; [now intros [= <-]|].
      destruct (url.unescape (c :: frag)); [discriminate|]. now intros [= <-]. }
    now rewrite Hhost. }
  unfold extractMediaURL. destruct H as [H | H]; rewrite H; [left | right]; now split.
Qed.

Lemma address_without_slashes_rejected_witness :
  normalizeURL url.Parse "www.threads.net/@alice/post/Cabc123" = Err UntrustedDomain.
Proof.
  destruct (address_without_slashes_rejected (fun _ => Panicked)
              "www.threads.net/@alice/post/Cabc123") as [[H _] | [H _]].
  - vm_compute. reflexivity.
  - revert H. vm_compute. discriminate.
  - exact H.
Defined.

(** ** What a match holds *)

Section Continuations.
Context {A : Type}.

(** A repetition hands over to its continuation after a run of bytes of the
    class. *)
Lemma star_some (c : ascii -> bool) (k : str -> option A) (s : str) (a : A) :
  star c s k = Some a ->
  exists n, forallb c (firstn n s) = true /\ k (skipn n s) = Some a.
Proof.
  induction s as [|x s IH]; simpl.
  - intros H. now exists 0.
  - destruct (c x) eqn:Ex; [|intros H; now exists 0].
    destruct (star c s k) as [a'|] eqn:E.
    + intros [= ->]. destruct (IH eq_refl) as [n [Hn Hk]].
      exists (S n). simpl. now rewrite Ex.
    + intros H. now exists 0.
Qed.

Lemma lazy_star_some (c : ascii -> bool) (k : str -> option A) (s : str) (a : A) :
  lazy_star c s k = Some a ->
  exists n, forallb c (firstn n s) = true /\ k (skipn n s) = Some a.
Proof.
  induction s as [|x s IH]; simpl.
  - destruct (k []) eqn:E; [intros [= ->]; now exists 0 | discriminate].
  - destruct (k (x :: s)) eqn:E; [intros [= ->]; now exists 0|].
    destruct (c x) eqn:Ex; [|discriminate].
    intros H. destruct (IH H) as [n [Hn Hk]]. exists (S n). simpl. now rewrite Ex.
Qed.

(** A match of [r] ends in its continuation, which gets the captures made
    so far and the ones [r] has added, none if [r] has no group. *)
Lemma exec_some (r : re) (n : nat) (text s : str) (caps : captures)
    (k : str -> captures -> option A) (a : A) :
  exec r n text s caps k = Some a ->
  exists s' new, k s' (new ++ caps) = Some a /\ (ngroups r = 0 -> new = []).
Proof.
  revert n s caps k. induction r as [l|c|c|c|c|r IH|r1 IH1 r2 IH2|r1 IH1 r2 IH2|r IH|];
    intros n s caps k; cbn [exec ngroups].
  - destruct (strings.HasPrefix s l); [|discriminate]. intros H. now exists (skipn (length l) s), [].
  - destruct s as [|x s]; [discriminate|]. destruct (c x); [|discriminate].
    intros H. now exists s, [].
  - intros H. apply star_some in H as [m [_ H]]. now exists (skipn m s), [].
  - destruct s as [|x s]; [discriminate|]. destruct (c x); [|discriminate].
    intros H. apply star_some in H as [m [_ H]]. now exists (skipn m s), [].
  - intros H. apply lazy_star_some in H as [m [_ H]]. now exists (skipn m s), [].
  - destruct (exec r n text s caps k) as [a'|] eqn:E.
    + intros [= ->]. exact (IH _ _ _ _ E).
    + intros H. now exists s, [].
  - destruct (exec r1 n text s caps k) as [a'|] eqn:E.
    + intros [= ->]. destruct (IH1 _ _ _ _ E) as [s' [new [Hk Hn]]].
      exists s', new. split; [exact Hk|]. intros H0. apply Hn. lia.
    + intros H. destruct (IH2 _ _ _ _ H) as [s' [new [Hk Hn]]].
      exists s', new. split; [exact Hk|]. intros H0. apply Hn. lia.
  - intros H. destruct (IH1 _ _ _ _ H) as [s1 [new1 [H1 Hn1]]].
    destruct (IH2 _ _ _ _ H1) as [s2 [new2 [H2 Hn2]]].
    exists s2, (new2 ++ new1). split; [now rewrite <- app_assoc|].
    intros H0. rewrite Hn1, Hn2 by lia. reflexivity.
  - intros H. destruct (IH _ _ _ _ H) as [s' [new [Hk _]]].
    exists s', ((n, firstn (length s - length s') s) :: new). split; [exact Hk|discriminate].
  - destruct (length s =? length text); [|discriminate]. intros H. now exists s, [].
Qed.
End Continuations.

(** A match lists the matched text and one text for each group. *)
Lemma match_here_length (r : re) (text s : str) (m : list str) :
  match_here r text s = Some m -> length m = S (ngroups r).
Proof.
  unfold match_here. intros H. apply exec_some in H as [s' [new [H _]]].
  injection H as <-. simpl. now rewrite length_map, length_seq.
Qed.

Lemma search_some (r : re) (text s : str) (m : list str) :
  search r text s = Some m -> exists s', match_here r text s' = Some m.
Proof.
  induction s as [|x s IH]; simpl.
  - destruct (match_here r text []) eqn:E; [intros [= ->]; eauto | discriminate].
  - destruct (match_here r text (x :: s)) eqn:E; [intros [= ->]; eauto | exact IH].
Qed.

Lemma find_all_some (r : re) (text : str) (skip : nat) (s : str) (m : list str) :
  In m (find_all r text skip s) -> exists s', match_here r text s' = Some m.
Proof.
  revert skip. induction s as [|x s IH]; intros skip.
  - destruct skip; simpl; [|intros []].
    destruct (match_here r text []) eqn:E; [|intros []].
    intros [<- | []]. eauto.
  - destruct skip; simpl; [|apply IH].
    destruct (match_here r text (x :: s)) eqn:E; [|apply IH].
    intros [<- | H]; [eauto | exact (IH _ H)].
Qed.

Lemma video_capture_needs_group (html : str) (pattern : re) :
  ngroups pattern = 0 -> video_capture html pattern = None.
Proof.
  intros Hn. unfold video_capture. apply first_some_none. intros m Hin.
  apply find_all_some in Hin as [s' Hm]. apply match_here_length in Hm.
  rewrite Hn in Hm. now destruct m as [|whole [|g m]].
Qed.

(** X16. The three CDN patterns of the source-markup
    strategy have no capture group, and the strategy reads the first group
    of a match only: whatever the markup, they give no URL, and the video
    the strategy finds is the one the other thirteen patterns give. *)
Theorem cdn_video_patterns_find_nothing (html : str) :
  video_capture html (cdn_mp4 (Lit "video" · Star url_char · Lit "fbcdn.net")) = None /\
  video_capture html (cdn_mp4 (Lit "scontent")) = None /\
  video_capture html (cdn_mp4 (Lit "cdninstagram.com")) = None /\
  find_video_in_source html =
  first_some (video_capture html) (firstn 5 videoPatterns ++ skipn 8 videoPatterns).
Proof.
  repeat split; try (apply video_capture_needs_group; reflexivity).
  change (find_video_in_source html) with (first_some (video_capture html) videoPatterns).
  unfold videoPatterns. cbn [first_some firstn skipn app].
  rewrite (video_capture_needs_group html
             (cdn_mp4 (Lit "video" · Star url_char · Lit "fbcdn.net"))) by reflexivity.
  rewrite (video_capture_needs_group html (cdn_mp4 (Lit "scontent"))) by reflexivity.
  rewrite (video_capture_needs_group html (cdn_mp4 (Lit "cdninstagram.com"))) by reflexivity.
  reflexivity.
Qed.

Lemma firstn_skipn_length (n : nat) (s : str) :
  firstn (length s - length (skipn n s)) s = firstn n s.
Proof.
  rewrite length_skipn.
  destruct (Nat.le_gt_cases n (length s)) as [H | H].
  - f_equal. lia.
  - replace (length s - (length s - n)) with (length s) by lia.
    now rewrite !firstn_all2 by lia.
Qed.

Lemma HasPrefix_firstn (s l : str) :
  strings.HasPrefix s l = true -> firstn (length l) s = l.
Proof.
  intros H. apply HasPrefix_spec in H as [t ->].
  now rewrite firstn_app, Nat.sub_diag, firstn_all, app_nil_r.
Qed.

(** The only group of a CDN image pattern is the file extension. *)
Lemma cdn_image_here (host text s : str) (m : list str) :
  match_here (cdn_image host) text s = Some m ->
  exists whole extension,
    m = [whole; extension] /\
    In extension [("jpg" : str); ("jpeg" : str); ("png" : str); ("webp" : str)].
Proof.
  unfold match_here, cdn_image.
  change (ngroups _) with 1. cbn [seq map].
  set (prefix := (Lit "https://" · Star url_char · Lit host · Star url_char · Lit ".")%re).
  cbn [exec]. fold prefix.
  intros H. apply exec_some in H as [s1 [new [H Hnew]]].
  rewrite (Hnew eq_refl) in H. cbn [app] in H. clear Hnew new.
  unfold image_extension in H. cbn [exec ngroups Nat.add] in H.
  assert (Hext : forall l : str,
             strings.HasPrefix s1 l = true ->
             firstn (length s1 - length (skipn (length l) s1)) s1 = l).
  { intros l Hl. now rewrite firstn_skipn_length, HasPrefix_firstn. }
  repeat match type of H with
         | context [strings.HasPrefix s1 ?l] =>
             let E := fresh "E" in
             destruct (strings.HasPrefix s1 l) eqn:E;
             [rewrite (Hext l E) in H|]
         end;
  repeat match type of H with
         | match ?x with Some a => Some a | None => _ end = _ =>
             let E := fresh "E" in destruct x eqn:E; [injection H as ->|]
         end;
  try discriminate;
  repeat match goal with
         | E : star _ _ _ = Some _ |- _ =>
             apply star_some in E as [? [_ E]]; injection E as <-
         end;
  try (apply star_some in H as [? [_ H]]; injection H as <-);
  eexists _, _; (split; [reflexivity|]); cbn; tauto.
Qed.

Lemma image_capture_cdn (html host : str) : image_capture html (cdn_image host) = None.
Proof.
  unfold image_capture, FindStringSubmatch.
  destruct (search (cdn_image host) html html) as [m|] eqn:E; [|reflexivity].
  apply search_some in E as [s' E]. apply cdn_image_here in E as [whole [ext [-> Hext]]].
  destruct Hext as [<- | [<- | [<- | [<- | []]]]]; reflexivity.
Qed.

(** X17. The only group of the three CDN patterns for
    images is the file extension, so what the source-markup strategy reads
    from a match of theirs is jpg, jpeg, png or webp, which is no image URL:
    whatever the markup, these patterns give no result, and an image the
    strategy returns comes from one of its first three patterns. *)
Theorem cdn_image_patterns_find_nothing (page : Page) (html : str) :
  image_capture html (cdn_image "cdninstagram.com") = None /\
  image_capture html (cdn_image "fbcdn.net") = None /\
  image_capture html (cdn_image "scontent") = None /\
  (HTML page = Some html -> find_video_in_source html = None ->
   extractFromSourceCode page "image" =
   first_some (image_capture html) (firstn 3 imagePatterns)).
Proof.
  repeat split; try apply image_capture_cdn.
  intros Hhtml Hvideo. unfold extractFromSourceCode. rewrite Hhtml, Hvideo.
  rewrite bool_decide_eq_true_2 by reflexivity.
  change (first_some _ imagePatterns) with (first_some (image_capture html) imagePatterns).
  unfold imagePatterns. cbn [first_some firstn].
  rewrite !image_capture_cdn.
  repeat match goal with |- context [match ?x with Some y => Some y | None => _ end] =>
           destruct x end; reflexivity.
Qed.

(** ** The fields of the metadata extractor *)

Lemma take_run_length (c : ascii -> bool) (s : str) :
  firstn (length s - length (skip_run c s)) s = take_run c s.
Proof.
  rewrite (take_skip_run c s) at 1 3. rewrite length_app.
  replace (length (take_run c s) + length (skip_run c s) - length (skip_run c s))
    with (length (take_run c s)) by lia.
  now rewrite firstn_app, Nat.sub_diag, firstn_all, app_nil_r.
Qed.

Lemma not_quote_no_quote (x : ascii) (rest : str) :
  not_quote x = true -> strings.HasPrefix (x :: rest) (Q "`") = false.
Proof.
  intros Hx. destruct (strings.HasPrefix (x :: rest) (Q "`")) eqn:E; [|reflexivity].
  apply HasPrefix_spec in E as [t Ht]. injection Ht as -> _. discriminate.
Qed.

(** A match of a field pattern at a given place: the opening of the field,
    the longest run of bytes other than the quote, which must not be empty,
    and the closing quote. *)
Lemma field_pattern_here (name text s : str) :
  match_here (field_pattern name) text s =
  if strings.HasPrefix s (field_opening name) then
    match skipn (length (field_opening name)) s with
    | x :: s' =>
        if not_quote x && strings.HasPrefix (skip_run not_quote s') (Q "`")
        then Some [firstn (length s - length (skipn 1 (skip_run not_quote s'))) s;
                   x :: take_run not_quote s']
        else None
    | [] => None
    end
  else None.
Proof.
  unfold match_here, field_pattern. change (ngroups _) with 1.
  cbn [exec ngroups Nat.add seq map]. fold (field_opening name).
  destruct (strings.HasPrefix s (field_opening name)); [|reflexivity].
  destruct (skipn (length (field_opening name)) s) as [|x s']; [reflexivity|].
  destruct (not_quote x) eqn:Ex; [|reflexivity]. cbn [andb].
  rewrite star_commit.
  2:{ intros y rest Hy. now rewrite (not_quote_no_quote y rest Hy). }
  destruct (strings.HasPrefix (skip_run not_quote s') (Q "`")); [|reflexivity].
  cbn [capture]. rewrite Nat.eqb_refl.
  change (length (Q "`")) with 1. do 3 f_equal.
  pose proof (f_equal (@length ascii) (take_skip_run not_quote s')) as Hl.
  rewrite length_app in Hl.
  replace (length (x :: s') - length (skip_run not_quote s'))
    with (S (length s' - length (skip_run not_quote s'))) by (simpl; lia).
  cbn [firstn]. f_equal. apply take_run_length.
Qed.

Lemma search_here (r : re) (text s : str) (m : list str) :
  match_here r text s = Some m -> search r text s = Some m.
Proof. intros H. destruct s; simpl; now rewrite H. Qed.

Lemma search_none (r : re) (text s : str) :
  (forall a b, s = a ++ b -> match_here r text b = None) -> search r text s = None.
Proof.
  induction s as [|x s IH]; intros H; simpl.
  - now rewrite (H [] [] eq_refl).
  - rewrite (H [] (x :: s) eq_refl). apply IH.
    intros a b ->. now apply (H (x :: a) b).
Qed.

Lemma search_skip (r : re) (text a rest : str) :
  (forall a1 a2, a = a1 ++ a2 -> a2 <> [] -> match_here r text (a2 ++ rest) = None) ->
  search r text (a ++ rest) = search r text rest.
Proof.
  induction a as [|x a IH]; intros H; [reflexivity|].
  assert (H0 : match_here r text ((x :: a) ++ rest) = None)
    by (apply (H [] (x :: a) eq_refl); discriminate).
  cbn [app search] in H0 |- *. rewrite H0.
  apply IH. intros a1 a2 -> Hne. now apply (H (x :: a1) a2).
Qed.

Lemma Index_first (a rest lit : str) :
  Index (a ++ rest) lit = Some (length a) ->
  forall a1 a2, a = a1 ++ a2 -> a2 <> [] -> strings.HasPrefix (a2 ++ rest) lit = false.
Proof.
  intros H a1. revert a H. induction a1 as [|x a1 IH]; intros a H a2 -> Hne.
  - destruct a2 as [|y a2]; [contradiction|]. simpl in H |- *.
    destruct (strings.HasPrefix (y :: a2 ++ rest) lit); [discriminate|reflexivity].
  - cbn [app Index length] in H.
    destruct (strings.HasPrefix (x :: (a1 ++ a2) ++ rest) lit); [discriminate|].
    destruct (Index ((a1 ++ a2) ++ rest) lit) as [n|] eqn:E; [|discriminate].
    injection H as ->. now apply (IH (a1 ++ a2) E a2).
Qed.

Lemma skip_run_stop (c : ascii -> bool) (v rest : str) (x : ascii) :
  forallb c v = true -> c x = false ->
  skip_run c (v ++ x :: rest) = x :: rest /\ take_run c (v ++ x :: rest) = v.
Proof.
  intros Hv Hx. induction v as [|y v IH]; simpl.
  - now rewrite Hx.
  - simpl in Hv. apply andb_true_iff in Hv as [Hy Hv]. rewrite Hy.
    destruct (IH Hv) as [-> ->]. now split.
Qed.

(** The first value of a field, read back from markup that holds it. *)
Lemma first_group_field (name a v b : str) :
  let html := a ++ field_opening name ++ v ++ Q "`" ++ b in
  Index html (field_opening name) = Some (length a) ->
  v <> [] -> forallb not_quote v = true ->
  first_group (field_pattern name) html = Some v.
Proof.
  intros html Hfirst Hne Hv. unfold first_group, FindStringSubmatch.
  change (search (field_pattern name) html html)
    with (search (field_pattern name) html (a ++ field_opening name ++ v ++ Q "`" ++ b)).
  rewrite search_skip.
  2:{ intros a1 a2 Ha Hn. rewrite field_pattern_here.
      now rewrite (Index_first a _ _ Hfirst a1 a2 Ha Hn). }
  destruct v as [|x v]; [contradiction|]. simpl in Hv. apply andb_true_iff in Hv as [Hx Hv].
  assert (Hhere : exists whole,
            match_here (field_pattern name) html
              (field_opening name ++ (x :: v) ++ Q "`" ++ b) = Some [whole; x :: v]).
  { rewrite field_pattern_here.
    replace (strings.HasPrefix (field_opening name ++ (x :: v) ++ Q "`" ++ b)
               (field_opening name))
      with true by (symmetry; apply HasPrefix_spec; eauto).
    rewrite skipn_app, skipn_all, Nat.sub_diag. cbn [app skipn]. rewrite Hx.
    change (v ++ Q "`" ++ b) with (v ++ "034"%char :: b).
    destruct (skip_run_stop not_quote v b "034" Hv eq_refl) as [-> ->].
    eexists. reflexivity. }
  destruct Hhere as [whole Hhere]. now rewrite (search_here _ _ _ _ Hhere).
Qed.

Lemma first_group_absent (name html : str) :
  strings.Contains html (field_opening name) = false ->
  first_group (field_pattern name) html = None.
Proof.
  intros H. unfold first_group, FindStringSubmatch. rewrite search_none; [reflexivity|].
  intros a b ->. rewrite field_pattern_here.
  replace (strings.HasPrefix b (field_opening name)) with false; [reflexivity|].
  symmetry. destruct (strings.HasPrefix b (field_opening name)) eqn:E; [|reflexivity].
  apply HasPrefix_spec in E as [t ->]. rewrite Contains_false in H.
  exfalso. now apply (H a t).
Qed.

Lemma quality_pattern (key : string) :
  key ∈ quality_keys -> metadataPatterns key = field_pattern (quality_field key).
Proof.
  unfold quality_keys. rewrite !elem_of_cons, elem_of_nil.
  intros [-> | [-> | [-> | [-> | [-> | []]]]]]; reflexivity.
Qed.

(** X18. A field of the page state is read back: when the
    markup holds the field of a quality tier with a non-empty value free of
    double quotes, and the field does not occur before, the quality-tier map
    binds the key of the tier to the unescaped value. *)
Theorem quality_field_read_back (key : string) (a v b : str) :
  let html := a ++ field_opening (quality_field key) ++ v ++ Q "`" ++ b in
  key ∈ quality_keys ->
  Index html (field_opening (quality_field key)) = Some (length a) ->
  v <> [] -> forallb not_quote v = true ->
  videoUrls_of html !! key = Some (unescape v).
Proof.
  intros html Hkey Hfirst Hne Hv. subst html. rewrite videoUrls_of_lookup.
  rewrite bool_decide_eq_true_2 by exact Hkey.
  rewrite (quality_pattern key Hkey).
  pose proof (first_group_field (quality_field key) a v b Hfirst Hne Hv) as Hg.
  cbv zeta in Hg. now rewrite Hg.
Qed.

Lemma quality_field_read_back_witness :
  videoUrls_of clip_markup !! "browser_hd"%string =
  Some ("https://video.example/hd.mp4?a=1&b=2" : str).
Proof.
  apply (quality_field_read_back "browser_hd" "<script>{" clip_hd_escaped
           ",`playable_duration_in_ms`:30000}</script>").
  - vm_compute. repeat constructor.
  - vm_compute. reflexivity.
  - discriminate.
  - vm_compute. reflexivity.
Defined.

(** X19. A key of the quality-tier map is bound only if the
    opening of its field occurs in the markup: without it the key is
    missing, whatever the other fields are. *)
Theorem quality_field_absent (key : string) (html : str) :
  strings.Contains html (field_opening (quality_field key)) = false ->
  videoUrls_of html !! key = None.
Proof.
  intros H. rewrite videoUrls_of_lookup.
  destruct (bool_decide (key ∈ quality_keys)) eqn:E; [|reflexivity].
  apply bool_decide_eq_true in E.
  now rewrite (quality_pattern key E), (first_group_absent _ _ H).
Qed.

Lemma quality_field_absent_witness :
  videoUrls_of clip_markup !! "sd_src"%string = None.
Proof.
  apply (quality_field_absent "sd_src" clip_markup). vm_compute. reflexivity.
Defined.

(** ** Identifier, duration and metadata *)

(** A group [(c+)] captures a non-empty run of bytes of the class. *)
Lemma plus_group_capture {A : Type} (c : ascii -> bool) (n : nat) (text s : str)
    (caps : captures) (k : str -> captures -> option A) (a : A) :
  exec (Group (Plus c)) n text s caps k = Some a ->
  exists s' g, k s' ((n, g) :: caps) = Some a /\ g <> [] /\ forallb c g = true.
Proof.
  cbn [exec]. destruct s as [|x s]; [discriminate|].
  destruct (c x) eqn:Ex; [|discriminate].
  intros H. apply star_some in H as [m [Hm H]].
  exists (skipn m s), (x :: firstn m s). split; [|split; [discriminate|]].
  - rewrite <- H. do 3 f_equal.
    pose proof (firstn_skipn_length m s) as Hl. rewrite <- Hl.
    assert (length (skipn m s) <= length s) by (rewrite length_skipn; lia).
    replace (length (x :: s) - length (skipn m s))
      with (S (length s - length (skipn m s))) by (simpl; lia).
    reflexivity.
  - simpl. now rewrite Ex, Hm.
Qed.

Lemma digits_captured (key : string) (html g : str) :
  key = "video_id"%string \/ key = "duration"%string ->
  first_group (metadataPatterns key) html = Some g ->
  g <> [] /\ forallb digit g = true.
Proof.
  intros Hkey. unfold first_group, FindStringSubmatch.
  destruct (search (metadataPatterns key) html html) as [m|] eqn:E; [|discriminate].
  apply search_some in E as [s E]. revert E. unfold match_here.
  destruct Hkey as [-> | ->]; cbn [metadataPatterns ngroups Nat.add seq map exec].
  - destruct (strings.HasPrefix s (Q "`video_id`:")); [|discriminate].
    set (s1 := skipn (length (Q "`video_id`:")) s).
    intros E.
    assert (Hg : exists s2, exec (Group (Plus digit)) 1 html s2 []
                   (fun s' caps' =>
                      match (if strings.HasPrefix s' (Q "`")
                             then Some (firstn (length s - length (skipn (length (Q "`")) s')) s ::
                                        [capture caps' 1])
                             else None) with
                      | Some a => Some a
                      | None => Some (firstn (length s - length s') s :: [capture caps' 1])
                      end) = Some m).
    { revert E. destruct (strings.HasPrefix s1 (Q "`")).
      - match goal with |- match ?x with Some _ => _ | None => _ end = _ -> _ =>
          destruct x eqn:E1 end.
        + intros [= ->]. eexists. exact E1.
        + intros E. eexists. exact E.
      - intros E. eexists. exact E. }
    destruct Hg as [s2 Hg]. apply plus_group_capture in Hg as [s' [g' [Hk Hd]]].
    revert Hk. cbn [capture Nat.eqb].
    destruct (strings.HasPrefix s' (Q "`")); intros [= <-]; now intros [= <-].
  - destruct (strings.HasPrefix s (Q "`playable_duration_in_ms`:")); [|discriminate].
    intros E.
    apply (plus_group_capture digit 1 html
             (skipn (length (Q "`playable_duration_in_ms`:")) s) []
             (fun s' caps' => Some (firstn (length s - length s') s :: [capture caps' 1])))
      in E as [s' [g' [Hk Hd]]].
    revert Hk. cbn [capture Nat.eqb]. intros [= <-]. now intros [= <-].
Qed.

Lemma digits_value_bounds (s : str) (acc v : Z) :
  (0 <= acc)%Z -> strconv.digits_value acc s = Some v -> (acc <= v)%Z.
Proof.
  revert acc. induction s as [|c s IH]; intros acc Hacc; simpl.
  - intros [= <-]. lia.
  - destruct (digit c); [|discriminate]. intros H.
    apply IH in H; lia.
Qed.

Lemma digit_no_sign (c : ascii) :
  digit c = true -> Ascii.eqb c "-" = false /\ Ascii.eqb c "+" = false.
Proof. by_byte c. Qed.

Lemma ParseInt_digits (g : str) (v : Z) :
  g <> [] -> forallb digit g = true -> strconv.ParseInt g = Some v ->
  (0 <= v <= 2 ^ 63 - 1)%Z.
Proof.
  destruct g as [|c g]; [contradiction|]. intros _ Hd. simpl in Hd.
  apply andb_true_iff in Hd as [Hc Hd]. unfold strconv.ParseInt.
  destruct (digit_no_sign c Hc) as [-> ->].
  destruct (strconv.digits_value 0 (c :: g)) as [v'|] eqn:E; [|discriminate].
  apply digits_value_bounds in E; [|lia].
  destruct ((- 2 ^ 63 <=? v') && (v' <=? 2 ^ 63 - 1))%Z eqn:Er; [|discriminate].
  intros [= <-]. apply andb_true_iff in Er as [_ Er]. apply Z.leb_le in Er. lia.
Qed.

Lemma extractVideoMetadata_fields (html : str) :
  videoID_of html =
    match first_group (metadataPatterns "video_id") html with Some g => g | None => [] end /\
  duration_of html =
    match first_group (metadataPatterns "duration") html with
    | Some g => match strconv.ParseInt g with Some ms => (ms ÷ 1000)%Z | None => 0%Z end
    | None => 0%Z
    end /\
  metadata_of html !! "video_id"%string = first_group (metadataPatterns "video_id") html /\
  metadata_of html !! "title"%string =
    match first_group (metadataPatterns "title") html with
    | Some _ => Some (title_of html)
    | None => None
    end /\
  (first_group (metadataPatterns "title") html = None -> title_of html = []) /\
  metadata_of html !! "duration"%string =
    match first_group (metadataPatterns "duration") html with
    | Some g =>
        match strconv.ParseInt g with
        | Some _ => Some (Sprintf_d (duration_of html) ++ (" seconds" : str))
        | None => None
        end
    | None => None
    end /\
  forall key, key <> "video_id"%string -> key <> "title"%string -> key <> "duration"%string ->
              metadata_of html !! key = None.
Proof.
  unfold videoID_of, title_of, duration_of, metadata_of, extractVideoMetadata.
  destruct (first_group (metadataPatterns "video_id") html) as [id|];
    destruct (first_group (metadataPatterns "title") html) as [t|];
    destruct (first_group (metadataPatterns "duration") html) as [d|];
    try destruct (strconv.ParseInt d) as [ms|]; cbn [fst snd];
    repeat split; try reflexivity; try discriminate;
    try (intros key H1 H2 H3);
    repeat (rewrite lookup_insert_ne by congruence);
    try rewrite lookup_insert; try apply lookup_empty; try reflexivity.
Qed.

Lemma duration_bounds (html : str) : (0 <= duration_of html <= 9223372036854775)%Z.
Proof.
  destruct (extractVideoMetadata_fields html) as [_ [Hd _]]. rewrite Hd.
  destruct (first_group (metadataPatterns "duration") html) as [g|] eqn:E; [|lia].
  destruct (strconv.ParseInt g) as [ms|] eqn:Ep; [|lia].
  destruct (digits_captured "duration" html g (or_intror eq_refl) E) as [Hne Hg].
  pose proof (ParseInt_digits g ms Hne Hg Ep) as Hms. split.
  - apply Z.quot_pos; lia.
  - change 9223372036854775%Z with ((2 ^ 63 - 1) ÷ 1000)%Z.
    apply Z.quot_le_mono; lia.
Qed.

(** X20. The identifier that the metadata extractor returns is
    made of decimal digits, and the duration is never negative: it lies
    between 0 and 9223372036854775 seconds, whatever the markup. *)
Theorem identifier_digits_duration_bounds (html : str) :
  forallb digit (videoID_of html) = true /\
  (0 <= duration_of html <= 9223372036854775)%Z.
Proof.
  split; [|apply duration_bounds].
  destruct (extractVideoMetadata_fields html) as [Hid _]. rewrite Hid.
  destruct (first_group (metadataPatterns "video_id") html) as [g|] eqn:E; [|reflexivity].
  now apply (digits_captured "video_id" html g (or_introl eq_refl)).
Qed.

(** X21. The metadata map mirrors the scalar results and
    holds nothing else: its keys are among video_id, title and duration; the
    identifier is bound exactly when it is not empty; a bound title is the
    returned title and a bound duration is the returned duration followed by
    the word seconds; an unbound one means an empty title, a zero
    duration. *)
Theorem metadata_mirrors_fields (html : str) :
  dom (metadata_of html) ⊆ {["video_id"%string; "title"%string; "duration"%string]} /\
  metadata_of html !! "video_id"%string =
    (if nonempty (videoID_of html) then Some (videoID_of html) else None) /\
  (forall t, metadata_of html !! "title"%string = Some t -> t = title_of html) /\
  (metadata_of html !! "title"%string = None -> title_of html = []) /\
  (forall t, metadata_of html !! "duration"%string = Some t ->
             t = Sprintf_d (duration_of html) ++ (" seconds" : str)) /\
  (metadata_of html !! "duration"%string = None -> duration_of html = 0%Z).
Proof.
  destruct (extractVideoMetadata_fields html) as [Hid [Hd [Hmi [Hmt [Ht [Hmd Hother]]]]]].
  split; [|split; [|split; [|split; [|split]]]].
  - intros key Hkey. apply elem_of_dom in Hkey as [v Hv].
    destruct (decide (key = "video_id"%string)) as [-> | H1]; [set_solver|].
    destruct (decide (key = "title"%string)) as [-> | H2]; [set_solver|].
    destruct (decide (key = "duration"%string)) as [-> | H3]; [set_solver|].
    rewrite (Hother key H1 H2 H3) in Hv. discriminate.
  - rewrite Hmi, Hid.
    destruct (first_group (metadataPatterns "video_id") html) as [g|] eqn:E; [|reflexivity].
    destruct (digits_captured "video_id" html g (or_introl eq_refl) E) as [Hne _].
    now destruct g.
  - intros t. rewrite Hmt.
    destruct (first_group (metadataPatterns "title") html); [now intros [= <-] | discriminate].
  - rewrite Hmt.
    destruct (first_group (metadataPatterns "title") html); [discriminate | intros _; now apply Ht].
  - intros t. rewrite Hmd.
    destruct (first_group (metadataPatterns "duration") html) as [g|]; [|discriminate].
    destruct (strconv.ParseInt g); [now intros [= <-] | discriminate].
  - rewrite Hmd, Hd.
    destruct (first_group (metadataPatterns "duration") html) as [g|]; [|reflexivity].
    destruct (strconv.ParseInt g); [discriminate | reflexivity].
Qed.

(** ** Unescaping *)

Lemma replace_from_skipn (old new : str) (k : nat) (s : str) :
  strings.replace_from old new k s = strings.replace_from old new 0 (skipn k s).
Proof.
  revert k. induction s as [|c s IH]; intros k.
  - now destruct k.
  - destruct k; [reflexivity|]. simpl. apply IH.
Qed.

Lemma ReplaceAll_step (old new : str) (c : ascii) (s : str) :
  old <> [] ->
  strings.ReplaceAll (c :: s) old new =
  if strings.HasPrefix (c :: s) old
  then new ++ strings.ReplaceAll (skipn (length old) (c :: s)) old new
  else c :: strings.ReplaceAll s old new.
Proof.
  unfold strings.ReplaceAll. destruct old as [|o old']; [contradiction|]. intros _.
  cbn [strings.replace_from]. destruct (strings.HasPrefix (c :: s) (o :: old')); [|reflexivity].
  rewrite replace_from_skipn. simpl length. simpl skipn. now rewrite Nat.sub_0_r.
Qed.

Section Replace.
Variables old new : str.
Hypothesis old_nonempty : old <> [].

Lemma ReplaceAll_nil : strings.ReplaceAll [] old new = [].
Proof. unfold strings.ReplaceAll. now destruct old. Qed.

Lemma ReplaceAll_cons (c : ascii) (s : str) :
  strings.ReplaceAll (c :: s) old new =
  if strings.HasPrefix (c :: s) old
  then new ++ strings.ReplaceAll (skipn (length old) (c :: s)) old new
  else c :: strings.ReplaceAll s old new.
Proof. now apply ReplaceAll_step. Qed.

(** Text without an occurrence of [old] is left as it is. *)
Lemma ReplaceAll_absent (s : str) :
  strings.Contains s old = false -> strings.ReplaceAll s old new = s.
Proof.
  induction s as [|c s IH]; intros H; [apply ReplaceAll_nil|].
  rewrite ReplaceAll_cons. simpl in H. apply orb_false_iff in H as [H1 H2].
  rewrite H1. now rewrite (IH H2).
Qed.

Lemma ReplaceAll_length (s : str) :
  length new <= length old -> length (strings.ReplaceAll s old new) <= length s.
Proof.
  intros Hlen. remember (length s) as n eqn:Hn. revert s Hn.
  induction n as [n IH] using lt_wf_ind. intros s Hn.
  destruct s as [|c s]; [rewrite ReplaceAll_nil; simpl; lia|].
  rewrite ReplaceAll_cons.
  destruct (strings.HasPrefix (c :: s) old) eqn:E.
  - apply HasPrefix_spec in E as [t Ht]. rewrite Ht at 1.
    rewrite skipn_app, skipn_all, Nat.sub_diag. cbn [app]. change (skipn 0 t) with t.
    rewrite length_app.
    assert (Hold : 0 < length old) by (destruct old; [contradiction | simpl; lia]).
    assert (Hs : length (c :: s) = length old + length t) by (now rewrite Ht, length_app).
    pose proof (IH (length t) ltac:(lia) t eq_refl). lia.
  - simpl. pose proof (IH (length s) ltac:(simpl in Hn; lia) s eq_refl). simpl in Hn. lia.
Qed.

Section NoNewOccurrence.
Variable p : str.
Hypothesis new_nonempty : new <> [].
Hypothesis apart_new : forall c, In c new -> ~ In c p.

Lemma HasPrefix_head (s q : str) (d : ascii) :
  strings.HasPrefix s (d :: q) = true -> exists t, s = d :: t /\ strings.HasPrefix t q = true.
Proof.
  destruct s as [|c s]; [discriminate|]. simpl.
  rewrite andb_true_iff. intros [E H]. apply Ascii.eqb_eq in E. subst. eauto.
Qed.

(** Where the result of a replacement starts with [p], so does the text,
    and no replacement is made there. *)
Lemma ReplaceAll_prefix (q s : str) :
  (forall c, In c q -> In c p) -> q <> [] ->
  strings.HasPrefix (strings.ReplaceAll s old new) q = true ->
  strings.HasPrefix s old = false /\ strings.HasPrefix s q = true.
Proof.
  revert s. induction q as [|d q IH]; intros s Hq Hne H; [contradiction|].
  destruct s as [|c s].
  - rewrite ReplaceAll_nil in H. discriminate.
  - rewrite ReplaceAll_cons in H.
    destruct (strings.HasPrefix (c :: s) old) eqn:E.
    + exfalso. destruct new as [|n0 new']; [contradiction|].
      apply HasPrefix_head in H as [t [Ht _]]. injection Ht as -> _.
      apply (apart_new d); [now left | apply Hq; now left].
    + split; [reflexivity|].
      apply HasPrefix_head in H as [t [Ht H]]. injection Ht as -> <-.
      simpl. rewrite Ascii.eqb_refl. cbn [andb].
      destruct q as [|e q]; [reflexivity|].
      apply (IH s); [intros x Hx; apply Hq; now right | discriminate | exact H].
Qed.

Lemma Contains_after (a t q : str) (d : ascii) :
  (forall c, In c a -> c <> d) ->
  strings.Contains (a ++ t) (d :: q) = true -> strings.Contains t (d :: q) = true.
Proof.
  induction a as [|c a IH]; intros Ha H; [exact H|].
  cbn [app] in H. cbn [strings.Contains] in H. apply orb_true_iff in H as [H | H].
  - apply HasPrefix_head in H as [t' [Ht _]]. injection Ht as -> _.
    exfalso. now apply (Ha d (or_introl eq_refl)).
  - apply IH; [intros x Hx; apply Ha; now right | exact H].
Qed.

(** An occurrence of [p] in the result starts where the scan copies the
    text. *)
Lemma ReplaceAll_occurrence (s : str) :
  p <> [] ->
  strings.Contains (strings.ReplaceAll s old new) p = true ->
  exists a b, s = a ++ b /\ strings.HasPrefix (strings.ReplaceAll b old new) p = true.
Proof.
  intros Hp. remember (length s) as n eqn:Hn. revert s Hn.
  induction n as [n IH] using lt_wf_ind. intros s Hn H.
  destruct (strings.HasPrefix (strings.ReplaceAll s old new) p) eqn:E0;
    [now exists [], s|].
  destruct s as [|c s].
  { rewrite ReplaceAll_nil in H, E0. simpl in H. rewrite E0 in H. discriminate. }
  rewrite ReplaceAll_cons in H, E0.
  destruct (strings.HasPrefix (c :: s) old) eqn:E.
  - destruct p as [|d q]; [contradiction|].
    apply Contains_after in H.
    2:{ intros x Hx ->. apply (apart_new d Hx). now left. }
    pose proof E as E'. apply HasPrefix_spec in E' as [t Ht].
    rewrite Ht in H at 1. rewrite skipn_app, skipn_all, Nat.sub_diag in H. cbn [app] in H.
    change (skipn 0 t) with t in H.
    assert (Hold : 0 < length old) by (destruct old; [contradiction | simpl; lia]).
    assert (Hs : length (c :: s) = length old + length t) by (now rewrite Ht, length_app).
    destruct (IH (length t) ltac:(lia) t eq_refl H) as [a [b [-> Hb]]].
    exists (old ++ a), b. split; [now rewrite Ht, app_assoc | exact Hb].
  - cbn [strings.Contains] in H. rewrite E0 in H. cbn [orb] in H.
    destruct (IH (length s) ltac:(simpl in Hn; lia) s eq_refl H) as [a [b [-> Hb]]].
    now exists (c :: a), b.
Qed.

(** A replacement brings in no occurrence of [p]. *)
Lemma ReplaceAll_no_new_occurrence (s : str) :
  p <> [] ->
  strings.Contains (strings.ReplaceAll s old new) p = true -> strings.Contains s p = true.
Proof.
  intros Hp H. apply (ReplaceAll_occurrence s Hp) in H as [a [b [-> Hb]]].
  apply (ReplaceAll_prefix p b (fun c H => H) Hp) in Hb as [_ Hb].
  apply HasPrefix_spec in Hb as [t ->]. apply Contains_middle.
Qed.
End NoNewOccurrence.

(** When [new] shares no byte with [old], no occurrence of [old] is left. *)
Lemma ReplaceAll_removes (s : str) :
  new <> [] -> (forall c, In c new -> ~ In c old) ->
  strings.Contains (strings.ReplaceAll s old new) old = false.
Proof.
  intros Hnew Hapart.
  destruct (strings.Contains (strings.ReplaceAll s old new) old) eqn:E; [|reflexivity].
  apply (ReplaceAll_occurrence old Hapart s old_nonempty) in E as [a [b [-> Hb]]].
  apply (ReplaceAll_prefix old Hnew Hapart old b (fun c H => H) old_nonempty) in Hb as [H1 H2].
  congruence.
Qed.
End Replace.

Lemma unescape_without_backslash (url : str) :
  strings.Contains url "\" = false -> unescape url = url.
Proof.
  intros H. unfold unescape.
  assert (H1 : strings.Contains url "\u0026" = false).
  { destruct (strings.Contains url "\u0026") eqn:E; [|reflexivity].
    rewrite <- H. symmetry. now apply (Contains_trans url "\u0026" "\"). }
  assert (H2 : strings.Contains url "\/" = false).
  { destruct (strings.Contains url "\/") eqn:E; [|reflexivity].
    rewrite <- H. symmetry. now apply (Contains_trans url "\/" "\"). }
  rewrite (ReplaceAll_absent "\u0026" "&" ltac:(discriminate) url H1).
  now rewrite (ReplaceAll_absent "\/" "/" ltac:(discriminate) url H2).
Qed.

Lemma unescape_length (url : str) : length (unescape url) <= length url.
Proof.
  unfold unescape.
  pose proof (ReplaceAll_length "\u0026" "&" ltac:(discriminate) url ltac:(simpl; lia)).
  pose proof (ReplaceAll_length "\/" "/" ltac:(discriminate)
                (strings.ReplaceAll url "\u0026" "&") ltac:(simpl; lia)).
  lia.
Qed.

Lemma unescape_no_escaped_ampersand (url : str) :
  strings.Contains (unescape url) "\u0026" = false.
Proof.
  unfold unescape.
  destruct (strings.Contains
              (strings.ReplaceAll (strings.ReplaceAll url "\u0026" "&") "\/" "/") "\u0026")
    eqn:E; [|reflexivity].
  assert (Hslash : forall c : ascii, In c ("/" : str) -> ~ In c ("\u0026" : str)).
  { intros c [<- | []] Hin. simpl in Hin. intuition discriminate. }
  assert (Hamp : forall c : ascii, In c ("&" : str) -> ~ In c ("\u0026" : str)).
  { intros c [<- | []] Hin. simpl in Hin. intuition discriminate. }
  apply (ReplaceAll_no_new_occurrence "\/" "/" ltac:(discriminate) "\u0026"
           ltac:(discriminate) Hslash _ ltac:(discriminate)) in E.
  rewrite (ReplaceAll_removes "\u0026" "&" ltac:(discriminate) url ltac:(discriminate) Hamp)
    in E.
  discriminate.
Qed.

(** X22. Unescaping leaves a URL without backslash as it is,
    never makes a URL longer, and leaves no escaped ampersand: the result
    does not contain the six bytes of the escape. *)
Theorem unescape_decodes (url : str) :
  (strings.Contains url "\" = false -> unescape url = url) /\
  length (unescape url) <= length url /\
  strings.Contains (unescape url) "\u0026" = false.
Proof.
  split; [apply unescape_without_backslash|].
  split; [apply unescape_length | apply unescape_no_escaped_ampersand].
Qed.

(** X23. Every URL that the source-markup strategy
    returns, video or image, is the unescaped text of a capture: it contains
    no escaped ampersand. *)
Theorem source_result_unescaped (page : Page) (pageType : str) (r : ExtractResponse) :
  extractFromSourceCode page pageType = Some r ->
  (exists html pattern capture,
     HTML page = Some html /\ In pattern (videoPatterns ++ imagePatterns) /\
     In capture (concat (FindAllStringSubmatch pattern html)) /\
     MediaURL r = unescape capture) /\
  strings.Contains (MediaURL r) "\u0026" = false.
Proof.
  intros H.
  assert (Hc : exists html pattern capture,
             HTML page = Some html /\ In pattern (videoPatterns ++ imagePatterns) /\
             In capture (concat (FindAllStringSubmatch pattern html)) /\
             MediaURL r = unescape capture).
  { revert H. unfold extractFromSourceCode.
    destruct (HTML page) as [html|]; [|discriminate].
    destruct (find_video_in_source html) as [url|] eqn:Ev.
    - destruct (extractVideoMetadata html) as [[[[videoID title] duration] videoUrls] metadata].
      intros [= <-]. cbn [MediaURL].
      unfold find_video_in_source in Ev. apply first_some_found in Ev as [pattern [Hp Ev]].
      apply first_some_found in Ev as [m [Hm Ev]].
      destruct m as [|whole [|capture m]]; try discriminate.
      destruct (isValidVideoURL (unescape capture)); [|discriminate]. injection Ev as <-.
      exists html, pattern, capture. repeat split.
      + apply in_or_app. now left.
      + apply in_concat. exists (whole :: capture :: m). split; [exact Hm | right; now left].
    - destruct (bool_decide (pageType = ("image" : str))); [|discriminate].
      intros H. apply first_some_found in H as [pattern [Hp H]].
      destruct (FindStringSubmatch pattern html) as [m|] eqn:Em; [|discriminate].
      destruct m as [|whole [|capture m]]; try discriminate.
      destruct (isValidImageURL (unescape capture) && negb (isValidVideoURL (unescape capture)));
        [|discriminate].
      injection H as <-. cbn [MediaURL plain_response].
      exists html, pattern, capture. repeat split.
      + apply in_or_app. now right.
      + apply FindAll_head in Em as [rest ->]. cbn [concat]. right. now left. }
  split; [exact Hc|].
  destruct Hc as [html [pattern [capture [_ [_ [_ ->]]]]]]. apply unescape_no_escaped_ampersand.
Qed.

Lemma source_result_unescaped_witness :
  exists r, extractFromSourceCode (page_of_images [] clip_markup) "video" = Some r /\
            strings.Contains (MediaURL r) "\u0026" = false.
Proof.
  destruct (extractFromSourceCode (page_of_images [] clip_markup) "video") as [r|] eqn:E.
  - exists r. split; [reflexivity|].
    now destruct (source_result_unescaped _ _ _ E) as [_ H].
  - revert E. vm_compute. discriminate.
Defined.

(** ** Normalizing twice *)

(** X24. Normalization is idempotent on every accepted input
    whose decoded path is made of plain bytes (no control byte, no percent
    sign, question mark or fragment sign): the address returned is
    normalized to itself. *)
Theorem normalizer_fixed_point
    (Parse : str -> url.ParseError + url.URL) (inputURL normalizedURL : str)
    (parsedURL : url.URL) :
  Parse inputURL = inr parsedURL ->
  forallb plain_byte (url.Path parsedURL) = true ->
  normalizeURL Parse inputURL = Ok normalizedURL ->
  normalizeURL url.Parse normalizedURL = Ok normalizedURL.
Proof.
  intros Hparse Hplain Hnorm.
  assert (Hmatch : MatchString threadsPattern (url.Path parsedURL) = true /\
                   normalizedURL = ("https://www.threads.net" : str) ++ url.Path parsedURL).
  { revert Hnorm. unfold normalizeURL. rewrite Hparse.
    destruct (existsb _ validDomains); [|discriminate]. cbn [negb].
    destruct (MatchString threadsPattern (url.Path parsedURL)); [|discriminate].
    cbn [negb]. now intros [= <-]. }
  destruct Hmatch as [Hmatch ->].
  rewrite MatchString_threadsPattern in Hmatch.
  destruct (after_post_path (url.Path parsedURL)) as [rest|] eqn:E; [|discriminate].
  destruct (after_post_path_shape _ rest E) as [handle [id [Hpath _]]].
  remember (url.Path parsedURL) as path eqn:Hp. clear Hp.
  assert (Hslash : exists p, path = ("/" : str) ++ p) by (rewrite Hpath; eexists; reflexivity).
  destruct Hslash as [p ->].
  destruct (Parse_post_address "https" "www.threads.net" p [] eq_refl eq_refl Hplain eq_refl)
    as [parsed [Hparsed [Hh Hpa]]].
  rewrite app_nil_r in Hparsed.
  change (("https://www.threads.net" : str) ++ ("/" : str) ++ p)
    with (("https" : str) ++ ("://" : str) ++ ("www.threads.net" : str) ++ ("/" : str) ++ p).
  rewrite (normalizer_path_check url.Parse _ parsed Hparsed) by (now rewrite Hh).
  now rewrite Hpa, E.
Qed.

Lemma normalizer_fixed_point_witness :
  normalizeURL url.Parse "https://www.threads.net/@alice/post/Cabc123/media" =
  Ok ("https://www.threads.net/@alice/post/Cabc123/media" : str).
Proof.
  apply (normalizer_fixed_point url.Parse "http://threads.com/@alice/post/Cabc123/media?x=1"
           "https://www.threads.net/@alice/post/Cabc123/media"
           (url.mkURL "http" [] [] "threads.com" "/@alice/post/Cabc123/media" "x=1" []));
    vm_compute; reflexivity.
Defined.

(** ** The duration text *)

Ltac digit_value :=
  match goal with
  | |- context [Z.of_nat (nat_of_ascii ?c - 48)] =>
      let k := eval vm_compute in (Z.of_nat (nat_of_ascii c - 48)) in
      change (Z.of_nat (nat_of_ascii c - 48)) with k
  end.

Lemma digits_value_acc (d : Decimal.uint) (acc : positive) :
  strconv.digits_value (Zpos acc) (digits_of d) = Some (Zpos (Pos.of_uint_acc d acc)).
Proof.
  revert acc. unfold digits_of.
  induction d as [|d IH|d IH|d IH|d IH|d IH|d IH|d IH|d IH|d IH|d IH]; intros acc;
    cbn [NilEmpty.string_of_uint list_ascii_of_string strconv.digits_value Pos.of_uint_acc];
    [reflexivity|..];
    change (digit _) with true; cbv iota;
    match goal with
    | |- strconv.digits_value ?v _ = Some (Zpos (Pos.of_uint_acc _ ?a)) =>
        replace v with (Zpos a) by (digit_value; lia)
    end; apply IH.
Qed.

Lemma digits_value_of_uint (d : Decimal.uint) :
  strconv.digits_value 0 (digits_of d) = Some (Z.of_N (Pos.of_uint d)).
Proof.
  unfold digits_of.
  induction d as [|d IH|d IH|d IH|d IH|d IH|d IH|d IH|d IH|d IH|d IH];
    cbn [NilEmpty.string_of_uint list_ascii_of_string strconv.digits_value Pos.of_uint];
    [reflexivity|exact IH|..];
    change (digit _) with true; cbv iota;
    match goal with
    | |- strconv.digits_value ?v _ = Some (Z.of_N (Npos (Pos.of_uint_acc _ ?a))) =>
        replace v with (Zpos a) by (digit_value; lia)
    end; apply digits_value_acc.
Qed.

Lemma digits_of_digit (d : Decimal.uint) : forallb digit (digits_of d) = true.
Proof.
  unfold digits_of. induction d; cbn [NilEmpty.string_of_uint list_ascii_of_string forallb];
    [reflexivity|..]; exact IHd.
Qed.

(** [strconv.ParseInt] reads back what [fmt.Sprintf] writes for a number
    that is not negative and fits 64 bits. *)
Lemma ParseInt_Sprintf_d (n : Z) :
  (0 <= n <= 2 ^ 63 - 1)%Z -> strconv.ParseInt (Sprintf_d n) = Some n.
Proof.
  intros Hn. unfold Sprintf_d.
  assert (Hd : exists d, Z.to_int n = Decimal.Pos d /\ d <> Decimal.Nil /\
                         Z.of_N (Pos.of_uint d) = n).
  { pose proof (DecimalZ.of_to n) as Hof. destruct n as [|p|p]; [| |lia].
    - exists (Decimal.D0 Decimal.Nil). now repeat split.
    - exists (Pos.to_uint p). repeat split; [|exact Hof].
      intros H. pose proof (DecimalPos.Unsigned.of_to p) as Hp. rewrite H in Hp. discriminate. }
  destruct Hd as [d [-> [Hne Hv]]].
  unfold NilZero.string_of_int, NilZero.string_of_uint.
  destruct d as [|d|d|d|d|d|d|d|d|d|d]; [contradiction|..];
    fold (digits_of (Decimal.D0 d)); fold (digits_of (Decimal.D1 d));
    fold (digits_of (Decimal.D2 d)); fold (digits_of (Decimal.D3 d));
    fold (digits_of (Decimal.D4 d)); fold (digits_of (Decimal.D5 d));
    fold (digits_of (Decimal.D6 d)); fold (digits_of (Decimal.D7 d));
    fold (digits_of (Decimal.D8 d)); fold (digits_of (Decimal.D9 d));
    match goal with
    | |- strconv.ParseInt (digits_of ?u) = _ =>
        pose proof (digits_value_of_uint u) as Hval; rewrite Hv in Hval;
        pose proof (digits_of_digit u) as Hdig;
        remember (digits_of u) as g eqn:Hg;
        assert (Hcons : exists c g', g = c :: g') by (rewrite Hg; unfold digits_of; cbn; eauto)
    end;
    destruct Hcons as [c [g' ->]]; clear Hg;
    simpl in Hdig; apply andb_true_iff in Hdig as [Hc _];
    unfold strconv.ParseInt; destruct (digit_no_sign c Hc) as [-> ->];
    rewrite Hval;
    replace ((- 2 ^ 63 <=? n) && (n <=? 2 ^ 63 - 1))%Z with true
      by (symmetry; apply andb_true_iff; split; apply Z.leb_le; lia);
    reflexivity.
Qed.

(** X25. The duration entry of the metadata map reads back:
    it is a decimal number followed by the word seconds, and
    [strconv.ParseInt] gives the returned duration for the number. *)
Theorem duration_text_parses_back (html t : str) :
  metadata_of html !! "duration"%string = Some t ->
  exists number,
    t = number ++ (" seconds" : str) /\
    strconv.ParseInt number = Some (duration_of html).
Proof.
  intros H. exists (Sprintf_d (duration_of html)). split.
  - destruct (extractVideoMetadata_fields html) as [_ [_ [_ [_ [_ [Hmd _]]]]]].
    rewrite Hmd in H.
    destruct (first_group (metadataPatterns "duration") html) as [g|]; [|discriminate].
    destruct (strconv.ParseInt g); [now injection H as <- | discriminate].
  - apply ParseInt_Sprintf_d. pose proof (duration_bounds html). lia.
Qed.

Lemma duration_text_parses_back_witness :
  exists number,
    ("30 seconds" : str) = number ++ (" seconds" : str) /\
    strconv.ParseInt number = Some 30%Z.
Proof.
  apply (duration_text_parses_back clip_markup "30 seconds"). vm_compute. reflexivity.
Defined.

(** ** The title *)











